(** * ios-settings-urls: the URL tree generator ([generate.py])

    A shallow embedding of the core of [generate.py]: the URL codec
    ([build_url], [get_path_segments]), the label resolver
    ([sanitize_key]), the merge engine ([merge_into]), the URL tree
    ([URLTree.add_url], [URLTree.add_alias], [URLTree.find_missing]), the
    label assignment of [Bundle.load], [add_override] and the root
    flattening step, followed by the properties checked against them.

    Python values are modelled as follows.
    - [str] is [string]; a non-ASCII character is the sequence of its UTF-8
      bytes, which is what [quote] percent-encodes.
    - a [dict] is an association list in insertion order; the operations
      below keep the keys distinct, as Python does.
    - a raised exception is the [Raise] case of [result]; the mutable
      globals of the script are an explicit record threaded through the
      calls. *)

From Stdlib Require Import String Ascii List Bool Arith Lia.
From Stdlib Require Import Sorted Permutation OrderedTypeEx DecimalString.
From Stdlib Require Import ZArith.
Import ListNotations.

Set Warnings "-register-all".

Local Open Scope string_scope.
Local Open Scope list_scope.

Infix "+++" := String.append (right associativity, at level 60).

(* ================================================================== *)
(** * The Python runtime fragment the script relies on *)
(* ================================================================== *)

Module Py.

(** Exceptions the modelled code can raise. *)
Inductive exn : Type :=
| IndexError
| KeyError (key : string)
| ValueError
| TypeError
| Exception (msg : string).

Inductive result (A : Type) : Type :=
| Ok (a : A)
| Raise (e : exn).

Arguments Ok {A} a.
Arguments Raise {A} e.

Definition bind {A B} (m : result A) (k : A -> result B) : result B :=
  match m with
  | Ok a => k a
  | Raise e => Raise e
  end.

(** ** Dictionaries *)

Definition dict (V : Type) : Type := list (string * V).

(** [d.get(k)] *)
Fixpoint dict_get {V} (k : string) (d : dict V) : option V :=
  match d with
  | [] => None
  | (k', v) :: d' => if String.eqb k k' then Some v else dict_get k d'
  end.

(** [k in d] *)
Definition dict_mem {V} (k : string) (d : dict V) : bool :=
  match dict_get k d with
  | Some _ => true
  | None => false
  end.

(** [d[k] = v]: an existing key keeps its position, a new one goes last. *)
Fixpoint dict_set {V} (k : string) (v : V) (d : dict V) : dict V :=
  match d with
  | [] => [(k, v)]
  | (k', v') :: d' =>
      if String.eqb k k' then (k', v) :: d' else (k', v') :: dict_set k v d'
  end.

(** [del d[k]], for a key that is present. *)
Definition dict_del {V} (k : string) (d : dict V) : dict V :=
  filter (fun kv => negb (String.eqb k (fst kv))) d.

(** [d.update(other)] *)
Definition dict_update {V} (d other : dict V) : dict V :=
  fold_left (fun acc kv => dict_set (fst kv) (snd kv) acc) other d.

Definition keys {V} (d : dict V) : list string := map fst d.

(** ** Strings *)

(** [s.partition(c)]: the parts before and after the first [c], when
    there is one. *)
Fixpoint partition (c : ascii) (s : string) : option (string * string) :=
  match s with
  | EmptyString => None
  | String a r =>
      if Ascii.eqb a c then Some (EmptyString, r)
      else match partition c r with
           | Some (pre, post) => Some (String a pre, post)
           | None => None
           end
  end.

(** [s.split(c)] *)
Fixpoint split (c : ascii) (s : string) : list string :=
  match s with
  | EmptyString => [EmptyString]
  | String a r =>
      if Ascii.eqb a c then EmptyString :: split c r
      else match split c r with
           | w :: ws => String a w :: ws
           | [] => [String a EmptyString]
           end
  end.

(** [c in s] *)
Fixpoint contains (c : ascii) (s : string) : bool :=
  match s with
  | EmptyString => false
  | String a r => Ascii.eqb a c || contains c r
  end.

(** [len(s) > 0] *)
Definition nonempty (s : string) : bool := Nat.ltb 0 (String.length s).

Definition startswith (s p : string) : bool := String.prefix p s.

(** [needle in s] for two strings. *)
Fixpoint is_substring (needle s : string) : bool :=
  String.prefix needle s
  || match s with
     | EmptyString => false
     | String _ r => is_substring needle r
     end.

(** [sep.join(parts)] *)
Definition join (sep : string) (parts : list string) : string :=
  String.concat sep parts.

(** [s.replace(a, b)] for single characters. *)
Fixpoint replace_char (a b : ascii) (s : string) : string :=
  match s with
  | EmptyString => EmptyString
  | String c r => String (if Ascii.eqb c a then b else c) (replace_char a b r)
  end.

Fixpoint filter_chars (keep : ascii -> bool) (s : string) : string :=
  match s with
  | EmptyString => EmptyString
  | String c r =>
      if keep c then String c (filter_chars keep r) else filter_chars keep r
  end.

Fixpoint forall_chars (p : ascii -> bool) (s : string) : bool :=
  match s with
  | EmptyString => true
  | String c r => p c && forall_chars p r
  end.

Fixpoint map_chars (f : ascii -> ascii) (s : string) : string :=
  match s with
  | EmptyString => EmptyString
  | String c r => String (f c) (map_chars f r)
  end.

(** The longest prefix without a character satisfying [stop], and the rest. *)
Fixpoint span_until (stop : ascii -> bool) (s : string) : string * string :=
  match s with
  | EmptyString => (EmptyString, EmptyString)
  | String c r =>
      if stop c then (EmptyString, s)
      else let (pre, post) := span_until stop r in (String c pre, post)
  end.

(** [sorted(l)] on strings: ascending by code point. *)
Fixpoint insert_sorted (x : string) (l : list string) : list string :=
  match l with
  | [] => [x]
  | y :: l' => if String.leb x y then x :: l else y :: insert_sorted x l'
  end.

Fixpoint sort (l : list string) : list string :=
  match l with
  | [] => []
  | x :: l' => insert_sorted x (sort l')
  end.

End Py.

Import Py.

Notation "x <- m ;; k" := (bind m (fun x => k))
  (at level 61, m at next level, right associativity).
Notation "' pat <- m ;; k" := (bind m (fun x => match x with pat => k end))
  (at level 61, pat pattern, m at next level, right associativity).

(* ================================================================== *)
(** * [urllib.parse]: [urlparse], [parse_qs] and [quote] *)
(* ================================================================== *)

(** The model follows CPython 3.11's [urllib/parse.py].  Two checks of
    [urlsplit] on the network location are outside it: a location with a
    square bracket is rejected as a whole (the runtime accepts an IP
    literal there, after validating it with [ipaddress]), and the NFKC
    check of a non-ASCII location is not made.  [unquote] keeps the bytes
    of an escape sequence as they are, where the runtime substitutes
    U+FFFD for bytes that are not UTF-8. *)

Module Urllib.

Record ParseResult : Type := mkParseResult {
  scheme : string;
  netloc : string;
  path : string;
  params : string;
  query : string;
  fragment : string
}.

Definition code (c : ascii) : nat := nat_of_ascii c.

Definition in_range (lo hi : ascii) (c : ascii) : bool :=
  Nat.leb (code lo) (code c) && Nat.leb (code c) (code hi).

Definition is_upper := in_range "A" "Z".
Definition is_lower := in_range "a" "z".
Definition is_digit := in_range "0" "9".
Definition is_alpha (c : ascii) : bool := is_upper c || is_lower c.

Definition is_one_of (cs : string) (c : ascii) : bool := contains c cs.

(** [scheme_chars] *)
Definition is_scheme_char (c : ascii) : bool :=
  is_alpha c || is_digit c || is_one_of "+-." c.

Definition lower_char (c : ascii) : ascii :=
  if is_upper c then ascii_of_nat (code c + 32) else c.

Definition lower : string -> string := map_chars lower_char.

(** [_WHATWG_C0_CONTROL_OR_SPACE] *)
Definition is_c0_or_space (c : ascii) : bool := Nat.leb (code c) 32.

Fixpoint lstrip (p : ascii -> bool) (s : string) : string :=
  match s with
  | EmptyString => EmptyString
  | String c r => if p c then lstrip p r else s
  end.

(** [_UNSAFE_URL_BYTES_TO_REMOVE]: tab, carriage return, line feed. *)
Definition is_unsafe_byte (c : ascii) : bool :=
  Nat.eqb (code c) 9 || Nat.eqb (code c) 13 || Nat.eqb (code c) 10.

Definition first_is (p : ascii -> bool) (s : string) : bool :=
  match s with
  | EmptyString => false
  | String c _ => p c
  end.

Definition urlsplit (url0 : string) : result ParseResult :=
  let url := lstrip is_c0_or_space url0 in
  let url := filter_chars (fun c => negb (is_unsafe_byte c)) url in
  let '(scheme, url) :=
    match partition ":" url with
    | Some (pre, post) =>
        if first_is is_alpha pre && forall_chars is_scheme_char pre
        then (lower pre, post)
        else (EmptyString, url)
    | None => (EmptyString, url)
    end in
  netloc_url <-
    (if startswith url "//" then
       let (netloc, rest) :=
         span_until (is_one_of "/?#") (String.substring 2 (String.length url - 2) url) in
       if contains "[" netloc || contains "]" netloc then Raise ValueError
       else Ok (netloc, rest)
     else Ok (EmptyString, url)) ;;
  let '(netloc, url) := netloc_url in
  let '(url, fragment) :=
    match partition "#" url with
    | Some (pre, post) => (pre, post)
    | None => (url, EmptyString)
    end in
  let '(url, query) :=
    match partition "?" url with
    | Some (pre, post) => (pre, post)
    | None => (url, EmptyString)
    end in
  Ok (mkParseResult scheme netloc url EmptyString query fragment).

Definition uses_params : list string :=
  [""; "ftp"; "hdl"; "prospero"; "http"; "imap"; "https"; "shttp"; "rtsp";
   "rtspu"; "sip"; "sips"; "mms"; "sftp"; "tel"].

(** The part of [s] up to and including its last [c], and what follows. *)
Fixpoint rpartition_keep (c : ascii) (s : string) : option (string * string) :=
  match s with
  | EmptyString => None
  | String a r =>
      match rpartition_keep c r with
      | Some (pre, post) => Some (String a pre, post)
      | None => if Ascii.eqb a c then Some (String a EmptyString, r) else None
      end
  end.

Definition _splitparams (url : string) : string * string :=
  match rpartition_keep "/" url with
  | Some (dir, base) =>
      match partition ";" base with
      | Some (pre, post) => (dir +++ pre, post)
      | None => (url, EmptyString)
      end
  | None =>
      match partition ";" url with
      | Some (pre, post) => (pre, post)
      | None => (url, EmptyString)
      end
  end.

Definition urlparse (url : string) : result ParseResult :=
  r <- urlsplit url ;;
  if existsb (String.eqb (scheme r)) uses_params && contains ";" (path r)
  then let (p, ps) := _splitparams (path r) in
       Ok (mkParseResult (scheme r) (netloc r) p ps (query r) (fragment r))
  else Ok r.

(** ** [unquote] *)

Definition hex_value (c : ascii) : option nat :=
  if is_digit c then Some (code c - 48)
  else if in_range "a" "f" c then Some (code c - 87)
  else if in_range "A" "F" c then Some (code c - 55)
  else None.

Fixpoint unquote (s : string) : string :=
  match s with
  | EmptyString => EmptyString
  | String c r =>
      if Ascii.eqb c "%" then
        match r with
        | String h (String l r') =>
            match hex_value h, hex_value l with
            | Some x, Some y => String (ascii_of_nat (16 * x + y)) (unquote r')
            | _, _ => String c (unquote r)
            end
        | _ => String c (unquote r)
        end
      else String c (unquote r)
  end.

(** ** [parse_qs], with its default arguments *)

Definition plus_to_space : string -> string := replace_char "+" " ".

Fixpoint parse_qsl_fields (fields : list string) : list (string * string) :=
  match fields with
  | [] => []
  | name_value :: rest =>
      match partition "=" name_value with
      | Some (n, v) =>
          if nonempty v
          then (unquote (plus_to_space n), unquote (plus_to_space v))
                 :: parse_qsl_fields rest
          else parse_qsl_fields rest
      | None => parse_qsl_fields rest
      end
  end.

Definition parse_qsl (qs : string) : list (string * string) :=
  parse_qsl_fields (if nonempty qs then split "&" qs else []).

Definition parse_qs (qs : string) : dict (list string) :=
  fold_left
    (fun parsed_result nv =>
       match dict_get (fst nv) parsed_result with
       | Some vs => dict_set (fst nv) (vs ++ [snd nv]) parsed_result
       | None => dict_set (fst nv) [snd nv] parsed_result
       end)
    (parse_qsl qs) [].

(** ** [quote], with [safe='/'] *)

(** [_ALWAYS_SAFE] *)
Definition always_safe (c : ascii) : bool :=
  is_alpha c || is_digit c || is_one_of "_.-~" c.

Definition hex_digit (n : nat) : ascii :=
  if Nat.ltb n 10 then ascii_of_nat (48 + n) else ascii_of_nat (55 + n).

Definition quote_char (c : ascii) : string :=
  if always_safe c || Ascii.eqb c "/" then String c EmptyString
  else String "%" (String (hex_digit (code c / 16))
                     (String (hex_digit (code c mod 16)) EmptyString)).

Fixpoint quote (s : string) : string :=
  match s with
  | EmptyString => EmptyString
  | String c r => quote_char c +++ quote r
  end.

End Urllib.

Import Urllib.

(* ================================================================== *)
(** * Constants *)
(* ================================================================== *)

Definition ROOT_STR : string := "(root)".
Definition FALLBACK_LOCALE : string := "en".
Definition UNKNOWN_PLACEHOLDER : string := "UNKNOWN_LABEL".

(** Keys for localizations that change based on device type. *)
Definition DEVICE_TYPES : list string :=
  ["iphone"; "ipad"; "ipod"; "mac"; "applevision"; "other"].

(* ================================================================== *)
(** * URL codec *)
(* ================================================================== *)

(** [segments_list[-1]] of a non-empty list. *)
Definition last_segment (segments : list string) : string :=
  List.last segments EmptyString.

Definition build_url (segments : list string) : result string :=
  let segments_list := segments in
  match segments_list with
  | [] => Ok ""
  | url_scheme :: _ =>
      let constructed_url := url_scheme +++ ":" in
      let constructed_url :=
        if String.eqb url_scheme "settings-navigation"
        then constructed_url +++ "//" else constructed_url in
      if Nat.ltb 1 (List.length segments_list) then
        let url_fragment :=
          if startswith (last_segment segments_list) "#"
          then Some (last_segment segments_list) else None in
        let segments_list :=
          match url_fragment with
          | Some _ => removelast segments_list
          | None => segments_list
          end in
        constructed_url <-
          (if String.eqb url_scheme "settings-navigation" then
             let constructed_url :=
               constructed_url +++ quote (join "/" (skipn 1 segments_list)) in
             Ok (match url_fragment with
                 | Some f => constructed_url +++ f
                 | None => constructed_url
                 end)
           else
             match nth_error segments_list 1 with
             | None => Raise IndexError
             | Some root =>
                 let constructed_url := constructed_url +++ "root=" +++ root in
                 Ok (if Nat.ltb 2 (List.length segments_list)
                     then constructed_url +++ "&path="
                            +++ quote (join "/" (skipn 2 segments_list))
                     else constructed_url)
             end) ;;
        Ok (match url_fragment with
            | Some f => constructed_url +++ f
            | None => constructed_url
            end)
      else Ok constructed_url
  end.

(** The non-empty parts of [part.split("/")]. *)
Definition path_parts (part : string) : list string :=
  filter nonempty (split "/" part).

(** The segments a parsed [root=...&path=...] string yields. *)
Definition query_segments (parsed : dict (list string)) : list string :=
  (match dict_get "root" parsed with
   | Some roots => roots
   | None => []
   end)
  ++
  (match dict_get "path" parsed with
   | Some path_list => flat_map path_parts path_list
   | None => []
   end).

Definition get_path_segments (url : string) : result (list string) :=
  parsed <- urlparse url ;;
  Ok ([scheme parsed]
      ++ (if nonempty (netloc parsed) then
            let parsed_netloc := parse_qs (netloc parsed) in
            (match parsed_netloc with
             | _ :: _ => query_segments parsed_netloc
             | [] => [netloc parsed]
             end)
            ++ path_parts (path parsed)
          else query_segments (parse_qs (path parsed)))
      ++ (if nonempty (fragment parsed)
          then ["#" +++ fragment parsed] else [])).


(* ================================================================== *)
(** * Label resolver *)
(* ================================================================== *)

(** [LocalizationString = str | dict[str, dict[str, str]]] *)
Inductive LocalizationString : Type :=
| LocStr (s : string)
| LocDict (d : dict (dict string)).

(** [len(entry)] *)
Definition loc_len (entry : LocalizationString) : nat :=
  match entry with
  | LocStr s => String.length s
  | LocDict d => List.length d
  end.

(** The loop over [DEVICE_TYPES]: the label of the first device type that
    is a key of [device_specific_labels]. *)
Fixpoint first_device_label (device_types : list string)
    (device_specific_labels : dict string) : option string :=
  match device_types with
  | [] => None
  | device_type :: rest =>
      match dict_get device_type device_specific_labels with
      | Some label => Some label
      | None => first_device_label rest device_specific_labels
      end
  end.

(** [sanitize_key] on the entries of the declared type, as the rest of
    the script uses it; [Untyped.sanitize_key] below is the function on
    every value, and the two agree on the declared type
    ([sanitize_key_of_entry]). *)
Definition sanitize_key (key : LocalizationString) : string :=
  match key with
  | LocStr s => s
  | LocDict d =>
      match dict_get "NSStringDeviceSpecificRuleType" d with
      | Some device_specific_labels =>
          match first_device_label DEVICE_TYPES device_specific_labels with
          | Some label => label
          | None => UNKNOWN_PLACEHOLDER
          end
      | None => UNKNOWN_PLACEHOLDER
      end
  end.

(** ** [sanitize_key] on the values the script can hand it

    The annotation [key: LocalizationString] is not enforced when the
    script runs: the entries come from the property lists of the bundles
    and from the JSON files of the overrides, and [sanitize_key] receives
    whatever they hold.  [Untyped.sanitize_key] is the function on all
    such values, with the exceptions of the operators [in] and [[]];
    [sanitize_key] above is its restriction to the declared type. *)
Module Untyped.

(** A value of a property list or of a JSON file.  [PyOpaque] stands for
    a value of any other type that can occur there (a float, a date, a
    UID): not a string, not a container, not iterable. *)
Inductive PyValue : Type :=
| PyNone
| PyBool (b : bool)
| PyInt (n : Z)
| PyStr (s : string)
| PyBytes (data : string)
| PyList (items : list PyValue)
| PyDict (d : dict PyValue)
| PyOpaque (type_name : string).

(** [x == v] for a string [x]: a value of another type is never equal to
    a string. *)
Definition str_eq (x : string) (v : PyValue) : bool :=
  match v with
  | PyStr t => String.eqb x t
  | _ => false
  end.

(** [x in container] for a string [x]: a key of a dictionary, a
    substring of a string, an element of a list; [TypeError] on bytes
    (a bytes-like object is required) and on what is not iterable. *)
Definition py_in (x : string) (container : PyValue) : result bool :=
  match container with
  | PyDict d => Ok (dict_mem x d)
  | PyStr s => Ok (is_substring x s)
  | PyList items => Ok (existsb (str_eq x) items)
  | PyNone | PyBool _ | PyInt _ | PyBytes _ | PyOpaque _ => Raise TypeError
  end.

(** [container[x]] for a string [x]: the value of a dictionary key, and
    [TypeError] on everything else (the indices of strings, bytes and
    lists are integers, and the other values are not subscriptable). *)
Definition py_getitem (container : PyValue) (x : string) : result PyValue :=
  match container with
  | PyDict d =>
      match dict_get x d with
      | Some v => Ok v
      | None => Raise (KeyError x)
      end
  | _ => Raise TypeError
  end.

(** The loop over [DEVICE_TYPES], falling through to the last line of the
    function. *)
Fixpoint device_loop (device_types : list string)
    (device_specific_labels : PyValue) : result PyValue :=
  match device_types with
  | [] => Ok (PyStr UNKNOWN_PLACEHOLDER)
  | device_type :: rest =>
      present <- py_in device_type device_specific_labels ;;
      if present then py_getitem device_specific_labels device_type
      else device_loop rest device_specific_labels
  end.

(** [sanitize_key]: what it returns is whatever the labels hold under
    the device type, a string on the declared type. *)
Definition sanitize_key (key : PyValue) : result PyValue :=
  match key with
  | PyStr _ => Ok key
  | PyDict d =>
      match dict_get "NSStringDeviceSpecificRuleType" d with
      | Some device_specific_labels =>
          device_loop DEVICE_TYPES device_specific_labels
      | None => Ok (PyStr UNKNOWN_PLACEHOLDER)
      end
  | _ => Ok (PyStr UNKNOWN_PLACEHOLDER)
  end.

(** The values of the declared type [LocalizationString] among them. *)
Definition of_labels (device_specific_labels : dict string) : PyValue :=
  PyDict (map (fun kv => (fst kv, PyStr (snd kv))) device_specific_labels).

Definition of_entry (entry : LocalizationString) : PyValue :=
  match entry with
  | LocStr s => PyStr s
  | LocDict d => PyDict (map (fun kv => (fst kv, of_labels (snd kv))) d)
  end.

End Untyped.

(* ================================================================== *)
(** * Merge engine *)
(* ================================================================== *)

(** What a slot of a localized tree holds: a URL, a sorted list of URLs,
    or a sub-dictionary. *)
Inductive Value : Type :=
| VStr (s : string)
| VList (l : list string)
| VDict (d : dict Value).

Fixpoint list_eqb (l m : list string) : bool :=
  match l, m with
  | [], [] => true
  | x :: l', y :: m' => String.eqb x y && list_eqb l' m'
  | _, _ => false
  end.

(** Python's [==]: lists element-wise, dictionaries key by key whatever
    the insertion order, values of different types never equal. *)
Fixpoint value_eqb (a b : Value) : bool :=
  match a, b with
  | VStr s, VStr t => String.eqb s t
  | VList l, VList m => list_eqb l m
  | VDict d, VDict e =>
      Nat.eqb (List.length d) (List.length e)
      && forallb (fun kv =>
                    match dict_get (fst kv) e with
                    | Some v' => value_eqb (snd kv) v'
                    | None => false
                    end) d
  | _, _ => false
  end.

(** [merge_into] mutates [dictionary]; the model returns the dictionary
    after the call.  The recursion of the source is not structural (the
    dictionary merged into grows while the items of [value] are merged),
    so the model counts the nesting of calls down from [fuel] and answers
    [None] when [fuel] calls were not enough. *)
Fixpoint merge_into (fuel : nat) (dictionary : dict Value) (key : string)
    (value : Value) : option (dict Value) :=
  match fuel with
  | O => None
  | S fuel =>
      match dict_get key dictionary with
      | Some existing_value =>
          if value_eqb existing_value value then Some dictionary
          else
            match existing_value, value with
            | VStr e, VDict d =>
                match merge_into fuel d ROOT_STR existing_value with
                | Some d' => Some (dict_set key (VDict d') dictionary)
                | None => None
                end
            | VStr e, VStr s =>
                Some (dict_set key (VList (sort [e; s])) dictionary)
            | VStr e, VList l =>
                Some (dict_set key (VList (sort (l ++ [e]))) dictionary)
            | VList e, VDict d =>
                match merge_into fuel d ROOT_STR existing_value with
                | Some d' => Some (dict_set key (VDict d') dictionary)
                | None => None
                end
            | VList e, VStr s =>
                Some (dict_set key (VList (sort (e ++ [s]))) dictionary)
            | VList e, VList l =>
                Some (dict_set key (VList (sort (e ++ l))) dictionary)
            | VDict e, VDict d =>
                match
                  fold_left
                    (fun acc kv =>
                       match acc with
                       | Some existing => merge_into fuel existing (fst kv) (snd kv)
                       | None => None
                       end) d (Some e)
                with
                | Some e' => Some (dict_set key (VDict e') dictionary)
                | None => None
                end
            | VDict e, _ =>
                match merge_into fuel e ROOT_STR value with
                | Some e' => Some (dict_set key (VDict e') dictionary)
                | None => None
                end
            end
      | None => Some (dict_set key value dictionary)
      end
  end.

(** The nesting depth of the dictionaries in a value. *)
Fixpoint value_depth (v : Value) : nat :=
  match v with
  | VStr _ => 0
  | VList _ => 0
  | VDict d => S (fold_right (fun kv m => Nat.max (value_depth (snd kv)) m) 0 d)
  end.

Definition dict_depth (d : dict Value) : nat := value_depth (VDict d).

(** The deepest value of a dictionary. *)
Definition max_depth (d : dict Value) : nat :=
  fold_right (fun kv m => Nat.max (value_depth (snd kv)) m) 0 d.

(** Successive [merge_into(dictionary, key, v)] for the [v] of a list. *)
Fixpoint merge_all (fuel : nat) (dictionary : dict Value) (key : string)
    (values : list Value) : option (dict Value) :=
  match values with
  | [] => Some dictionary
  | v :: rest =>
      match merge_into fuel dictionary key v with
      | Some dictionary' => merge_all fuel dictionary' key rest
      | None => None
      end
  end.

(** A leaf [s] is reachable in a slot: it is the slot's value, an element
    of its list, or reachable in the slot of the self key of its
    sub-dictionary. *)
Fixpoint reachable (s : string) (v : Value) : Prop :=
  match v with
  | VStr t => s = t
  | VList l => In s l
  | VDict d =>
      (fix in_self (d : dict Value) : Prop :=
         match d with
         | [] => False
         | (k, v') :: d' =>
             if String.eqb ROOT_STR k then reachable s v' else in_self d'
         end) d
  end.

(** A leaf [s] lies in a value at a path of keys: the value at the end
    of the path is the string [s] or a list that holds it.  Unlike
    [reachable], the path goes through any keys. *)
Fixpoint leaf_at (path : list string) (s : string) (v : Value) : Prop :=
  match path with
  | [] =>
      match v with
      | VStr t => s = t
      | VList l => In s l
      | VDict _ => False
      end
  | k :: rest =>
      match v with
      | VDict d =>
          match dict_get k d with
          | Some v' => leaf_at rest s v'
          | None => False
          end
      | _ => False
      end
  end.

(* ================================================================== *)
(** * Records, manifests and the globals of the script *)
(* ================================================================== *)

(** A Settings URL associated with all of its available localized
    labels.  [aliases] is [None] until the first alias is added;
    [manifest_path] is the text the source makes its [Path] of. *)
Record RawSettingsURL : Type := mkRawSettingsURL {
  url : string;
  label_id : string;
  manifest_path : string;
  localized_labels : dict LocalizationString;
  aliases : option (list string)
}.

(** An entry of [add.json], [gaps.json] or [urls_to_override]; a key that
    is absent (or [null]) is [None]. *)
Record NewOverride : Type := mkNewOverride {
  ov_url : string;
  ov_label_id : option string;
  ov_manifest : option string;
  ov_label : option (dict LocalizationString);
  ov_child_urls : option (dict string)
}.

Record Manifest : Type := mkManifest {
  m_path : string;
  m_urls : list RawSettingsURL;
  m_strings : dict (dict LocalizationString)
}.

(** The module-level variables the modelled functions read and write. *)
Record Globals : Type := mkGlobals {
  url_corrections : dict (dict string);
  alias_localizations : dict (dict LocalizationString);
  urls_to_override : list NewOverride;
  manifests : dict Manifest
}.

(** [RawSettingsURL.__init__]: corrections are applied here. *)
Definition RawSettingsURL_init (g : Globals) (u label manifest : string)
  : RawSettingsURL :=
  let corrected field default :=
    match dict_get u (url_corrections g) with
    | Some correction =>
        match dict_get field correction with
        | Some c => c
        | None => default
        end
    | None => default
    end in
  mkRawSettingsURL (corrected "url" u) (corrected "label_id" label) manifest [] None.

(** [RawSettingsURL.add_alias] *)
Definition RawSettingsURL_add_alias (self : RawSettingsURL) (alias : string)
    (g : Globals) : RawSettingsURL * Globals :=
  let self' :=
    mkRawSettingsURL (url self) (label_id self) (manifest_path self)
      (localized_labels self)
      (Some (match aliases self with
             | Some l => l ++ [alias]
             | None => [alias]
             end)) in
  (self',
   mkGlobals (url_corrections g)
     (dict_set alias (localized_labels self) (alias_localizations g))
     (filter (fun override => negb (String.eqb (ov_url override) alias))
        (urls_to_override g))
     (manifests g)).

(* ================================================================== *)
(** * The URL tree *)
(* ================================================================== *)

Inductive URLTree : Type :=
| Node (root : option RawSettingsURL) (urls : dict URLTree).

Definition root (t : URLTree) : option RawSettingsURL :=
  match t with Node r _ => r end.

Definition urls (t : URLTree) : dict URLTree :=
  match t with Node _ us => us end.

(** [URLTree()] *)
Definition empty_tree : URLTree := Node None [].

(** [self.root is not None and self.root.url == u] *)
Definition is_root_url (self_root : option RawSettingsURL) (u : string) : bool :=
  match self_root with
  | Some r => String.eqb (url r) u
  | None => false
  end.

(** [l.pop()] *)
Definition pop {A} (l : list A) : result (A * list A) :=
  match rev l with
  | [] => Raise IndexError
  | x :: l' => Ok (x, rev l')
  end.

(** Loops over the items of a dictionary whose bodies update the value in
    place and the globals, and may raise. *)
Section DictLoops.
Context {V G : Type}.

Variable body : string -> V -> G -> result (V * G).

(** [for k, v in d.items(): body] *)
Fixpoint for_items (d : dict V) (g : G) : result (dict V * G) :=
  match d with
  | [] => Ok ([], g)
  | (k, v) :: d' =>
      '(v', g') <- body k v g ;;
      '(d'', g'') <- for_items d' g' ;;
      Ok ((k, v') :: d'', g'')
  end.

Variable at_value : V -> G -> result (V * G).

(** [if k in d: at_value(d[k])] *)
Fixpoint if_in (k : string) (d : dict V) (g : G) : result (dict V * G) :=
  match d with
  | [] => Ok ([], g)
  | (k', v) :: d' =>
      if String.eqb k k' then
        '(v', g') <- at_value v g ;;
        Ok ((k', v') :: d', g')
      else
        '(d'', g') <- if_in k d' g ;;
        Ok ((k', v) :: d'', g')
  end.
End DictLoops.

(** [URLTree.add_url], from the node reached so far. *)
Fixpoint add_url_from (current_tree : URLTree) (segments : list string)
    (record : RawSettingsURL) : URLTree :=
  match segments with
  | [] => Node (Some record) (urls current_tree)
  | path_segment :: rest =>
      let child :=
        match dict_get path_segment (urls current_tree) with
        | Some c => c
        | None => empty_tree
        end in
      Node (root current_tree)
        (dict_set path_segment (add_url_from child rest record)
           (urls current_tree))
  end.

Definition add_url (self : URLTree) (record : RawSettingsURL) : result URLTree :=
  segments <- get_path_segments (url record) ;;
  Ok (add_url_from self segments record).

(** [URLTree.add_alias].  [u] is the parameter [url] of the source;
    [walk] is its [else] branch. *)
Fixpoint add_alias (self : URLTree) (u alias : string) (recursive : bool)
    (path_segments_rev : option (list string)) (g : Globals)
  : result (URLTree * Globals) :=
  match self with
  | Node self_root self_urls =>
      let walk :=
        path_segments_rev <-
          match path_segments_rev with
          | None => segments <- get_path_segments u ;; Ok (rev segments)
          | Some l => Ok l
          end ;;
        '(next_segment, path_segments_rev) <- pop path_segments_rev ;;
        '(urls', g) <-
          if_in
            (fun child g =>
               add_alias child u alias recursive (Some path_segments_rev) g)
            next_segment self_urls g ;;
        Ok (Node self_root urls', g) in
      match self_root with
      | Some r =>
          if String.eqb (url r) u then
            let (r', g) := RawSettingsURL_add_alias r alias g in
            if recursive then
              aliased_url_segments <- get_path_segments u ;;
              alias_segments <- get_path_segments alias ;;
              '(urls', g) <-
                for_items
                  (fun url_key child_tree g =>
                     child_url <- build_url (aliased_url_segments ++ [url_key]) ;;
                     child_alias <- build_url (alias_segments ++ [url_key]) ;;
                     add_alias child_tree child_url child_alias recursive None g)
                  self_urls g ;;
              Ok (Node (Some r') urls', g)
            else Ok (Node (Some r') self_urls, g)
          else walk
      | None => walk
      end
  end.

(** ** [find_missing] *)

(** What a generator produces when it is run to its end: the items it
    yields and, when it stops by raising, the exception. *)
Definition generated (A : Type) : Type := list A * option exn.

Definition gen_then {A} (first : generated A) (next : generated A) : generated A :=
  match first with
  | (items, Some e) => (items, Some e)
  | (items, None) => (items ++ fst next, snd next)
  end.

Section GenLoop.
Context {V A : Type}.
Variable body : string -> V -> generated A.

(** [for k, v in list(d.items()): yield from body] *)
Fixpoint gen_for (d : dict V) : generated A :=
  match d with
  | [] => ([], None)
  | (k, v) :: d' => gen_then (body k v) (gen_for d')
  end.
End GenLoop.

Fixpoint find_missing (self : URLTree) (segments : list string)
  : generated (string * URLTree) :=
  match self with
  | Node self_root self_urls =>
      gen_then
        (match self_root with
         | None =>
             if Nat.ltb 1 (List.length segments) then
               match build_url segments with
               | Ok missing_url => ([(missing_url, self)], None)
               | Raise e => ([], Some e)
               end
             else ([], None)
         | Some _ => ([], None)
         end)
        (gen_for (fun key subtree => find_missing subtree (segments ++ [key]))
           self_urls)
  end.

(** ** Root flattening *)

(** The block that moves everything under [prefs:root=ROOT] to the root
    level of [prefs:]. *)
Definition flatten_root (tree : URLTree) : URLTree :=
  match dict_get "prefs" (urls tree) with
  | Some prefs_scheme =>
      match dict_get "ROOT" (urls prefs_scheme) with
      | Some root_root =>
          Node (root tree)
            (dict_set "prefs"
               (Node (root prefs_scheme)
                  (dict_del "ROOT"
                     (dict_update (urls prefs_scheme) (urls root_root))))
               (urls tree))
      | None => tree
      end
  | None => tree
  end.

(** ** Label assignment and overrides *)

(** The check and assignment of [Bundle.load] for one URL of a manifest:
    the loop over the locales of [manifest_strings]. *)
Fixpoint assign_labels (manifest_strings : dict (dict LocalizationString))
    (record : RawSettingsURL) : result RawSettingsURL :=
  match manifest_strings with
  | [] => Ok record
  | (locale, locale_strs) :: rest =>
      match dict_get (label_id record) locale_strs with
      | Some entry =>
          if Nat.eqb (loc_len entry) 0 then
            Raise (Exception ("Empty label for URL " +++ url record +++ ", locale "
                                +++ locale
                                +++ ". Please adjust overrides as necessary."))
          else
            assign_labels rest
              (mkRawSettingsURL (url record) (label_id record)
                 (manifest_path record)
                 (dict_set locale entry (localized_labels record))
                 (aliases record))
      | None => assign_labels rest record
      end
  end.

(** The second half of [Bundle.load] for one manifest: merge the [lproj]
    strings and the loctable, keep them on the manifest, label its URLs. *)
Definition Bundle_assign_labels
    (lproj_strings loctable : option (dict (dict LocalizationString)))
    (manifest : Manifest) : result Manifest :=
  let manifest_strings :=
    dict_update
      (dict_update [] (match lproj_strings with Some s => s | None => [] end))
      (match loctable with Some s => s | None => [] end) in
  (fix label_urls (records : list RawSettingsURL) (done : list RawSettingsURL)
     : result Manifest :=
     match records with
     | [] => Ok (mkManifest (m_path manifest) (rev done) manifest_strings)
     | record :: rest =>
         record' <- assign_labels manifest_strings record ;;
         label_urls rest (record' :: done)
     end) (m_urls manifest) [].

(** The labels [add_override] takes from a manifest's strings: the
    locales in which [override_label_id] exists. *)
Fixpoint labels_of_manifest (strings : dict (dict LocalizationString))
    (override_label_id : string) (labels : dict LocalizationString)
  : dict LocalizationString :=
  match strings with
  | [] => labels
  | (lang, lang_localizations) :: rest =>
      labels_of_manifest rest override_label_id
        (match dict_get override_label_id lang_localizations with
         | Some entry => dict_set lang entry labels
         | None => labels
         end)
  end.

(** [add_override], on the global [tree]. *)
Definition add_override (tree : URLTree) (g : Globals) (override : NewOverride)
  : result URLTree :=
  let override_label_id := ov_label_id override in
  let manifest_path_str :=
    match ov_manifest override with
    | Some m => m +++ ".plist"
    | None => ""
    end in
  let override_url :=
    RawSettingsURL_init g (ov_url override)
      (match override_label_id with Some l => l | None => "" end)
      manifest_path_str in
  labels <-
    match override_label_id with
    | Some l =>
        manifest_key <-
          match ov_manifest override with
          | Some m => Ok m
          | None => Raise (KeyError "manifest")
          end ;;
        override_url_manifest <-
          match dict_get manifest_key (manifests g) with
          | Some m => Ok m
          | None => Raise (KeyError manifest_key)
          end ;;
        Ok (labels_of_manifest (m_strings override_url_manifest) l
              (localized_labels override_url))
    | None =>
        match ov_label override with
        | Some labels => Ok labels
        | None => Raise (KeyError "label")
        end
    end ;;
  add_url tree
    (mkRawSettingsURL (url override_url) (label_id override_url)
       (manifest_path override_url) labels (aliases override_url)).

(** ** The shape of a tree *)

(** The node reached from [t] along [segments]. *)
Fixpoint subtree (t : URLTree) (segments : list string) : option URLTree :=
  match segments with
  | [] => Some t
  | s :: rest =>
      match dict_get s (urls t) with
      | Some child => subtree child rest
      | None => None
      end
  end.

(** Some node of [t] is owned by a record whose URL is [u]. *)
Fixpoint owns (u : string) (t : URLTree) : bool :=
  match t with
  | Node r children =>
      is_root_url r u || existsb (fun kv => owns u (snd kv)) children
  end.

(** Every node of [t] with the segments that lead to it from a node
    reached by [segments], parents first, children in insertion order. *)
Fixpoint nodes (t : URLTree) (segments : list string)
  : list (list string * URLTree) :=
  match t with
  | Node _ children =>
      (segments, t)
        :: flat_map (fun kv => nodes (snd kv) (segments ++ [fst kv])) children
  end.

(** A node that [find_missing] has to report. *)
Definition is_missing (entry : list string * URLTree) : bool :=
  match root (snd entry) with
  | None => Nat.ltb 1 (List.length (fst entry))
  | Some _ => false
  end.

(** What a traversal owes for a list of nodes taken in order: the pair of
    [build_url] of the segments and the node, for each, until [build_url]
    raises. *)
Fixpoint report (entries : list (list string * URLTree))
  : generated (string * URLTree) :=
  match entries with
  | [] => ([], None)
  | entry :: rest =>
      match build_url (fst entry) with
      | Ok missing_url => gen_then ([(missing_url, snd entry)], None) (report rest)
      | Raise e => ([], Some e)
      end
  end.

(** The segments [add_alias] consumes from [segments] before it stands on
    a node owned by a record whose URL is [u], when it gets to one. *)
Fixpoint owner_path (u : string) (t : URLTree) (segments : list string)
  : option (list string) :=
  if is_root_url (root t) u then Some []
  else
    match segments with
    | [] => None
    | s :: rest =>
        match dict_get s (urls t) with
        | Some child =>
            match owner_path u child rest with
            | Some p => Some (s :: p)
            | None => None
            end
        | None => None
        end
    end.

(** ** Sample data *)

Definition sample_record (u : string) : RawSettingsURL :=
  mkRawSettingsURL u "" "" [] None.

Definition no_globals : Globals := mkGlobals [] [] [] [].

(** The tree of the single record [prefs:root=A&path=x]: the node of
    [prefs:root=A] exists and has no owning record. *)
Definition tree_with_gap : URLTree :=
  Node None
    [("prefs",
      Node None
        [("A", Node None
                 [("x", Node (Some (sample_record "prefs:root=A&path=x")) [])])])].

(** The tree of the records [prefs:root=A] and [prefs:root=A&path=x]. *)
Definition tree_with_child : URLTree :=
  Node None
    [("prefs",
      Node None
        [("A", Node (Some (sample_record "prefs:root=A"))
                 [("x", Node (Some (sample_record "prefs:root=A&path=x")) [])])])].

(** The same tree when the record of the child spells its URL with a
    trailing slash, which [get_path_segments] drops. *)
Definition tree_with_slash_child : URLTree :=
  Node None
    [("prefs",
      Node None
        [("A", Node (Some (sample_record "prefs:root=A"))
                 [("x", Node (Some (sample_record "prefs:root=A&path=x/")) [])])])].

(** The tree of the records [prefs:root=WIFI&path=Pane] and
    [prefs:root=%23x&path=y]. *)
Definition tree_with_first_level_gaps : URLTree :=
  Node None
    [("prefs",
      Node None
        [("WIFI", Node None
                    [("Pane", Node (Some (sample_record "prefs:root=WIFI&path=Pane")) [])]);
         ("#x", Node None
                  [("y", Node (Some (sample_record "prefs:root=%23x&path=y")) [])])])].

(** An override that gives its label inline, and gives it empty. *)
Definition override_with_empty_label : NewOverride :=
  mkNewOverride "prefs:root=WIFI" None None (Some [("en", LocStr "")]) None.

(** A device-specific entry whose [iphone] label is empty. *)
Definition empty_iphone_label : LocalizationString :=
  LocDict [("NSStringDeviceSpecificRuleType", [("iphone", ""); ("ipad", "Wi-Fi")])].

(** The tree of the record [prefs:root=ROOT&path=child]. *)
Definition tree_with_ROOT : URLTree :=
  Node None
    [("prefs",
      Node None
        [("ROOT", Node None
                    [("child", Node (Some (sample_record "prefs:root=ROOT&path=child")) [])])])].

(* ================================================================== *)
(** * Rendering *)
(* ================================================================== *)

Definition SEPARATOR : string := " → ".
Definition ALIAS_SEPARATOR : string := " or ".

(** [str(n)] for a natural number. *)
Definition str_of_nat (n : nat) : string :=
  NilEmpty.string_of_uint (Nat.to_uint n).

(** [len(s)] counts characters: the bytes of [s] that do not continue a
    UTF-8 sequence. *)
Fixpoint py_len (s : string) : nat :=
  match s with
  | EmptyString => 0
  | String c r =>
      if Nat.leb 128 (code c) && Nat.ltb (code c) 192 then py_len r
      else S (py_len r)
  end.

(** [f"{UNKNOWN_PLACEHOLDER}_{unassigned_id}"] *)
Definition unassigned_key (unassigned_id : nat) : string :=
  UNKNOWN_PLACEHOLDER +++ "_" +++ str_of_nat unassigned_id.

(** The key [build_localized_tree] gives a child, and the next value of
    [unassigned_id]. *)
Definition child_key (locale : string) (subtree : URLTree) (unassigned_id : nat)
  : string * nat :=
  match root subtree with
  | Some r =>
      let key_locale :=
        if dict_mem locale (localized_labels r) then locale else FALLBACK_LOCALE in
      match dict_get key_locale (localized_labels r) with
      | Some entry => (sanitize_key entry, unassigned_id)
      | None => (unassigned_key unassigned_id, S unassigned_id)
      end
  | None => (unassigned_key unassigned_id, S unassigned_id)
  end.

Section LocalizedLoop.
Variable render : URLTree -> option Value.
Variables (fuel : nat) (locale : string).

(** [for subtree in self.urls.values(): ...] of [build_localized_tree]. *)
Fixpoint localized_children (children : dict URLTree) (result : dict Value)
    (unassigned_id : nat) : option (dict Value) :=
  match children with
  | [] => Some result
  | (_, subtree) :: rest =>
      let (key, unassigned_id) := child_key locale subtree unassigned_id in
      match render subtree with
      | Some v =>
          match merge_into fuel result key v with
          | Some result => localized_children rest result unassigned_id
          | None => None
          end
      | None => None
      end
  end.
End LocalizedLoop.

(** [URLTree.build_localized_tree]; [fuel] is the fuel of its calls of
    [merge_into]. *)
Fixpoint build_localized_tree (fuel : nat) (self : URLTree) (locale : string)
  : option Value :=
  match self with
  | Node self_root self_urls =>
      match self_urls, self_root with
      | [], Some r =>
          Some (match aliases r with
                | Some l => VList (url r :: l)
                | None => VStr (url r)
                end)
      | _, _ =>
          match
            match self_root with
            | Some r => merge_into fuel [] ROOT_STR (VStr (url r))
            | None => Some []
            end
          with
          | Some result =>
              option_map VDict
                (localized_children
                   (fun subtree => build_localized_tree fuel subtree locale)
                   fuel locale self_urls result 0)
          | None => None
          end
      end
  end.

(** What [build_markdown_lines] does when it is run to its end: the lines
    it yields and the lines it prints, in order. *)
Inductive event : Type :=
| Yield (line : string)
| Print (text : string).

(** [ALIAS_SEPARATOR.join(f"`{line_url}`" for line_url in urls_for_line)] *)
Definition urls_str (r : RawSettingsURL) : string :=
  join ALIAS_SEPARATOR
    (map (fun line_url => "`" +++ line_url +++ "`")
       (url r :: match aliases r with Some l => l | None => [] end)).

(** [URLTree.build_markdown_lines] *)
Fixpoint build_markdown_lines (self : URLTree) (locale prefix : string)
    (should_label : bool) : list event :=
  match self with
  | Node self_root self_urls =>
      let '(here, prefix) :=
        match self_root with
        | Some r =>
            let locale_key :=
              if dict_mem locale (localized_labels r) then locale
              else FALLBACK_LOCALE in
            let '(label, printed) :=
              match dict_get locale_key (localized_labels r) with
              | Some entry => (sanitize_key entry, [])
              | None =>
                  (UNKNOWN_PLACEHOLDER,
                   if String.eqb locale FALLBACK_LOCALE then
                     [Print "UNKNOWN PLACEHOLDER USED";
                      Print ("  URL: " +++ url r);
                      Print ("  Manifest: " +++ manifest_path r);
                      Print ("  Label ID: " +++ label_id r)]
                   else [])
              end in
            let prefix := prefix +++ label in
            (printed ++ [Yield (prefix +++ ": " +++ urls_str r)], prefix)
        | None =>
            ([], if should_label || Nat.ltb 2 (py_len prefix)
                 then prefix +++ UNKNOWN_PLACEHOLDER else prefix)
        end in
      let prefix := if should_label then prefix +++ SEPARATOR else prefix in
      here
      ++ flat_map
           (fun kv => build_markdown_lines (snd kv) locale prefix true)
           self_urls
  end.

(** The lines of a run. *)
Definition yielded (events : list event) : list string :=
  flat_map (fun ev => match ev with Yield line => [line] | Print _ => [] end) events.

Definition printed (events : list event) : list string :=
  flat_map (fun ev => match ev with Print text => [text] | Yield _ => [] end) events.

(** What [build_markdown_lines] prints for a record when it renders the
    fallback locale: nothing when the record has a label in it. *)
Definition diagnostics (r : RawSettingsURL) : list string :=
  match dict_get FALLBACK_LOCALE (localized_labels r) with
  | Some _ => []
  | None =>
      ["UNKNOWN PLACEHOLDER USED";
       "  URL: " +++ url r;
       "  Manifest: " +++ manifest_path r;
       "  Label ID: " +++ label_id r]
  end.

(** A settings-navigation child that the combined tree leaves out: its
    record's URL is already an alias. *)
Definition already_alias (g : Globals) (t : URLTree) : bool :=
  match root t with
  | Some r => dict_mem (url r) (alias_localizations g)
  | None => false
  end.

(** The records that own a node of the tree, parents first. *)
Fixpoint owned_records (t : URLTree) : list RawSettingsURL :=
  match t with
  | Node r children =>
      match r with Some r => [r] | None => [] end
      ++ flat_map (fun kv => owned_records (snd kv)) children
  end.

(** The longest path from a node down to a leaf, counted in nodes. *)
Fixpoint tree_height (t : URLTree) : nat :=
  match t with
  | Node _ children =>
      S (fold_right (fun kv m => Nat.max (tree_height (snd kv)) m) 0 children)
  end.

(** The block that builds the combined tree of [prefs] and
    [settings-navigation]. *)
Definition combined_settings_tree (tree : URLTree) (g : Globals) : result URLTree :=
  prefs_scheme <-
    match dict_get "prefs" (urls tree) with
    | Some t => Ok t
    | None => Raise (KeyError "prefs")
    end ;;
  navigation_scheme <-
    match dict_get "settings-navigation" (urls tree) with
    | Some t => Ok t
    | None => Raise (KeyError "settings-navigation")
    end ;;
  Ok (Node None
        (fold_left
           (fun combined kv =>
              match root (snd kv) with
              | Some r =>
                  if dict_mem (url r) (alias_localizations g) then combined
                  else dict_set (fst kv) (snd kv) combined
              | None => dict_set (fst kv) (snd kv) combined
              end)
           (urls navigation_scheme)
           (dict_update [] (urls prefs_scheme)))).

(** The URL of a record made for [u], after the corrections. *)
Definition corrected_url (g : Globals) (u : string) : string :=
  url (RawSettingsURL_init g u "" "").

(** ** Auxiliary notions for the codec *)

(** No list of values of a parsed query string holds a blank value. *)
Definition all_nonempty (d : dict (list string)) : Prop :=
  forall k vs, dict_get k d = Some vs -> Forall (fun v => nonempty v = true) vs.

(** [c not in s] *)
Definition lacks (c : ascii) (s : string) : bool :=
  forall_chars (fun x => negb (Ascii.eqb x c)) s.

(** A scheme as the settings URLs have them: lower-case letters, digits
    and ["+-."] after a first letter, and not [settings-navigation]. *)
Definition lower_scheme_char (c : ascii) : bool :=
  is_lower c || is_digit c || is_one_of "+-." c.

Definition plain_scheme (s : string) : bool :=
  first_is is_lower s && forall_chars lower_scheme_char s
  && negb (String.eqb s "settings-navigation").

(** A [root] value that needs no escaping: [build_url] does not quote it. *)
Definition root_char (c : ascii) : bool :=
  negb (is_one_of "&#?%+;" c) && negb (is_unsafe_byte c).

Definition plain_root (s : string) : bool :=
  nonempty s && forall_chars root_char s.

(** A part of the path: any characters but the separator. *)
Definition plain_part (s : string) : bool :=
  nonempty s && lacks "/" s.

(** A fragment: any characters but the three [urlsplit] removes. *)
Definition plain_fragment (f : string) : bool :=
  nonempty f && forall_chars (fun c => negb (is_unsafe_byte c)) f.

Definition fragment_segment (frag : option string) : list string :=
  match frag with
  | Some f => ["#" +++ f]
  | None => []
  end.

(** The characters of a quoted string. *)
Definition quoted_char (c : ascii) : bool :=
  always_safe c || Ascii.eqb c "/" || Ascii.eqb c "%".

(** The query-style URL of a scheme, a root, path parts and a fragment. *)
Definition query_url (url_scheme root_value : string) (parts : list string)
    (frag : option string) : string :=
  url_scheme +++ ":" +++ "root=" +++ root_value
  +++ (match parts with
       | [] => ""
       | _ => "&path=" +++ quote (join "/" parts)
       end)
  +++ (match frag with
       | Some f => "#" +++ f
       | None => ""
       end).

(** ** Auxiliary notions for the tree *)

(** A record without its aliases, and a tree without the aliases of its
    records: what [add_alias] has to leave as it is. *)
Definition without_aliases (r : RawSettingsURL) : RawSettingsURL :=
  mkRawSettingsURL (url r) (label_id r) (manifest_path r) (localized_labels r) None.

Fixpoint strip_aliases (t : URLTree) : URLTree :=
  match t with
  | Node r children =>
      Node (option_map without_aliases r)
        (map (fun kv => (fst kv, strip_aliases (snd kv))) children)
  end.

(** The aliases of a record as a list. *)
Definition alias_list (r : RawSettingsURL) : list string :=
  match aliases r with
  | Some l => l
  | None => []
  end.

(** ** Auxiliary notions for recursive aliases *)



(** The tree of the records [prefs:root=A], [prefs:root=A&path=x],
    [prefs:root=A&path=x/y] and [prefs:root=A&path=w/v]: the node of
    [prefs:root=A] has two children, one of them a gap, and both have a
    child of their own. *)
Definition tree_with_family : URLTree :=
  Node None
    [("prefs",
      Node None
        [("A",
          Node (Some (sample_record "prefs:root=A"))
            [("x",
              Node (Some (sample_record "prefs:root=A&path=x"))
                [("y", Node (Some (sample_record "prefs:root=A&path=x/y")) [])]);
             ("w",
              Node None
                [("v", Node (Some (sample_record "prefs:root=A&path=w/v")) [])])])])].

(** ** Auxiliary notions for the merge engine *)

(** The loop of [merge_into] over the items of a sub-dictionary. *)
Definition merge_items (fuel : nat) (items : dict Value)
    (existing : option (dict Value)) : option (dict Value) :=
  fold_left
    (fun acc kv =>
       match acc with
       | Some existing => merge_into fuel existing (fst kv) (snd kv)
       | None => None
       end) items existing.

(** A string or a list of strings. *)
Definition is_scalar (v : Value) : bool :=
  match v with
  | VDict _ => false
  | _ => true
  end.

(** The strings of a scalar. *)
Definition scalar_items (v : Value) : list string :=
  match v with
  | VStr s => [s]
  | VList l => l
  | VDict _ => []
  end.

(** Ascending in the order of [list.sort()]. *)
Definition ascending : list string -> Prop :=
  Sorted (fun a b => String.leb a b = true).

(* ================================================================== *)
(** * Properties of the dictionary operations *)
(* ================================================================== *)

Section DictFacts.
Context {V : Type}.
Implicit Types (d : dict V) (k : string) (v : V).

Lemma dict_get_set_same d k v : dict_get k (dict_set k v d) = Some v.
Proof.
  induction d as [|[k' v'] d IH]; simpl.
  - now rewrite String.eqb_refl.
  - destruct (String.eqb k k') eqn:E; simpl; rewrite E; auto.
Qed.

Lemma dict_get_set_other d k k' v :
  k <> k' -> dict_get k' (dict_set k v d) = dict_get k' d.
Proof.
  intros Hne. induction d as [|[k0 v0] d IH]; simpl.
  - apply String.eqb_neq in Hne. rewrite String.eqb_sym in Hne. now rewrite Hne.
  - destruct (String.eqb k k0) eqn:E; simpl; [|now rewrite IH].
    apply String.eqb_eq in E. subst k0.
    assert (E' : String.eqb k' k = false)
      by (apply String.eqb_neq; congruence).
    now rewrite E'.
Qed.

Lemma dict_set_get_id d k v : dict_get k d = Some v -> dict_set k v d = d.
Proof.
  induction d as [|[k' v'] d IH]; simpl; [discriminate|].
  destruct (String.eqb k k') eqn:E; intros H.
  - now inversion H.
  - now rewrite IH.
Qed.

Lemma dict_get_del_same d k : dict_get k (dict_del k d) = None.
Proof.
  unfold dict_del. induction d as [|[k' v'] d IH]; simpl; auto.
  destruct (String.eqb k k') eqn:E; simpl; auto. now rewrite E.
Qed.

Lemma dict_get_del_other d k k' :
  k' <> k -> dict_get k' (dict_del k d) = dict_get k' d.
Proof.
  intros Hne. unfold dict_del. induction d as [|[k0 v0] d IH]; simpl; auto.
  destruct (String.eqb k k0) eqn:E; simpl.
  - apply String.eqb_eq in E. subst k0.
    apply String.eqb_neq in Hne. now rewrite Hne.
  - now rewrite IH.
Qed.

Lemma dict_get_In d k v : dict_get k d = Some v -> In (k, v) d.
Proof.
  induction d as [|[k' v'] d IH]; simpl; [discriminate|].
  destruct (String.eqb k k') eqn:E; intros H.
  - apply String.eqb_eq in E. inversion H. subst. now left.
  - right. auto.
Qed.

Lemma dict_get_None_keys d k : dict_get k d = None -> ~ In k (keys d).
Proof.
  induction d as [|[k' v'] d IH]; simpl; [tauto|].
  destruct (String.eqb k k') eqn:E; [discriminate|].
  apply String.eqb_neq in E. intros H [Heq|Hin]; [congruence|]. now apply IH.
Qed.

Lemma dict_get_keys d k v : dict_get k d = Some v -> In k (keys d).
Proof. intros H. apply dict_get_In in H. now apply (in_map fst) in H. Qed.

(** [d.update(other)] leaves the keys that [other] lacks as they are. *)
Lemma dict_get_update_other d other k :
  ~ In k (keys other) -> dict_get k (dict_update d other) = dict_get k d.
Proof.
  unfold dict_update. revert d.
  induction other as [|[k' v'] other IH]; simpl; intros d Hnotin; auto.
  rewrite IH by tauto. apply dict_get_set_other. tauto.
Qed.

(** After [d.update(other)] a key of [other] has the value [other] gives
    it. *)
Lemma dict_get_update d other k v :
  NoDup (keys other) ->
  dict_get k other = Some v ->
  dict_get k (dict_update d other) = Some v.
Proof.
  revert d.
  induction other as [|[k' v'] other IH]; simpl; intros d Hnd Hget;
    [discriminate|].
  inversion Hnd as [|? ? Hnotin Hnd']; subst.
  change (dict_update d ((k', v') :: other))
    with (dict_update (dict_set k' v' d) other).
  destruct (String.eqb k k') eqn:E.
  - apply String.eqb_eq in E. subst k'. inversion Hget; subst v'.
    rewrite dict_get_update_other by assumption.
    apply dict_get_set_same.
  - now apply IH.
Qed.
End DictFacts.

(* ================================================================== *)
(** * URL codec: where [build_url] fails *)
(* ================================================================== *)

(** [build_url] raises on exactly one shape of argument: a scheme other
    than [settings-navigation] followed by nothing but a fragment. *)
Lemma build_url_raises (segments : list string) (e : exn) :
  build_url segments = Raise e ->
  exists url_scheme frag,
    segments = [url_scheme; frag]
    /\ String.eqb url_scheme "settings-navigation" = false
    /\ startswith frag "#" = true
    /\ e = IndexError.
Proof.
  unfold build_url.
  destruct segments as [|url_scheme rest]; [discriminate|].
  destruct (Nat.ltb 1 (List.length (url_scheme :: rest))) eqn:Hlen;
    [|discriminate].
  destruct (String.eqb url_scheme "settings-navigation") eqn:Hsn.
  - destruct (startswith (last_segment (url_scheme :: rest)) "#");
      discriminate.
  - destruct (startswith (last_segment (url_scheme :: rest)) "#") eqn:Hfrag.
    + destruct rest as [|a [|b rest]]; simpl in *; try discriminate.
      intros H. inversion H. exists url_scheme, a. auto.
    + destruct rest as [|a rest]; simpl in *; discriminate.
Qed.

(** C10.  [build_url] is not total on what [get_path_segments] produces:
    the segments of ["prefs:#frag"] are the scheme and the fragment, and on
    every two-element sequence made of a scheme other than
    [settings-navigation] and a segment starting with ["#"], [build_url]
    raises [IndexError] (it removes the fragment, then reads
    [segments_list[1]]). *)
Theorem build_url_not_total :
  get_path_segments "prefs:#frag" = Ok ["prefs"; "#frag"]
  /\ forall url_scheme frag : string,
       String.eqb url_scheme "settings-navigation" = false ->
       startswith frag "#" = true ->
       build_url [url_scheme; frag] = Raise IndexError.
Proof.
  split; [reflexivity|].
  intros url_scheme frag Hsn Hfrag.
  unfold build_url. cbn [List.length Nat.ltb Nat.leb last_segment List.last].
  rewrite Hfrag, Hsn. reflexivity.
Qed.

Lemma build_url_not_total_witness :
  build_url ["prefs"; "#frag"] = Raise IndexError.
Proof.
  apply (proj2 build_url_not_total "prefs" "#frag"); reflexivity.
Defined.

(** On a [settings-navigation] sequence that ends with a fragment, the
    fragment is appended twice: once in the branch of the scheme and once
    by the statement that closes the function. *)
Lemma build_url_fragment_twice (body : list string) (frag : string) :
  startswith frag "#" = true ->
  build_url ("settings-navigation" :: body ++ [frag])
  = Ok ((("settings-navigation://" +++ quote (join "/" body)) +++ frag) +++ frag).
Proof.
  intros Hfrag. unfold build_url.
  assert (Hlen : Nat.ltb 1 (List.length ("settings-navigation" :: body ++ [frag])) = true).
  { simpl. rewrite length_app. simpl. apply Nat.ltb_lt. lia. }
  rewrite Hlen.
  assert (Hlast : last_segment ("settings-navigation" :: body ++ [frag]) = frag).
  { unfold last_segment.
    change ("settings-navigation" :: body ++ [frag])
      with (("settings-navigation" :: body) ++ [frag]).
    apply last_last. }
  rewrite Hlast, Hfrag.
  change ("settings-navigation" :: body ++ [frag])
    with (("settings-navigation" :: body) ++ [frag]).
  rewrite removelast_last. reflexivity.
Qed.

(** C1.  The round trip fails on a path-style URL with a fragment: the
    segments of ["settings-navigation://com.apple.Settings.General/About#frag"]
    are rebuilt with the fragment doubled, and parse back to a different
    sequence. *)
Theorem codec_round_trip_fails_on_fragment :
  let u := "settings-navigation://com.apple.Settings.General/About#frag" in
  get_path_segments u
  = Ok ["settings-navigation"; "com.apple.Settings.General"; "About"; "#frag"]
  /\ build_url ["settings-navigation"; "com.apple.Settings.General"; "About"; "#frag"]
     = Ok "settings-navigation://com.apple.Settings.General/About#frag#frag"
  /\ get_path_segments "settings-navigation://com.apple.Settings.General/About#frag#frag"
     = Ok ["settings-navigation"; "com.apple.Settings.General"; "About"; "#frag#frag"]
  /\ (segments <- get_path_segments u ;;
      rebuilt <- build_url segments ;;
      get_path_segments rebuilt)
     <> get_path_segments u.
Proof.
  cbv zeta. repeat split; try reflexivity.
  vm_compute. discriminate.
Qed.

(** The round trip does hold on the usual query-style URLs, with and
    without a fragment, and on a path-style URL without one. *)
Example codec_round_trip_samples :
  Forall (fun u =>
            (segments <- get_path_segments u ;;
             rebuilt <- build_url segments ;;
             get_path_segments rebuilt)
            = get_path_segments u
            /\ exists segments, get_path_segments u = Ok segments)
    ["prefs:root=General";
     "prefs:root=General&path=About/Name";
     "prefs:root=ROOT#AIRPLANE_MODE";
     "bridge:root=GENERAL_LINK&path=ABOUT_ID#top";
     "settings-navigation://com.apple.Settings.General/About"].
Proof.
  repeat constructor; eexists; vm_compute; reflexivity.
Qed.

(* ================================================================== *)
(** * Label resolver *)
(* ================================================================== *)

(** [first_device_label] returns the label of the first device type of the
    order that is a key of the labels. *)
Lemma first_device_label_Some (order : list string) (labels : dict string)
    (label : string) :
  first_device_label order labels = Some label <->
  exists before device after,
    order = before ++ device :: after
    /\ (forall other, In other before -> dict_get other labels = None)
    /\ dict_get device labels = Some label.
Proof.
  induction order as [|dev order IH]; simpl.
  - split; [discriminate|].
    intros (before & device & after & Heq & _). destruct before; discriminate.
  - destruct (dict_get dev labels) as [l|] eqn:Hdev.
    + split.
      * intros H. inversion H; subst l.
        exists [], dev, order. simpl. repeat split; auto. intros ? [].
      * intros (before & device & after & Heq & Hbefore & Hget).
        destruct before as [|b before]; simpl in Heq; inversion Heq; subst.
        -- congruence.
        -- rewrite (Hbefore b) in Hdev by now left. discriminate.
    + rewrite IH. split.
      * intros (before & device & after & Heq & Hbefore & Hget).
        exists (dev :: before), device, after. subst order.
        repeat split; auto. intros other [<-|Hin]; auto.
      * intros (before & device & after & Heq & Hbefore & Hget).
        destruct before as [|b before]; simpl in Heq; inversion Heq; subst.
        -- congruence.
        -- exists before, device, after. repeat split; auto.
           intros other Hin. apply Hbefore. now right.
Qed.

Lemma first_device_label_None (order : list string) (labels : dict string) :
  first_device_label order labels = None <->
  forall device, In device order -> dict_get device labels = None.
Proof.
  induction order as [|dev order IH]; simpl.
  - split; auto. intros _ ? [].
  - destruct (dict_get dev labels) eqn:Hdev.
    + split; [discriminate|]. intros H. rewrite (H dev) in Hdev by now left.
      discriminate.
    + rewrite IH. split.
      * intros H device [<-|Hin]; auto.
      * intros H device Hin. apply H. now right.
Qed.

(** [sanitize_key] on the declared type: on every localization entry one
    of three cases holds.  The entry is a plain string and is returned;
    the entry is a dictionary whose recognized key holds the device
    labels, and the label of the first device type of [DEVICE_TYPES]
    present in them is returned; or the entry is a dictionary without the
    recognized key, or with none of the device types under it, and
    [UNKNOWN_PLACEHOLDER] is returned. *)
Lemma sanitize_key_cases (key : LocalizationString) :
  DEVICE_TYPES = ["iphone"; "ipad"; "ipod"; "mac"; "applevision"; "other"]
  /\ ((exists s, key = LocStr s /\ sanitize_key key = s)
      \/ (exists d labels before device after label,
            key = LocDict d
            /\ dict_get "NSStringDeviceSpecificRuleType" d = Some labels
            /\ DEVICE_TYPES = before ++ device :: after
            /\ (forall other, In other before -> dict_get other labels = None)
            /\ dict_get device labels = Some label
            /\ sanitize_key key = label)
      \/ (exists d,
            key = LocDict d
            /\ (dict_get "NSStringDeviceSpecificRuleType" d = None
                \/ exists labels,
                     dict_get "NSStringDeviceSpecificRuleType" d = Some labels
                     /\ forall device, In device DEVICE_TYPES ->
                                       dict_get device labels = None)
            /\ sanitize_key key = UNKNOWN_PLACEHOLDER)).
Proof.
  split; [reflexivity|].
  destruct key as [s|d].
  - left. exists s. auto.
  - unfold sanitize_key.
    destruct (dict_get "NSStringDeviceSpecificRuleType" d) as [labels|] eqn:Hkey.
    + destruct (first_device_label DEVICE_TYPES labels) as [label|] eqn:Hfirst.
      * right; left.
        apply first_device_label_Some in Hfirst.
        destruct Hfirst as (before & device & after & Heq & Hbefore & Hget).
        exists d, labels, before, device, after, label. repeat split; auto.
      * right; right. exists d. repeat split; auto.
        right. exists labels. split; auto.
        now apply first_device_label_None.
    + right; right. exists d. auto.
Qed.

Section UntypedLabels.

Lemma dict_get_map {V W} (f : V -> W) (k : string) (d : dict V) :
  dict_get k (map (fun kv => (fst kv, f (snd kv))) d)
  = option_map f (dict_get k d).
Proof.
  induction d as [|[k' v] d IH]; cbn [map dict_get fst snd]; auto.
  destruct (String.eqb k k'); auto.
Qed.

(** On a dictionary of labels the loop is the search for the first device
    type that is a key. *)
Lemma device_loop_dict (order : list string) (labels : dict Untyped.PyValue) :
  Untyped.device_loop order (Untyped.PyDict labels)
  = Ok (match
           find (fun device_type => dict_mem device_type labels) order
         with
         | Some device_type =>
             match dict_get device_type labels with
             | Some label => label
             | None => Untyped.PyStr UNKNOWN_PLACEHOLDER
             end
         | None => Untyped.PyStr UNKNOWN_PLACEHOLDER
         end).
Proof.
  induction order as [|device_type order IH]; cbn [Untyped.device_loop find Untyped.py_in bind];
    auto.
  destruct (dict_mem device_type labels) eqn:Hmem; [|exact IH].
  unfold dict_mem in Hmem. cbn [Untyped.py_getitem].
  now destruct (dict_get device_type labels).
Qed.

Lemma device_loop_first (order before after : list string) (device : string)
    (labels : dict Untyped.PyValue) (label : Untyped.PyValue) :
  order = before ++ device :: after ->
  (forall other, In other before -> dict_get other labels = None) ->
  dict_get device labels = Some label ->
  Untyped.device_loop order (Untyped.PyDict labels) = Ok label.
Proof.
  intros -> Hbefore Hget. rewrite device_loop_dict.
  induction before as [|b before IH]; cbn [app find].
  - replace (dict_mem device labels) with true
      by (unfold dict_mem; now rewrite Hget).
    now rewrite Hget.
  - replace (dict_mem b labels) with false
      by (unfold dict_mem; now rewrite (Hbefore b (or_introl eq_refl))).
    apply IH. intros other Hin. apply Hbefore. now right.
Qed.

Lemma device_loop_none (order : list string) (labels : dict Untyped.PyValue) :
  (forall device, In device order -> dict_get device labels = None) ->
  Untyped.device_loop order (Untyped.PyDict labels) = Ok (Untyped.PyStr UNKNOWN_PLACEHOLDER).
Proof.
  intros Hnone. rewrite device_loop_dict.
  induction order as [|device order IH]; cbn [find]; auto.
  replace (dict_mem device labels) with false
    by (unfold dict_mem; now rewrite (Hnone device (or_introl eq_refl))).
  apply IH. intros other Hin. apply Hnone. now right.
Qed.

(** The loop raises [TypeError] and nothing else, and never on a
    dictionary. *)
Lemma device_loop_raises (order : list string) (v : Untyped.PyValue) (e : exn) :
  Untyped.device_loop order v = Raise e ->
  e = TypeError /\ forall labels, v <> Untyped.PyDict labels.
Proof.
  intros Hraise. destruct v as [| | | | | |labels|];
    try (split; [|discriminate]);
    try (rewrite device_loop_dict in Hraise; discriminate);
    induction order as [|device order IH]; cbn [Untyped.device_loop Untyped.py_in bind] in Hraise;
    try discriminate; try (now inversion Hraise).
  - destruct (is_substring device s); [now inversion Hraise|auto].
  - destruct (existsb (Untyped.str_eq device) items); [now inversion Hraise|auto].
Qed.

(** The loop on the labels of the declared type. *)
Lemma device_loop_of_labels (order : list string) (labels : dict string) :
  Untyped.device_loop order (Untyped.of_labels labels)
  = Ok (Untyped.PyStr (match first_device_label order labels with
               | Some label => label
               | None => UNKNOWN_PLACEHOLDER
               end)).
Proof.
  unfold Untyped.of_labels.
  induction order as [|device order IH];
    cbn [Untyped.device_loop first_device_label Untyped.py_in bind]; auto.
  unfold dict_mem. cbn [Untyped.py_getitem]. rewrite dict_get_map.
  destruct (dict_get device labels) as [label|]; cbn [option_map]; auto.
Qed.

(** The typed function is the untyped one on the declared type. *)
Lemma sanitize_key_of_entry (entry : LocalizationString) :
  Untyped.sanitize_key (Untyped.of_entry entry) = Ok (Untyped.PyStr (sanitize_key entry)).
Proof.
  destruct entry as [s|d]; cbn [Untyped.of_entry Untyped.sanitize_key sanitize_key]; auto.
  rewrite dict_get_map.
  destruct (dict_get "NSStringDeviceSpecificRuleType" d) as [labels|];
    cbn [option_map]; auto.
  apply device_loop_of_labels.
Qed.

End UntypedLabels.

(** C9, as the code has it.  Label resolution is preference-ordered, and
    total on the declared type.  For every value [sanitize_key] can be
    handed: a string is returned as it is; for a dictionary whose
    recognized key holds a dictionary, the value of the first device type
    of [DEVICE_TYPES] present in it is returned, and [UNKNOWN_PLACEHOLDER]
    when none is present; a dictionary without the recognized key, and a
    value that is neither a string nor a dictionary, give
    [UNKNOWN_PLACEHOLDER].  The function raises only when the value under
    the recognized key is not a dictionary, and then [TypeError]; it does
    so whenever that value is not iterable or is bytes.  On the entries of
    the declared type [LocalizationString] it never raises: there it is
    the total function [sanitize_key] of the three cases above. *)
Theorem sanitize_key_total_and_ordered (key : Untyped.PyValue) :
  DEVICE_TYPES = ["iphone"; "ipad"; "ipod"; "mac"; "applevision"; "other"]
  /\ (forall s, key = Untyped.PyStr s -> Untyped.sanitize_key key = Ok key)
  /\ (forall d labels,
         key = Untyped.PyDict d ->
         dict_get "NSStringDeviceSpecificRuleType" d = Some (Untyped.PyDict labels) ->
         (forall before device after label,
             DEVICE_TYPES = before ++ device :: after ->
             (forall other, In other before -> dict_get other labels = None) ->
             dict_get device labels = Some label ->
             Untyped.sanitize_key key = Ok label)
         /\ ((forall device, In device DEVICE_TYPES ->
                             dict_get device labels = None) ->
             Untyped.sanitize_key key
             = Ok (Untyped.PyStr UNKNOWN_PLACEHOLDER)))
  /\ ((forall s, key <> Untyped.PyStr s) ->
      (forall d, key = Untyped.PyDict d ->
                 dict_get "NSStringDeviceSpecificRuleType" d = None) ->
      Untyped.sanitize_key key = Ok (Untyped.PyStr UNKNOWN_PLACEHOLDER))
  /\ (forall e,
         Untyped.sanitize_key key = Raise e ->
         e = TypeError
         /\ exists d v,
              key = Untyped.PyDict d
              /\ dict_get "NSStringDeviceSpecificRuleType" d = Some v
              /\ forall labels, v <> Untyped.PyDict labels)
  /\ (forall d v,
         key = Untyped.PyDict d ->
         dict_get "NSStringDeviceSpecificRuleType" d = Some v ->
         match v with
         | Untyped.PyNone | Untyped.PyBool _ | Untyped.PyInt _
         | Untyped.PyBytes _ | Untyped.PyOpaque _ =>
             Untyped.sanitize_key key = Raise TypeError
         | _ => True
         end)
  /\ (forall entry : LocalizationString,
         key = Untyped.of_entry entry ->
         Untyped.sanitize_key key = Ok (Untyped.PyStr (sanitize_key entry))).
Proof.
  split; [reflexivity|]. split; [|split; [|split; [|split; [|split]]]].
  - intros s ->. reflexivity.
  - intros d labels -> Hrule. cbn [Untyped.sanitize_key]. rewrite Hrule. split.
    + intros before device after label Horder Hbefore Hget.
      now apply (device_loop_first _ before after device).
    + apply device_loop_none.
  - intros Hstr Hdict. destruct key; cbn [Untyped.sanitize_key]; auto.
    + now destruct (Hstr s).
    + now rewrite (Hdict d).
  - intros e Hraise. destruct key; cbn [Untyped.sanitize_key] in Hraise;
      try discriminate.
    destruct (dict_get "NSStringDeviceSpecificRuleType" d) as [v|] eqn:Hrule;
      [|discriminate].
    destruct (device_loop_raises _ _ _ Hraise) as [-> Hv].
    split; auto. exists d, v. auto.
  - intros d v -> Hrule. cbn [Untyped.sanitize_key]. rewrite Hrule.
    destruct v; auto.
  - intros entry ->. apply sanitize_key_of_entry.
Qed.

Lemma sanitize_key_total_and_ordered_witness :
  Untyped.sanitize_key
    (Untyped.PyDict
       [("NSStringDeviceSpecificRuleType",
         Untyped.PyDict [("ipad", Untyped.PyStr "On this iPad");
                         ("iphone", Untyped.PyStr "On this iPhone")])])
  = Ok (Untyped.PyStr "On this iPhone").
Proof.
  destruct (sanitize_key_total_and_ordered
              (Untyped.PyDict
                 [("NSStringDeviceSpecificRuleType",
                   Untyped.PyDict [("ipad", Untyped.PyStr "On this iPad");
                                   ("iphone", Untyped.PyStr "On this iPhone")])]))
    as (_ & _ & Hdevices & _).
  destruct (Hdevices _ [("ipad", Untyped.PyStr "On this iPad");
                        ("iphone", Untyped.PyStr "On this iPhone")]
              eq_refl eq_refl) as [Hfirst _].
  apply (Hfirst [] "iphone" ["ipad"; "ipod"; "mac"; "applevision"; "other"]);
    [reflexivity| |reflexivity].
  intros other [].
Defined.

(** C9, as stated, fails: "any other shape" does not always give the
    placeholder.  An entry whose recognized key holds the string
    ["iphone"], one whose recognized key holds a list with ["iphone"] in
    it, and one whose recognized key holds [None] make [sanitize_key]
    raise [TypeError]. *)
Lemma sanitize_key_raises_on_other_shape :
  Untyped.sanitize_key
    (Untyped.PyDict [("NSStringDeviceSpecificRuleType", Untyped.PyStr "iphone")])
  = Raise TypeError
  /\ Untyped.sanitize_key
       (Untyped.PyDict
          [("NSStringDeviceSpecificRuleType",
            Untyped.PyList [Untyped.PyStr "iphone"])])
     = Raise TypeError
  /\ Untyped.sanitize_key
       (Untyped.PyDict [("NSStringDeviceSpecificRuleType", Untyped.PyNone)])
     = Raise TypeError.
Proof. repeat split. Qed.

(** The preference order at work: an entry with labels for [ipad] and
    [iphone] resolves to the [iphone] one, whatever their order in the
    entry. *)
Example sanitize_key_prefers_iphone :
  sanitize_key
    (LocDict [("NSStringDeviceSpecificRuleType",
               [("ipad", "On this iPad"); ("iphone", "On this iPhone")])])
  = "On this iPhone".
Proof. reflexivity. Qed.

(* ================================================================== *)
(** * Merge engine *)
(* ================================================================== *)

(** C3.  Merging the same string twice is not idempotent: into a slot
    that holds ["a"], the first [merge_into(c, "k", "b")] stores the list
    [["a", "b"]] and the second one appends ["b"] again, so that the slot
    changes after the first application and holds a duplicate.  The test
    [existing_value == value] only catches a slot equal to the whole new
    value. *)
Theorem merge_into_twice_duplicates (fuel : nat) :
  let c := [("k", VStr "a")] in
  merge_into (S fuel) c "k" (VStr "b") = Some [("k", VList ["a"; "b"])]
  /\ merge_into (S fuel) [("k", VList ["a"; "b"])] "k" (VStr "b")
     = Some [("k", VList ["a"; "b"; "b"])]
  /\ ~ NoDup ["a"; "b"; "b"].
Proof.
  cbv zeta. repeat split; try reflexivity.
  intros H. inversion H as [|? ? _ H']. inversion H' as [|? ? Hin _].
  apply Hin. now left.
Qed.

Section SortFacts.

Lemma In_insert_sorted (x y : string) (l : list string) :
  In x (insert_sorted y l) <-> x = y \/ In x l.
Proof.
  induction l as [|z l IH]; simpl.
  - intuition.
  - destruct (String.leb y z); simpl; [intuition|].
    rewrite IH. intuition.
Qed.

(** Sorting keeps the elements. *)
Lemma In_sort (x : string) (l : list string) : In x (sort l) <-> In x l.
Proof.
  induction l as [|y l IH]; simpl; [tauto|].
  rewrite In_insert_sorted, IH. intuition.
Qed.

End SortFacts.

Section MergeFacts.

Lemma dict_depth_max (d : dict Value) : dict_depth d = S (max_depth d).
Proof. reflexivity. Qed.

Lemma dict_get_depth (d : dict Value) k v :
  dict_get k d = Some v -> value_depth v <= max_depth d.
Proof.
  induction d as [|[k' v'] d IH]; simpl; [discriminate|].
  destruct (String.eqb k k'); intros H.
  - inversion H; subst. apply Nat.le_max_l.
  - specialize (IH H). etransitivity; [exact IH|apply Nat.le_max_r].
Qed.

Lemma max_depth_set (d : dict Value) k v :
  max_depth (dict_set k v d) <= Nat.max (value_depth v) (max_depth d).
Proof.
  induction d as [|[k' v'] d IH]; simpl.
  - lia.
  - destruct (String.eqb k k'); simpl; fold (max_depth d) in *;
      fold (max_depth (dict_set k v d)) in *; lia.
Qed.

(** What is reachable in a sub-dictionary is what is reachable in the
    slot of its self key. *)
Lemma reachable_dict (s : string) (d : dict Value) :
  reachable s (VDict d) <->
  exists v, dict_get ROOT_STR d = Some v /\ reachable s v.
Proof.
  induction d as [|[k v] d IH].
  - simpl. split; [tauto|]. intros (v & H & _). discriminate.
  - change (reachable s (VDict ((k, v) :: d)))
      with (if String.eqb ROOT_STR k then reachable s v
            else reachable s (VDict d)).
    cbn [dict_get]. destruct (String.eqb ROOT_STR k).
    + split.
      * intros H. exists v. split; [reflexivity|exact H].
      * intros (v' & Heq & H). now inversion Heq; subst.
    + exact IH.
Qed.

Lemma value_eqb_VStr (existing : Value) (t : string) :
  value_eqb existing (VStr t) = true -> existing = VStr t.
Proof.
  destruct existing; simpl; try discriminate.
  intros H. apply String.eqb_eq in H. now subst.
Qed.

(** One merge of a string: with fuel for the depth of the dictionary the
    call returns, the dictionary gets no deeper, the string is reachable
    in the slot, and so is everything that was. *)
Lemma merge_into_leaf (fuel : nat) :
  forall (d : dict Value) (k t : string),
    dict_depth d <= fuel ->
    exists d',
      merge_into fuel d k (VStr t) = Some d'
      /\ max_depth d' <= max_depth d
      /\ exists v',
           dict_get k d' = Some v'
           /\ reachable t v'
           /\ forall s v, dict_get k d = Some v -> reachable s v -> reachable s v'.
Proof.
  induction fuel as [|fuel IH]; intros d k t Hfuel.
  - rewrite dict_depth_max in Hfuel. lia.
  - rewrite dict_depth_max in Hfuel. apply le_S_n in Hfuel.
    simpl merge_into.
    destruct (dict_get k d) as [existing|] eqn:Hget.
    + destruct (value_eqb existing (VStr t)) eqn:Heq.
      { apply value_eqb_VStr in Heq. subst existing.
        exists d. repeat split; auto.
        exists (VStr t). repeat split; auto.
        intros s v Hv Hs. now inversion Hv; subst. }
      destruct existing as [e|l|e].
      * eexists. split; [reflexivity|]. split.
        { etransitivity; [apply max_depth_set|]. simpl. lia. }
        eexists. split; [apply dict_get_set_same|]. split.
        { change (In t (sort [e; t])). apply In_sort. right. now left. }
        intros s v Hv Hs. inversion Hv; subst v. simpl in Hs. subst s.
        change (In e (sort [e; t])). apply In_sort. now left.
      * eexists. split; [reflexivity|]. split.
        { etransitivity; [apply max_depth_set|]. simpl. lia. }
        eexists. split; [apply dict_get_set_same|]. split.
        { change (In t (sort (l ++ [t]))). apply In_sort, in_or_app.
          right. now left. }
        intros s v Hv Hs. inversion Hv; subst v.
        change (In s (sort (l ++ [t]))). apply In_sort, in_or_app. now left.
      * pose proof (dict_get_depth _ _ _ Hget) as Hdepth.
        destruct (IH e ROOT_STR t) as (e' & He' & Hmax & v' & Hv' & Ht & Hkeep).
        { change (dict_depth e) with (value_depth (VDict e)). lia. }
        rewrite He'. eexists. split; [reflexivity|]. split.
        { etransitivity; [apply max_depth_set|].
          change (value_depth (VDict e')) with (S (max_depth e')).
          change (value_depth (VDict e)) with (S (max_depth e)) in Hdepth.
          lia. }
        eexists. split; [apply dict_get_set_same|]. split.
        { apply reachable_dict. eauto. }
        intros s v Hv Hs. inversion Hv; subst v.
        apply reachable_dict in Hs. destruct Hs as (v0 & Hv0 & Hs).
        apply reachable_dict. eauto.
    + eexists. split; [reflexivity|]. split.
      { etransitivity; [apply max_depth_set|]. simpl. lia. }
      eexists. split; [apply dict_get_set_same|]. split; [reflexivity|].
      discriminate.
Qed.

Lemma merge_all_leaves (fuel : nat) (k : string) (leaves : list string) :
  forall c : dict Value,
    dict_depth c <= fuel ->
    exists c',
      merge_all fuel c k (map VStr leaves) = Some c'
      /\ forall s,
           In s leaves
           \/ (exists v0, dict_get k c = Some v0 /\ reachable s v0) ->
           exists v, dict_get k c' = Some v /\ reachable s v.
Proof.
  induction leaves as [|t leaves IH]; intros c Hfuel; simpl.
  - exists c. split; auto. intros s [[]|H]. exact H.
  - destruct (merge_into_leaf fuel c k t Hfuel)
      as (c1 & Hc1 & Hmax & v1 & Hv1 & Ht & Hkeep).
    rewrite Hc1.
    destruct (IH c1) as (c' & Hc' & Hall).
    { rewrite dict_depth_max in *. lia. }
    exists c'. split; auto.
    intros s [[<-|Hin]|(v0 & Hv0 & Hs)]; apply Hall; eauto.
Qed.

End MergeFacts.

(** C4.  Merge never loses data.  Merging a sequence of strings, distinct
    or not, into one key of a container returns (given fuel for the depth
    of the container), and afterwards every one of the strings is
    reachable in the value at the key: it is the value, an element of its
    list, or reachable under the self key ["(root)"] of its
    sub-dictionary.  The same holds of every leaf that was reachable at
    the key before. *)
Theorem merge_never_loses_data (fuel : nat) (c : dict Value) (k : string)
    (leaves : list string) :
  dict_depth c <= fuel ->
  exists c',
    merge_all fuel c k (map VStr leaves) = Some c'
    /\ (forall s, In s leaves ->
                  exists v, dict_get k c' = Some v /\ reachable s v)
    /\ (forall s v0, dict_get k c = Some v0 -> reachable s v0 ->
                     exists v, dict_get k c' = Some v /\ reachable s v).
Proof.
  intros Hfuel.
  destruct (merge_all_leaves fuel k leaves c Hfuel) as (c' & Hc' & Hall).
  exists c'. repeat split; eauto.
Qed.

(** Three URLs merged into a slot that already holds a sub-dictionary with
    a URL of its own. *)
Lemma merge_never_loses_data_witness :
  exists c',
    merge_all 2 [("Wi-Fi", VDict [("(root)", VStr "prefs:root=WIFI")])] "Wi-Fi"
      (map VStr ["prefs:root=C"; "prefs:root=A"; "prefs:root=B"]) = Some c'
    /\ (forall s, In s ["prefs:root=C"; "prefs:root=A"; "prefs:root=B"] ->
                  exists v, dict_get "Wi-Fi" c' = Some v /\ reachable s v)
    /\ (forall s v0,
          dict_get "Wi-Fi" [("Wi-Fi", VDict [("(root)", VStr "prefs:root=WIFI")])]
          = Some v0 ->
          reachable s v0 ->
          exists v, dict_get "Wi-Fi" c' = Some v /\ reachable s v).
Proof.
  apply (merge_never_loses_data 2
           [("Wi-Fi", VDict [("(root)", VStr "prefs:root=WIFI")])] "Wi-Fi"
           ["prefs:root=C"; "prefs:root=A"; "prefs:root=B"]).
  vm_compute. lia.
Defined.

Example merge_all_sample :
  merge_all 2 [("Wi-Fi", VDict [("(root)", VStr "prefs:root=WIFI")])] "Wi-Fi"
    (map VStr ["prefs:root=C"; "prefs:root=A"; "prefs:root=B"])
  = Some [("Wi-Fi",
           VDict [("(root)",
                   VList ["prefs:root=A"; "prefs:root=B"; "prefs:root=C";
                          "prefs:root=WIFI"])])].
Proof. reflexivity. Qed.

(* ================================================================== *)
(** * The URL tree *)
(* ================================================================== *)

(** The sample trees are the ones [add_url] builds. *)
Example tree_with_gap_built :
  add_url empty_tree (sample_record "prefs:root=A&path=x") = Ok tree_with_gap.
Proof. reflexivity. Qed.

Example tree_with_child_built :
  (t <- add_url empty_tree (sample_record "prefs:root=A") ;;
   add_url t (sample_record "prefs:root=A&path=x"))
  = Ok tree_with_child.
Proof. reflexivity. Qed.

Example tree_with_slash_child_built :
  (t <- add_url empty_tree (sample_record "prefs:root=A") ;;
   add_url t (sample_record "prefs:root=A&path=x/"))
  = Ok tree_with_slash_child.
Proof. reflexivity. Qed.

Example tree_with_first_level_gaps_built :
  (t <- add_url empty_tree (sample_record "prefs:root=WIFI&path=Pane") ;;
   add_url t (sample_record "prefs:root=%23x&path=y"))
  = Ok tree_with_first_level_gaps.
Proof. reflexivity. Qed.

Example tree_with_ROOT_built :
  add_url empty_tree (sample_record "prefs:root=ROOT&path=child")
  = Ok tree_with_ROOT.
Proof. reflexivity. Qed.

(** ** Root flattening *)

(** C8.  Root flattening.  When [prefs] has a child [ROOT] and [ROOT] a
    child under a key other than ["ROOT"] itself (["child"], say), then
    after the flattening step that child is the child of [prefs] under the
    same key, and [ROOT] is no longer among the children of [prefs].  The
    keys of a dictionary are distinct. *)
Theorem flatten_root_hoists (tree prefs_scheme root_root child : URLTree)
    (key : string) :
  dict_get "prefs" (urls tree) = Some prefs_scheme ->
  dict_get "ROOT" (urls prefs_scheme) = Some root_root ->
  NoDup (keys (urls root_root)) ->
  dict_get key (urls root_root) = Some child ->
  key <> "ROOT" ->
  subtree tree ["prefs"; "ROOT"; key] = Some child
  /\ subtree (flatten_root tree) ["prefs"; key] = Some child
  /\ exists prefs_scheme',
       dict_get "prefs" (urls (flatten_root tree)) = Some prefs_scheme'
       /\ dict_get "ROOT" (urls prefs_scheme') = None
       /\ ~ In "ROOT" (keys (urls prefs_scheme')).
Proof.
  intros Hprefs Hroot Hnodup Hchild Hkey.
  assert (Hflat : dict_get "prefs" (urls (flatten_root tree))
                  = Some (Node (root prefs_scheme)
                            (dict_del "ROOT"
                               (dict_update (urls prefs_scheme) (urls root_root))))).
  { unfold flatten_root. rewrite Hprefs, Hroot. cbn [urls].
    apply dict_get_set_same. }
  split; [|split].
  - cbn [subtree]. now rewrite Hprefs, Hroot, Hchild.
  - cbn [subtree]. rewrite Hflat. cbn [urls].
    rewrite dict_get_del_other by assumption.
    now rewrite (dict_get_update _ _ _ _ Hnodup Hchild).
  - eexists. split; [exact Hflat|]. cbn [urls]. split.
    + apply dict_get_del_same.
    + apply dict_get_None_keys, dict_get_del_same.
Qed.

Lemma flatten_root_hoists_witness :
  subtree tree_with_ROOT ["prefs"; "ROOT"; "child"]
  = Some (Node (Some (sample_record "prefs:root=ROOT&path=child")) [])
  /\ subtree (flatten_root tree_with_ROOT) ["prefs"; "child"]
     = Some (Node (Some (sample_record "prefs:root=ROOT&path=child")) [])
  /\ exists prefs_scheme',
       dict_get "prefs" (urls (flatten_root tree_with_ROOT)) = Some prefs_scheme'
       /\ dict_get "ROOT" (urls prefs_scheme') = None
       /\ ~ In "ROOT" (keys (urls prefs_scheme')).
Proof.
  apply (flatten_root_hoists tree_with_ROOT
           (Node None
              [("ROOT", Node None
                          [("child", Node (Some (sample_record "prefs:root=ROOT&path=child")) [])])])
           (Node None
              [("child", Node (Some (sample_record "prefs:root=ROOT&path=child")) [])])
           (Node (Some (sample_record "prefs:root=ROOT&path=child")) [])
           "child").
  - reflexivity.
  - reflexivity.
  - repeat constructor. simpl. tauto.
  - reflexivity.
  - discriminate.
Defined.

(** A child of [ROOT] that is itself keyed ["ROOT"] does not survive the
    step: it is hoisted, then deleted with its parent. *)
Example flatten_root_drops_nested_ROOT :
  subtree
    (flatten_root
       (Node None
          [("prefs", Node None [("ROOT", Node None [("ROOT", empty_tree)])])]))
    ["prefs"; "ROOT"]
  = None.
Proof. reflexivity. Qed.

(** ** [add_alias] *)

Section AddAliasFacts.

Lemma pop_rev_cons {A} (x : A) (l : list A) :
  pop (rev (x :: l)) = Ok (x, rev l).
Proof. unfold pop. now rewrite rev_involutive. Qed.

(** [if_in] is a lookup followed by a store under the same key. *)
Lemma if_in_get {V G} (at_value : V -> G -> result (V * G)) (k : string)
    (d : dict V) (g : G) :
  if_in at_value k d g
  = match dict_get k d with
    | Some v => '(v', g') <- at_value v g ;; Ok (dict_set k v' d, g')
    | None => Ok (d, g)
    end.
Proof.
  induction d as [|[k' v] d IH]; cbn [if_in dict_get dict_set]; auto.
  destruct (String.eqb k k') eqn:E.
  - destruct (at_value v g) as [[v' g']|e]; cbn [bind dict_set];
      rewrite ?E; auto.
  - rewrite IH. destruct (dict_get k d) as [v0|]; cbn [bind]; auto.
    destruct (at_value v0 g) as [[v' g']|e]; cbn [bind dict_set];
      rewrite ?E; auto.
Qed.

(** On a node that the URL does not own, [add_alias] takes its [else]
    branch. *)
Lemma add_alias_not_owner (r : option RawSettingsURL) (cs : dict URLTree)
    (u alias : string) (recursive : bool) (psr : option (list string))
    (g : Globals) :
  is_root_url r u = false ->
  add_alias (Node r cs) u alias recursive psr g
  = (path_segments_rev <-
       match psr with
       | None => segments <- get_path_segments u ;; Ok (rev segments)
       | Some l => Ok l
       end ;;
     '(next_segment, path_segments_rev) <- pop path_segments_rev ;;
     '(urls', g) <-
       if_in
         (fun child g =>
            add_alias child u alias recursive (Some path_segments_rev) g)
         next_segment cs g ;;
     Ok (Node r urls', g)).
Proof.
  intros H. destruct r as [r|]; cbn [is_root_url] in H; cbn [add_alias].
  - now rewrite H.
  - reflexivity.
Qed.

(** On the node that the URL owns, it takes the first branch, whatever
    segments are left. *)
Lemma add_alias_owner (r : RawSettingsURL) (cs : dict URLTree)
    (u alias : string) (recursive : bool) (psr : option (list string))
    (g : Globals) :
  is_root_url (Some r) u = true ->
  add_alias (Node (Some r) cs) u alias recursive psr g
  = (let (r', g) := RawSettingsURL_add_alias r alias g in
     if recursive then
       aliased_url_segments <- get_path_segments u ;;
       alias_segments <- get_path_segments alias ;;
       '(urls', g) <-
         for_items
           (fun url_key child_tree g =>
              child_url <- build_url (aliased_url_segments ++ [url_key]) ;;
              child_alias <- build_url (alias_segments ++ [url_key]) ;;
              add_alias child_tree child_url child_alias recursive None g)
           cs g ;;
       Ok (Node (Some r') urls', g)
     else Ok (Node (Some r') cs, g)).
Proof.
  intros H. cbn [is_root_url] in H. cbn [add_alias]. now rewrite H.
Qed.

Lemma owns_false (u : string) (r : option RawSettingsURL) (cs : dict URLTree) :
  owns u (Node r cs) = false ->
  is_root_url r u = false
  /\ forall k c, dict_get k cs = Some c -> owns u c = false.
Proof.
  cbn [owns]. intros H. apply orb_false_iff in H. destruct H as [Hr Hcs].
  split; auto. intros k c Hget.
  apply dict_get_In in Hget.
  destruct (owns u c) eqn:Hc; auto.
  assert (existsb (fun kv => owns u (snd kv)) cs = true)
    by (apply existsb_exists; exists (k, c); auto).
  congruence.
Qed.

(** The walk of [add_alias] through a tree without an owner of the URL:
    it stops without a change when a segment is missing, and pops from
    the empty list when the segments run out. *)
Lemma add_alias_walk_without_owner (u alias : string) (recursive : bool)
    (g : Globals) :
  forall (segments : list string) (t : URLTree),
    owns u t = false ->
    add_alias t u alias recursive (Some (rev segments)) g
    = match subtree t segments with
      | Some _ => Raise IndexError
      | None => Ok (t, g)
      end.
Proof.
  induction segments as [|s rest IH]; intros [r cs] Hown;
    destruct (owns_false _ _ _ Hown) as [Hr Hcs];
    rewrite add_alias_not_owner by assumption.
  - reflexivity.
  - cbn [bind]. rewrite pop_rev_cons. cbn [bind]. rewrite if_in_get.
    cbn [subtree urls].
    destruct (dict_get s cs) as [c|] eqn:Hget; [|reflexivity].
    rewrite (IH c (Hcs _ _ Hget)).
    destruct (subtree c rest); cbn [bind]; [reflexivity|].
    now rewrite (dict_set_get_id _ _ _ Hget).
Qed.

End AddAliasFacts.

(** [add_alias] on a tree where no node is owned by a record whose URL is
    the original URL.  It never changes the tree or the globals, and does
    one of three things: it raises what [get_path_segments] raises on the
    URL; it returns, a silent no-op, when a segment of the URL is missing
    from the tree; it raises [IndexError] (a pop from the empty list) when
    all the segments are in the tree, that is when the walked path ends at
    a node without an owning record. *)
Lemma add_alias_without_owner (t : URLTree) (u alias : string)
    (recursive : bool) (g : Globals) :
  owns u t = false ->
  add_alias t u alias recursive None g
  = (segments <- get_path_segments u ;;
     match subtree t segments with
     | Some _ => Raise IndexError
     | None => Ok (t, g)
     end).
Proof.
  intros Hown. destruct t as [r cs].
  destruct (owns_false _ _ _ Hown) as [Hr _].
  rewrite add_alias_not_owner by assumption.
  destruct (get_path_segments u) as [segments|e]; cbn [bind]; [|reflexivity].
  rewrite <- (add_alias_walk_without_owner u alias recursive g segments _ Hown).
  now rewrite add_alias_not_owner by assumption.
Qed.

(** An alias for a URL whose first segment after the scheme is not in the
    tree is dropped. *)
Example add_alias_unknown_root_dropped :
  owns "prefs:root=CASTLE" tree_with_gap = false
  /\ add_alias tree_with_gap "prefs:root=CASTLE" "prefs:root=ICLOUD" true None
       no_globals
     = Ok (tree_with_gap, no_globals).
Proof.
  split; [reflexivity|].
  rewrite add_alias_without_owner; reflexivity.
Qed.

(** C2.  The silent no-op fails where the claim insists on it: in the tree
    of the single record [prefs:root=A&path=x] no node is owned by
    [prefs:root=A], the walked path [prefs], [A] exists and ends at a node
    with no owning record, and [add_alias] raises [IndexError] there
    instead of returning. *)
Theorem add_alias_on_gap_raises :
  owns "prefs:root=A" tree_with_gap = false
  /\ subtree tree_with_gap ["prefs"; "A"]
     = Some (Node None
               [("x", Node (Some (sample_record "prefs:root=A&path=x")) [])])
  /\ add_alias tree_with_gap "prefs:root=A" "prefs:root=B" false None no_globals
     = Raise IndexError.
Proof. repeat split. Qed.

Section AliasPropagation.

(** [owner_path] leads to a node that the URL owns. *)
Lemma owner_path_owner (u : string) :
  forall (segments : list string) (t : URLTree) (p : list string),
    owner_path u t segments = Some p ->
    exists n, subtree t p = Some n /\ is_root_url (root n) u = true.
Proof.
  induction segments as [|s rest IH]; intros t p; cbn [owner_path];
    destruct (is_root_url (root t) u) eqn:Hr; intros H;
    try (inversion H; subst; exists t; now split); try discriminate.
  destruct (dict_get s (urls t)) as [c|] eqn:Hget; [|discriminate].
  destruct (owner_path u c rest) as [p0|] eqn:Hp; [|discriminate].
  inversion H; subst. cbn [subtree]. rewrite Hget. eauto.
Qed.

(** The walk down to the owner: whatever [add_alias] does on the node
    that the URL owns is done there, and the rest of the tree is kept. *)
Lemma add_alias_walk_to_owner (u alias : string) (recursive : bool)
    (A A' : URLTree) (g g' : Globals) :
  (forall psr, add_alias A u alias recursive psr g = Ok (A', g')) ->
  forall (segments : list string) (t : URLTree) (p : list string),
    owner_path u t segments = Some p ->
    subtree t p = Some A ->
    exists t',
      add_alias t u alias recursive (Some (rev segments)) g = Ok (t', g')
      /\ subtree t' p = Some A'.
Proof.
  intros HA.
  induction segments as [|s rest IH]; intros [r cs] p; cbn [owner_path root];
    destruct (is_root_url r u) eqn:Hr; intros Hp Hsub;
    try (inversion Hp; subst; cbn [subtree] in Hsub; inversion Hsub; subst;
         exists A'; split; [apply HA|reflexivity]);
    try discriminate.
  cbn [urls] in Hp.
  destruct (dict_get s cs) as [c|] eqn:Hget; [|discriminate].
  destruct (owner_path u c rest) as [p0|] eqn:Hp0; [|discriminate].
  inversion Hp; subst p. cbn [subtree urls] in Hsub. rewrite Hget in Hsub.
  destruct (IH c p0 Hp0 Hsub) as (c' & Hc' & Hsub').
  exists (Node r (dict_set s c' cs)). split.
  - rewrite add_alias_not_owner by assumption.
    cbn [bind]. rewrite pop_rev_cons. cbn [bind]. rewrite if_in_get, Hget, Hc'.
    reflexivity.
  - cbn [subtree urls]. now rewrite dict_get_set_same.
Qed.


End AliasPropagation.


(** ** [find_missing] *)

Section FindMissingFacts.

(** Induction on a tree with the hypothesis for every child. *)
Lemma URLTree_children_ind (P : URLTree -> Prop) :
  (forall r cs, Forall (fun kv => P (snd kv)) cs -> P (Node r cs)) ->
  forall t, P t.
Proof.
  intros step. fix IH 1. intros [r cs]. apply step.
  induction cs as [|[k c] cs IHcs]; constructor.
  - apply IH.
  - exact IHcs.
Qed.

Lemma gen_then_nil {A} (next : generated A) : gen_then ([], None) next = next.
Proof. now destruct next. Qed.

Lemma gen_then_assoc {A} (a b c : generated A) :
  gen_then (gen_then a b) c = gen_then a (gen_then b c).
Proof.
  destruct a as [xs [e|]], b as [ys [e'|]], c as [zs o]; cbn; auto.
  now rewrite app_assoc.
Qed.

Lemma report_app (a b : list (list string * URLTree)) :
  report (a ++ b) = gen_then (report a) (report b).
Proof.
  induction a as [|entry a IH]; cbn [report app].
  - now rewrite gen_then_nil.
  - destruct (build_url (fst entry)); [|reflexivity].
    now rewrite IH, gen_then_assoc.
Qed.

(** [find_missing] visits the nodes in the order of [nodes] and reports
    the ones without an owning record that lie below the schemes. *)
Lemma find_missing_report :
  forall (t : URLTree) (segments : list string),
    find_missing t segments = report (filter is_missing (nodes t segments)).
Proof.
  induction t as [r cs IH] using URLTree_children_ind. intros segments.
  assert (Hloop :
            gen_for (fun key subtree => find_missing subtree (segments ++ [key])) cs
            = report (filter is_missing
                        (flat_map (fun kv => nodes (snd kv) (segments ++ [fst kv])) cs))).
  { induction IH as [|[k c] cs Hc _ IHcs]; cbn [gen_for flat_map]; auto.
    cbn [snd fst] in *. now rewrite filter_app, report_app, Hc, IHcs. }
  cbn [find_missing nodes filter]. rewrite Hloop.
  change (is_missing (segments, Node r cs))
    with (match r with
          | None => Nat.ltb 1 (List.length segments)
          | Some _ => false
          end).
  destruct r as [r|].
  - apply gen_then_nil.
  - destruct (Nat.ltb 1 (List.length segments)).
    + cbn [report fst snd]. now destruct (build_url segments).
    + apply gen_then_nil.
Qed.

Lemma report_returns (entries : list (list string * URLTree)) :
  (forall entry, In entry entries -> exists u, build_url (fst entry) = Ok u) ->
  exists reported,
    report entries = (reported, None)
    /\ Forall2 (fun pair entry =>
                  build_url (fst entry) = Ok (fst pair) /\ snd pair = snd entry)
         reported entries.
Proof.
  induction entries as [|entry entries IH]; intros Hok; cbn [report].
  - exists []. split; constructor.
  - destruct (Hok entry (or_introl eq_refl)) as (u & Hu). rewrite Hu.
    destruct IH as (reported & Hrep & Hall).
    { intros e He. apply Hok. now right. }
    rewrite Hrep. exists ((u, snd entry) :: reported). split; [reflexivity|].
    constructor; auto.
Qed.

End FindMissingFacts.

(** C6, as the code has it.  The nodes that [find_missing] has to report
    are the nodes without an owning record whose path from the root of
    the tree has more than one segment: the root of the tree and the
    nodes of the schemes are left out, the immediate children of a scheme
    are not.  When [build_url] returns on the paths of these nodes,
    [find_missing()] runs to its end and yields exactly one pair for each
    of them, parents first and children in insertion order, made of
    [build_url] of the path and of the node. *)
Theorem find_missing_reports_gaps (t : URLTree) :
  (forall entry, In entry (filter is_missing (nodes t [])) ->
                 exists u, build_url (fst entry) = Ok u) ->
  (forall entry,
      In entry (filter is_missing (nodes t [])) <->
      In entry (nodes t [])
      /\ root (snd entry) = None /\ 1 < List.length (fst entry))
  /\ exists reported,
       find_missing t [] = (reported, None)
       /\ Forall2 (fun pair entry =>
                     build_url (fst entry) = Ok (fst pair) /\ snd pair = snd entry)
            reported (filter is_missing (nodes t [])).
Proof.
  intros Hok. split.
  - intros entry. rewrite filter_In. unfold is_missing.
    destruct (root (snd entry)).
    + intuition discriminate.
    + rewrite Nat.ltb_lt. intuition.
  - rewrite find_missing_report. now apply report_returns.
Qed.

Lemma find_missing_reports_gaps_witness :
  exists reported,
    find_missing tree_with_gap [] = (reported, None)
    /\ Forall2 (fun pair entry =>
                  build_url (fst entry) = Ok (fst pair) /\ snd pair = snd entry)
         reported (filter is_missing (nodes tree_with_gap [])).
Proof.
  apply (find_missing_reports_gaps tree_with_gap).
  intros entry Hin. cbn in Hin. destruct Hin as [<-|[]].
  eexists. reflexivity.
Defined.

Example find_missing_sample :
  find_missing tree_with_gap []
  = ([("prefs:root=A",
       Node None [("x", Node (Some (sample_record "prefs:root=A&path=x")) [])])],
     None).
Proof. reflexivity. Qed.

(** C6, as stated, fails.  In the tree of [prefs:root=WIFI&path=Pane] and
    [prefs:root=%23x&path=y] the two children of the scheme [prefs] have
    no owning record.  The first one is reported, although it is an
    immediate child of a scheme; at the second one [build_url] raises
    [IndexError], so that no pair is yielded for it. *)
Lemma find_missing_first_level :
  map fst (filter is_missing (nodes tree_with_first_level_gaps []))
  = [["prefs"; "WIFI"]; ["prefs"; "#x"]]
  /\ find_missing tree_with_first_level_gaps []
     = ([("prefs:root=WIFI",
          Node None
            [("Pane", Node (Some (sample_record "prefs:root=WIFI&path=Pane")) [])])],
        Some IndexError).
Proof. split; reflexivity. Qed.

(** ** Labels *)

Section LabelFacts.

Lemma In_dict_set {V} (k k0 : string) (v v0 : V) (d : dict V) :
  In (k0, v0) (dict_set k v d) -> In (k0, v0) d \/ (k0, v0) = (k, v).
Proof.
  induction d as [|[k' v'] d IH]; cbn [dict_set].
  - intros [H|[]]. right. now symmetry.
  - destruct (String.eqb k k') eqn:E.
    + apply String.eqb_eq in E. subst k'.
      intros [H|H]; [right; now symmetry|left; now right].
    + intros [H|H]; [left; now left|].
      destruct (IH H); [left; now right|now right].
Qed.

(** The labels [Bundle.load] assigns are not empty entries: it raises
    on an empty string (and on an empty dictionary). *)
Lemma assign_labels_not_empty (strings : dict (dict LocalizationString)) :
  forall record record',
    assign_labels strings record = Ok record' ->
    forall locale entry,
      In (locale, entry) (localized_labels record') ->
      In (locale, entry) (localized_labels record) \/ loc_len entry <> 0.
Proof.
  induction strings as [|[loc strs] strings IH]; intros record record';
    cbn [assign_labels].
  - intros H. inversion H; subst. auto.
  - destruct (dict_get (label_id record) strs) as [e|]; [|apply IH].
    destruct (Nat.eqb (loc_len e) 0) eqn:Hlen; [discriminate|].
    intros H locale entry Hin.
    destruct (IH _ _ H locale entry Hin) as [Hold|Hne]; auto.
    cbn [localized_labels] in Hold.
    destruct (In_dict_set _ _ _ _ _ Hold) as [Hold'|Heq]; auto.
    inversion Heq; subst. right. now apply Nat.eqb_neq.
Qed.

End LabelFacts.

(** C7.  An empty label is fatal in [Bundle.load] only, and only as a
    whole entry.  [add_override] makes a record of an override whose
    inline label for [en] is the empty string and adds it to the tree;
    [Bundle.load] raises on the same entry, but accepts a device-specific
    entry whose [iphone] label is empty, which [sanitize_key] resolves to
    the empty string. *)
Theorem add_override_keeps_empty_label :
  add_override empty_tree no_globals override_with_empty_label
  = Ok (Node None
          [("prefs",
            Node None
              [("WIFI",
                Node (Some (mkRawSettingsURL "prefs:root=WIFI" "" ""
                              [("en", LocStr "")] None)) [])])])
  /\ assign_labels [("en", [("WIFI_LABEL", LocStr "")])]
       (mkRawSettingsURL "prefs:root=WIFI" "WIFI_LABEL" "" [] None)
     = Raise (Exception
                "Empty label for URL prefs:root=WIFI, locale en. Please adjust overrides as necessary.")
  /\ assign_labels [("en", [("WIFI_LABEL", empty_iphone_label)])]
       (mkRawSettingsURL "prefs:root=WIFI" "WIFI_LABEL" "" [] None)
     = Ok (mkRawSettingsURL "prefs:root=WIFI" "WIFI_LABEL" ""
             [("en", empty_iphone_label)] None)
  /\ sanitize_key empty_iphone_label = "".
Proof. repeat split. Qed.

(* ================================================================== *)
(** * More on the merge engine *)
(* ================================================================== *)

Section SortOrder.

Lemma leb_lt_eq (a b : string) :
  String.leb a b = true <-> a = b \/ String_as_OT.lt a b.
Proof.
  unfold String.leb.
  destruct (String.compare a b) eqn:Hc.
  - apply String_as_OT.cmp_eq in Hc. intuition.
  - apply String_as_OT.cmp_lt in Hc. intuition.
  - split; [discriminate|]. intros [Heq|Hlt].
    + apply String_as_OT.cmp_eq in Heq. unfold String_as_OT.cmp in Heq.
      congruence.
    + apply String_as_OT.cmp_lt in Hlt. unfold String_as_OT.cmp in Hlt.
      congruence.
Qed.

Lemma leb_trans (a b c : string) :
  String.leb a b = true -> String.leb b c = true -> String.leb a c = true.
Proof.
  rewrite !leb_lt_eq. intros [->|Hab] [->|Hbc]; auto.
  right. eapply String_as_OT.lt_trans; eauto.
Qed.

Lemma leb_false_flip (a b : string) :
  String.leb a b = false -> String.leb b a = true.
Proof.
  intros H. destruct (String.leb_total a b) as [H'|H']; congruence.
Qed.

Lemma insert_sorted_ascending (x : string) (l : list string) :
  ascending l -> ascending (insert_sorted x l).
Proof.
  unfold ascending. induction 1 as [|y l Hl IH Hhd]; cbn [insert_sorted].
  - repeat constructor.
  - destruct (String.leb x y) eqn:Hxy.
    + repeat constructor; auto.
    + constructor; auto.
      destruct l as [|z l]; cbn [insert_sorted].
      * constructor. now apply leb_false_flip.
      * destruct (String.leb x z); constructor.
        -- now apply leb_false_flip.
        -- now inversion Hhd.
Qed.

(** [sort] sorts: its result is ascending and has the elements of its
    argument, each as many times. *)
Lemma sort_ascending (l : list string) : ascending (sort l).
Proof.
  induction l; cbn [sort]; [constructor|now apply insert_sorted_ascending].
Qed.

Lemma insert_sorted_perm (x : string) (l : list string) :
  Permutation (insert_sorted x l) (x :: l).
Proof.
  induction l as [|y l IH]; cbn [insert_sorted]; auto.
  destruct (String.leb x y); auto.
  rewrite IH. apply perm_swap.
Qed.

Lemma sort_perm (l : list string) : Permutation (sort l) l.
Proof.
  induction l as [|x l IH]; cbn [sort]; auto.
  rewrite insert_sorted_perm. now constructor.
Qed.

Lemma ascending_strong (l : list string) :
  ascending l -> StronglySorted (fun a b => String.leb a b = true) l.
Proof.
  apply Sorted_StronglySorted. intros a b c. apply leb_trans.
Qed.

(** Two ascending lists with the same elements are the same list. *)
Lemma ascending_unique (l m : list string) :
  ascending l -> ascending m -> Permutation l m -> l = m.
Proof.
  intros Hl Hm. apply ascending_strong in Hl, Hm. revert m Hm.
  induction Hl as [|x l Hl IH Hx]; intros m Hm Hperm.
  - apply Permutation_nil in Hperm. now subst.
  - destruct Hm as [|y m Hm Hy].
    + symmetry in Hperm. apply Permutation_nil in Hperm. discriminate.
    + assert (x = y).
      { assert (Hin1 : In x (y :: m))
          by (eapply Permutation_in; [exact Hperm|now left]).
        assert (Hin2 : In y (x :: l))
          by (eapply Permutation_in; [symmetry; exact Hperm|now left]).
        destruct Hin1 as [->|Hin1]; auto.
        destruct Hin2 as [->|Hin2]; auto.
        rewrite Forall_forall in Hx, Hy.
        apply String.leb_antisym; auto. }
      subst y. f_equal. apply IH; auto.
      eapply Permutation_cons_inv; eauto.
Qed.

(** The result of [sort] depends on the elements only, not on their
    order. *)
Lemma sort_permutation (l m : list string) :
  Permutation l m -> sort l = sort m.
Proof.
  intros H. apply ascending_unique; auto using sort_ascending.
  now rewrite !sort_perm.
Qed.

End SortOrder.

Section MergeTermination.

Lemma merge_items_None (fuel : nat) (items : dict Value) :
  merge_items fuel items None = None.
Proof. induction items as [|kv items IH]; [reflexivity|exact IH]. Qed.

Lemma merge_items_cons (fuel : nat) (k : string) (sv : Value)
    (items existing : dict Value) :
  merge_items fuel ((k, sv) :: items) (Some existing)
  = merge_items fuel items (merge_into fuel existing k sv).
Proof. reflexivity. Qed.

(** One step of [merge_into] on a key that is present. *)
Lemma merge_into_present (fuel : nat) (d : dict Value) (k : string)
    (existing v : Value) :
  dict_get k d = Some existing ->
  value_eqb existing v = false ->
  merge_into (S fuel) d k v
  = match existing, v with
    | VStr e, VStr s => Some (dict_set k (VList (sort [e; s])) d)
    | VStr e, VList l => Some (dict_set k (VList (sort (l ++ [e]))) d)
    | VList e, VStr s => Some (dict_set k (VList (sort (e ++ [s]))) d)
    | VList e, VList l => Some (dict_set k (VList (sort (e ++ l))) d)
    | VDict e, VDict dv =>
        match merge_items fuel dv (Some e) with
        | Some e' => Some (dict_set k (VDict e') d)
        | None => None
        end
    | VDict e, _ =>
        match merge_into fuel e ROOT_STR v with
        | Some e' => Some (dict_set k (VDict e') d)
        | None => None
        end
    | _, VDict dv =>
        match merge_into fuel dv ROOT_STR existing with
        | Some d' => Some (dict_set k (VDict d') d)
        | None => None
        end
    end.
Proof.
  intros Hget Hneq. cbn [merge_into]. rewrite Hget, Hneq.
  destruct existing, v; reflexivity.
Qed.

Lemma merge_into_absent (fuel : nat) (d : dict Value) (k : string) (v : Value) :
  dict_get k d = None -> merge_into (S fuel) d k v = Some (dict_set k v d).
Proof. intros Hget. cbn [merge_into]. now rewrite Hget. Qed.

Lemma merge_into_equal (fuel : nat) (d : dict Value) (k : string)
    (existing v : Value) :
  dict_get k d = Some existing ->
  value_eqb existing v = true ->
  merge_into (S fuel) d k v = Some d.
Proof. intros Hget Heq. cbn [merge_into]. now rewrite Hget, Heq. Qed.

Lemma value_depth_dict (d : dict Value) : value_depth (VDict d) = S (max_depth d).
Proof. reflexivity. Qed.

Lemma max_depth_In (d : dict Value) (k : string) (v : Value) :
  In (k, v) d -> value_depth v <= max_depth d.
Proof.
  induction d as [|[k' v'] d IH]; cbn [In max_depth fold_right snd]; [tauto|].
  fold (max_depth d). intros [H|H].
  - inversion H; subst. lia.
  - specialize (IH H). lia.
Qed.

(** [merge_into] returns whenever its fuel exceeds the depths of the
    dictionary and of the value, and the dictionary it returns is no
    deeper than the deeper of the two. *)
Lemma merge_into_returns (fuel : nat) :
  forall (d : dict Value) (k : string) (v : Value),
    Nat.max (max_depth d) (value_depth v) < fuel ->
    exists d',
      merge_into fuel d k v = Some d'
      /\ max_depth d' <= Nat.max (max_depth d) (value_depth v).
Proof.
  induction fuel as [|fuel IH]; intros d k v Hfuel; [lia|].
  destruct (dict_get k d) as [existing|] eqn:Hget.
  2:{ rewrite merge_into_absent by assumption. eexists. split; [reflexivity|].
      rewrite Nat.max_comm. apply max_depth_set. }
  destruct (value_eqb existing v) eqn:Heq.
  { rewrite (merge_into_equal _ _ _ _ _ Hget Heq). exists d. split; auto. lia. }
  rewrite (merge_into_present _ _ _ _ _ Hget Heq).
  pose proof (dict_get_depth _ _ _ Hget) as Hex.
  assert (Hscalar_into :
            forall (dv : dict Value) (x : Value),
              value_depth x = 0 -> max_depth dv < fuel ->
              exists dv', merge_into fuel dv ROOT_STR x = Some dv'
                          /\ max_depth dv' <= max_depth dv).
  { intros dv x Hx Hdv. destruct (IH dv ROOT_STR x) as (dv' & Hdv' & Hle);
      [rewrite Hx; lia|].
    exists dv'. split; auto. rewrite Hx in Hle. lia. }
  destruct existing as [e|e|e], v as [s|l|dv];
    rewrite ?value_depth_dict in *; cbn [value_depth] in Hfuel, Hex |- *.
  - eexists. split; [reflexivity|].
    etransitivity; [apply max_depth_set|]. cbn [value_depth]. lia.
  - eexists. split; [reflexivity|].
    etransitivity; [apply max_depth_set|]. cbn [value_depth]. lia.
  - destruct (Hscalar_into dv (VStr e)) as (dv' & -> & Hle); [reflexivity|lia|].
    eexists. split; [reflexivity|].
    etransitivity; [apply max_depth_set|]. rewrite value_depth_dict. lia.
  - eexists. split; [reflexivity|].
    etransitivity; [apply max_depth_set|]. cbn [value_depth]. lia.
  - eexists. split; [reflexivity|].
    etransitivity; [apply max_depth_set|]. cbn [value_depth]. lia.
  - destruct (Hscalar_into dv (VList e)) as (dv' & -> & Hle); [reflexivity|lia|].
    eexists. split; [reflexivity|].
    etransitivity; [apply max_depth_set|]. rewrite value_depth_dict. lia.
  - destruct (Hscalar_into e (VStr s)) as (e' & -> & Hle); [reflexivity|lia|].
    eexists. split; [reflexivity|].
    etransitivity; [apply max_depth_set|]. rewrite value_depth_dict. lia.
  - destruct (Hscalar_into e (VList l)) as (e' & -> & Hle); [reflexivity|lia|].
    eexists. split; [reflexivity|].
    etransitivity; [apply max_depth_set|]. rewrite value_depth_dict. lia.
  - assert (Hloop :
              forall (items acc : dict Value) (bound : nat),
                bound < fuel ->
                (forall k' sv, In (k', sv) items -> value_depth sv <= bound) ->
                max_depth acc <= bound ->
                exists acc', merge_items fuel items (Some acc) = Some acc'
                             /\ max_depth acc' <= bound).
    { induction items as [|[k' sv] items IHitems]; intros acc bound Hb Hitems Hacc.
      - exists acc. split; auto.
      - rewrite merge_items_cons.
        destruct (IH acc k' sv) as (acc1 & -> & Hle).
        { specialize (Hitems k' sv (or_introl eq_refl)). lia. }
        apply IHitems; auto.
        + intros k'' sv' Hin. apply (Hitems k'' sv'). now right.
        + specialize (Hitems k' sv (or_introl eq_refl)). lia. }
    destruct (Hloop dv e (Nat.max (max_depth e) (max_depth dv)))
      as (e' & -> & Hle); [lia| |lia|].
    { intros k' sv Hin. apply max_depth_In in Hin. lia. }
    eexists. split; [reflexivity|].
    etransitivity; [apply max_depth_set|]. rewrite value_depth_dict. lia.
Qed.

(** More fuel does not change what [merge_into] returns. *)
Lemma merge_into_more_fuel (fuel : nat) :
  forall (d : dict Value) (k : string) (v : Value) (d' : dict Value),
    merge_into fuel d k v = Some d' ->
    forall fuel', fuel <= fuel' -> merge_into fuel' d k v = Some d'.
Proof.
  induction fuel as [|fuel IH]; intros d k v d' Hm fuel' Hle; [discriminate|].
  destruct fuel' as [|fuel']; [lia|]. apply le_S_n in Hle.
  destruct (dict_get k d) as [existing|] eqn:Hget.
  2:{ rewrite merge_into_absent in Hm by assumption.
      now rewrite merge_into_absent by assumption. }
  destruct (value_eqb existing v) eqn:Heq.
  { rewrite (merge_into_equal fuel _ _ _ _ Hget Heq) in Hm.
    now rewrite (merge_into_equal fuel' _ _ _ _ Hget Heq). }
  rewrite (merge_into_present fuel _ _ _ _ Hget Heq) in Hm.
  rewrite (merge_into_present fuel' _ _ _ _ Hget Heq).
  assert (Hloop :
            forall (items : dict Value) (acc : dict Value) (acc' : dict Value),
              merge_items fuel items (Some acc) = Some acc' ->
              merge_items fuel' items (Some acc) = Some acc').
  { induction items as [|[k' sv] items IHitems]; intros acc acc' Hacc; auto.
    rewrite merge_items_cons in *.
    destruct (merge_into fuel acc k' sv) as [acc1|] eqn:H1.
    - rewrite (IH _ _ _ _ H1 fuel' Hle). now apply IHitems.
    - now rewrite merge_items_None in Hacc. }
  destruct existing as [e|e|e], v as [s|l|dv]; auto.
  - destruct (merge_into fuel dv ROOT_STR (VStr e)) as [x|] eqn:H1; [|discriminate].
    now rewrite (IH _ _ _ _ H1 fuel' Hle).
  - destruct (merge_into fuel dv ROOT_STR (VList e)) as [x|] eqn:H1; [|discriminate].
    now rewrite (IH _ _ _ _ H1 fuel' Hle).
  - destruct (merge_into fuel e ROOT_STR (VStr s)) as [x|] eqn:H1; [|discriminate].
    now rewrite (IH _ _ _ _ H1 fuel' Hle).
  - destruct (merge_into fuel e ROOT_STR (VList l)) as [x|] eqn:H1; [|discriminate].
    now rewrite (IH _ _ _ _ H1 fuel' Hle).
  - destruct (merge_items fuel dv (Some e)) as [x|] eqn:H1; [|discriminate].
    now rewrite (Hloop _ _ _ H1).
Qed.

End MergeTermination.

Section MergeSoundness.

Lemma list_eqb_eq (l m : list string) : list_eqb l m = true -> l = m.
Proof.
  revert m. induction l as [|x l IH]; intros [|y m]; cbn [list_eqb];
    try discriminate; auto.
  intros H. apply andb_true_iff in H. destruct H as [Hx Hl].
  apply String.eqb_eq in Hx. subst. f_equal. auto.
Qed.

Lemma value_eqb_scalar (existing v : Value) :
  is_scalar v = true -> value_eqb existing v = true -> existing = v.
Proof.
  destruct existing, v; cbn [is_scalar value_eqb]; try discriminate; intros _ H.
  - apply String.eqb_eq in H. now subst.
  - apply list_eqb_eq in H. now subst.
Qed.

(** [merge_into] stores under its key and nowhere else. *)
Lemma merge_into_other_keys (fuel : nat) (d : dict Value) (k : string)
    (v : Value) (d' : dict Value) (k0 : string) :
  merge_into fuel d k v = Some d' ->
  k0 <> k ->
  dict_get k0 d' = dict_get k0 d.
Proof.
  intros Hm Hne. assert (Hne' : k <> k0) by congruence.
  destruct fuel as [|fuel]; [discriminate|].
  destruct (dict_get k d) as [existing|] eqn:Hget.
  2:{ rewrite merge_into_absent in Hm by assumption. inversion Hm.
      now apply dict_get_set_other. }
  destruct (value_eqb existing v) eqn:Heq.
  { rewrite (merge_into_equal _ _ _ _ _ Hget Heq) in Hm. now inversion Hm. }
  rewrite (merge_into_present _ _ _ _ _ Hget Heq) in Hm.
  destruct existing, v;
    repeat match type of Hm with
           | match ?x with _ => _ end = _ => destruct x; [|discriminate]
           end;
    inversion Hm; now apply dict_get_set_other.
Qed.

(** The slot of the key after a merge: it exists, every leaf reachable in
    the old slot is reachable in it, and so are the strings of a merged
    scalar. *)
Lemma merge_into_slot (fuel : nat) :
  forall (d : dict Value) (k : string) (v : Value) (d' : dict Value),
    merge_into fuel d k v = Some d' ->
    exists v',
      dict_get k d' = Some v'
      /\ (forall existing s,
             dict_get k d = Some existing -> reachable s existing ->
             reachable s v')
      /\ (is_scalar v = true -> forall s, reachable s v -> reachable s v').
Proof.
  induction fuel as [|fuel IH]; intros d k v d' Hm; [discriminate|].
  destruct (dict_get k d) as [existing|] eqn:Hget.
  2:{ rewrite merge_into_absent in Hm by assumption. inversion Hm.
      exists v. split; [apply dict_get_set_same|]. split; auto. discriminate. }
  destruct (value_eqb existing v) eqn:Heq.
  { rewrite (merge_into_equal _ _ _ _ _ Hget Heq) in Hm. inversion Hm; subst d'.
    exists existing. split; auto. split.
    - intros ? s H. now inversion H.
    - intros Hs s Hv. now rewrite (value_eqb_scalar _ _ Hs Heq). }
  rewrite (merge_into_present _ _ _ _ _ Hget Heq) in Hm.
  assert (Hinto :
            forall (dv dv' : dict Value) (x : Value),
              merge_into fuel dv ROOT_STR x = Some dv' ->
              (forall s, reachable s (VDict dv) -> reachable s (VDict dv'))
              /\ (is_scalar x = true ->
                  forall s, reachable s x -> reachable s (VDict dv'))).
  { intros dv dv' x Hx. destruct (IH _ _ _ _ Hx) as (v'' & Hv'' & Hold & Hnew).
    split.
    - intros s Hs. apply reachable_dict in Hs. destruct Hs as (v1 & Hv1 & Hs).
      apply reachable_dict. eauto.
    - intros Hsc s Hs. apply reachable_dict. eauto. }
  destruct existing as [e|e|e], v as [s0|l|dv];
    repeat match type of Hm with
           | match ?x with _ => _ end = _ =>
               let H := fresh "Hin" in destruct x eqn:H; [|discriminate]
           end;
    injection Hm as <-;
    eexists; (split; [apply dict_get_set_same|]); split;
    try (intros existing s Hex Hs; inversion Hex; subst existing; clear Hex);
    try (intros Hsc s Hs; try discriminate).
  - cbn [reachable] in *. subst. change (In e (sort [e; s0])).
    apply In_sort. now left.
  - cbn [reachable] in *. subst. change (In s0 (sort [e; s0])).
    apply In_sort. right. now left.
  - cbn [reachable] in *. subst. apply In_sort, in_or_app. right. now left.
  - cbn [reachable] in *. apply In_sort, in_or_app. now left.
  - apply (proj2 (Hinto _ _ _ Hin) eq_refl). exact Hs.
  - cbn [reachable] in *. apply In_sort, in_or_app. now left.
  - cbn [reachable] in *. subst. apply In_sort, in_or_app. right. now left.
  - cbn [reachable] in *. apply In_sort, in_or_app. now left.
  - cbn [reachable] in *. apply In_sort, in_or_app. now right.
  - apply (proj2 (Hinto _ _ _ Hin) eq_refl). exact Hs.
  - apply (proj1 (Hinto _ _ _ Hin)). exact Hs.
  - apply (proj2 (Hinto _ _ _ Hin) eq_refl). exact Hs.
  - apply (proj1 (Hinto _ _ _ Hin)). exact Hs.
  - apply (proj2 (Hinto _ _ _ Hin) eq_refl). exact Hs.
  - assert (Hloop :
              forall (items acc acc' : dict Value),
                merge_items fuel items (Some acc) = Some acc' ->
                reachable s (VDict acc) -> reachable s (VDict acc')).
    { induction items as [|[k' sv] items IHitems]; intros acc acc' Hacc Hr.
      - inversion Hacc. now subst.
      - rewrite merge_items_cons in Hacc.
        destruct (merge_into fuel acc k' sv) as [acc1|] eqn:H1;
          [|now rewrite merge_items_None in Hacc].
        apply (IHitems _ _ Hacc).
        apply reachable_dict in Hr. destruct Hr as (v1 & Hv1 & Hr).
        apply reachable_dict.
        destruct (String.eqb_spec ROOT_STR k') as [<-|Hne].
        + destruct (IH _ _ _ _ H1) as (v'' & Hv'' & Hold & _). eauto.
        + rewrite (merge_into_other_keys _ _ _ _ _ _ H1 Hne). eauto. }
    eapply Hloop; eauto.
Qed.

End MergeSoundness.

(** X1 (merge engine).  [merge_into] terminates: whenever the fuel exceeds
    the nesting depth of the dictionary and of the value, the call
    returns; the dictionary it returns is no deeper than the deeper of
    the two, and it is the one any larger fuel gives. *)
Theorem merge_into_terminates (fuel : nat) (d : dict Value) (k : string)
    (v : Value) :
  Nat.max (max_depth d) (value_depth v) < fuel ->
  exists d',
    merge_into fuel d k v = Some d'
    /\ max_depth d' <= Nat.max (max_depth d) (value_depth v)
    /\ forall fuel', fuel <= fuel' -> merge_into fuel' d k v = Some d'.
Proof.
  intros Hfuel.
  destruct (merge_into_returns fuel d k v Hfuel) as (d' & Hd' & Hle).
  exists d'. repeat split; auto.
  intros fuel'. now apply merge_into_more_fuel.
Qed.

(** X2 (merge engine).  A merge changes the slot of its key only: every
    other key of the dictionary keeps its value. *)
Theorem merge_into_keeps_other_keys (fuel : nat) (d : dict Value)
    (k k0 : string) (v : Value) :
  Nat.max (max_depth d) (value_depth v) < fuel ->
  k0 <> k ->
  exists d', merge_into fuel d k v = Some d' /\ dict_get k0 d' = dict_get k0 d.
Proof.
  intros Hfuel Hne.
  destruct (merge_into_returns fuel d k v Hfuel) as (d' & Hd' & _).
  exists d'. split; auto. eapply merge_into_other_keys; eauto.
Qed.

Section MergePaths.

Lemma leaf_at_key (k : string) (rest : list string) (s : string)
    (d : dict Value) (v : Value) :
  dict_get k d = Some v ->
  leaf_at (k :: rest) s (VDict d) <-> leaf_at rest s v.
Proof. intros H. cbn [leaf_at]. now rewrite H. Qed.

Lemma leaf_at_scalar (path : list string) (s : string) (v : Value) :
  is_scalar v = true -> leaf_at path s v -> path = [] /\ reachable s v.
Proof.
  destruct v, path; cbn [is_scalar leaf_at reachable]; try discriminate; tauto.
Qed.

(** What is reachable lies at a path of self keys. *)
Lemma reachable_leaf_at (s : string) (m : nat) :
  forall v, value_depth v <= m -> reachable s v ->
            exists n, leaf_at (repeat ROOT_STR n) s v.
Proof.
  induction m as [|m IH]; intros [t|l|d] Hdepth Hs;
    try (exists 0; exact Hs);
    rewrite value_depth_dict in Hdepth; [lia|].
  apply reachable_dict in Hs. destruct Hs as (v & Hv & Hs).
  pose proof (dict_get_depth _ _ _ Hv) as Hle.
  destruct (IH v) as (n & Hn); [lia|exact Hs|].
  exists (S n). cbn [repeat]. now apply (leaf_at_key _ _ _ _ _ Hv).
Qed.

Lemma repeat_app_path (path : list string) (n m : nat) :
  (path ++ repeat ROOT_STR n) ++ repeat ROOT_STR m
  = path ++ repeat ROOT_STR (n + m).
Proof. now rewrite <- app_assoc, repeat_app. Qed.

(** No leaf of the dictionary is lost by a merge, under whatever keys it
    lies: it stays under the same keys, followed by the self keys of the
    sub-dictionaries the merge has put it in. *)
Lemma merge_into_keeps_paths (fuel : nat) :
  forall (d : dict Value) (k : string) (v : Value) (d' : dict Value),
    merge_into fuel d k v = Some d' ->
    forall path s,
      leaf_at path s (VDict d) ->
      exists n, leaf_at (path ++ repeat ROOT_STR n) s (VDict d').
Proof.
  induction fuel as [|fuel IH]; intros d k v d' Hm path s Hleaf; [discriminate|].
  destruct path as [|k0 rest]; [destruct Hleaf|].
  destruct (dict_get k0 d) as [v0|] eqn:Hv0;
    [|cbn [leaf_at] in Hleaf; rewrite Hv0 in Hleaf; destruct Hleaf].
  apply (leaf_at_key _ _ _ _ _ Hv0) in Hleaf.
  destruct (String.eqb_spec k0 k) as [->|Hne].
  2:{ exists 0. cbn [repeat]. rewrite app_nil_r. apply (leaf_at_key _ _ _ _ v0).
      - now rewrite (merge_into_other_keys _ _ _ _ _ _ Hm Hne).
      - exact Hleaf. }
  destruct (value_eqb v0 v) eqn:Heq.
  { rewrite (merge_into_equal _ _ _ _ _ Hv0 Heq) in Hm. inversion Hm; subst d'.
    exists 0. cbn [repeat]. rewrite app_nil_r.
    now apply (leaf_at_key _ _ _ _ _ Hv0). }
  rewrite (merge_into_present _ _ _ _ _ Hv0 Heq) in Hm.
  assert (Hlist :
            is_scalar v0 = true ->
            forall m : list string,
              (reachable s v0 -> In s m) ->
              exists n,
                leaf_at ((k :: rest) ++ repeat ROOT_STR n) s
                  (VDict (dict_set k (VList m) d))).
  { intros Hsc m Hin. destruct (leaf_at_scalar rest s v0 Hsc Hleaf) as [-> Hs].
    exists 0. cbn [repeat app].
    apply (leaf_at_key _ _ _ _ (VList m)); [apply dict_get_set_same|].
    cbn [leaf_at]. auto. }
  assert (Hinto :
            forall dv dv' : dict Value,
              is_scalar v0 = true ->
              merge_into fuel dv ROOT_STR v0 = Some dv' ->
              exists n,
                leaf_at ((k :: rest) ++ repeat ROOT_STR n) s
                  (VDict (dict_set k (VDict dv') d))).
  { intros dv dv' Hsc Hdv.
    destruct (leaf_at_scalar rest s v0 Hsc Hleaf) as [-> Hs].
    destruct (merge_into_slot _ _ _ _ _ Hdv) as (v' & Hv' & _ & Hnew).
    destruct (reachable_leaf_at s (value_depth v') v' (le_n _) (Hnew Hsc s Hs))
      as (n & Hn).
    exists (S n). cbn [repeat app].
    apply (leaf_at_key _ _ _ _ (VDict dv')); [apply dict_get_set_same|].
    now apply (leaf_at_key _ _ _ _ _ Hv'). }
  assert (Hunder :
            forall e e' : dict Value,
              v0 = VDict e ->
              (forall path0,
                  leaf_at path0 s (VDict e) ->
                  exists n, leaf_at (path0 ++ repeat ROOT_STR n) s (VDict e')) ->
              exists n,
                leaf_at ((k :: rest) ++ repeat ROOT_STR n) s
                  (VDict (dict_set k (VDict e') d))).
  { intros e e' -> Hkeep. destruct (Hkeep rest Hleaf) as (n & Hn).
    exists n. cbn [app].
    apply (leaf_at_key _ _ _ _ (VDict e')); [apply dict_get_set_same|exact Hn]. }
  assert (Hloop :
            forall items acc acc' : dict Value,
              merge_items fuel items (Some acc) = Some acc' ->
              forall path0,
                leaf_at path0 s (VDict acc) ->
                exists n, leaf_at (path0 ++ repeat ROOT_STR n) s (VDict acc')).
  { induction items as [|[k' sv] items IHitems]; intros acc acc' Hacc path0 Hp.
    - inversion Hacc; subst. exists 0. cbn [repeat]. now rewrite app_nil_r.
    - rewrite merge_items_cons in Hacc.
      destruct (merge_into fuel acc k' sv) as [acc1|] eqn:H1;
        [|now rewrite merge_items_None in Hacc].
      destruct (IH _ _ _ _ H1 _ _ Hp) as (n & Hn).
      destruct (IHitems _ _ Hacc _ Hn) as (m & Hm').
      exists (n + m). now rewrite <- repeat_app_path. }
  destruct v0 as [e|e|e], v as [s0|l|dv];
    repeat match type of Hm with
           | match ?x with _ => _ end = _ =>
               let H := fresh "Hin" in destruct x eqn:H; [|discriminate]
           end;
    injection Hm as <-.
  - apply Hlist; [reflexivity|]. cbn [reachable]. intros ->.
    change (In e (sort [e; s0])). apply In_sort. now left.
  - apply Hlist; [reflexivity|]. cbn [reachable]. intros ->.
    apply In_sort, in_or_app. right. now left.
  - now apply (Hinto dv).
  - apply Hlist; [reflexivity|]. cbn [reachable]. intros Hs.
    apply In_sort, in_or_app. now left.
  - apply Hlist; [reflexivity|]. cbn [reachable]. intros Hs.
    apply In_sort, in_or_app. now left.
  - now apply (Hinto dv).
  - apply (Hunder e); auto. intros path0. now apply (IH _ _ _ _ Hin).
  - apply (Hunder e); auto. intros path0. now apply (IH _ _ _ _ Hin).
  - apply (Hunder e); auto. intros path0. now apply (Hloop _ _ _ Hin).
Qed.

End MergePaths.

(** X3 (merge engine).  Whatever is merged, a string, a list or a
    sub-dictionary, and under whatever key, no leaf is lost.  A leaf that
    lies in the dictionary before the call, under whatever path of keys,
    lies in it after the call under the same path, followed by the self
    keys of the sub-dictionaries the merge has put it in; and a leaf
    reachable in a slot of the dictionary before the call is reachable in
    the same slot after it. *)
Theorem merge_into_keeps_leaves (fuel : nat) (d : dict Value) (k : string)
    (v : Value) :
  Nat.max (max_depth d) (value_depth v) < fuel ->
  exists d',
    merge_into fuel d k v = Some d'
    /\ (forall k0 v0 s,
           dict_get k0 d = Some v0 -> reachable s v0 ->
           exists v0', dict_get k0 d' = Some v0' /\ reachable s v0')
    /\ (forall path s,
           leaf_at path s (VDict d) ->
           exists n, leaf_at (path ++ repeat ROOT_STR n) s (VDict d')).
Proof.
  intros Hfuel.
  destruct (merge_into_returns fuel d k v Hfuel) as (d' & Hd' & _).
  exists d'. split; auto. split.
  - intros k0 v0 s Hv0 Hs.
    destruct (String.eqb_spec k0 k) as [->|Hne].
    + destruct (merge_into_slot _ _ _ _ _ Hd') as (v' & Hv' & Hold & _). eauto.
    + rewrite (merge_into_other_keys _ _ _ _ _ _ Hd' Hne). eauto.
  - now apply (merge_into_keeps_paths fuel d k v).
Qed.

(** A leaf under another key than the self key stays where it is while
    its sibling is merged. *)
Example merge_into_keeps_nested_leaf :
  merge_into 2
    [("Wi-Fi", VDict [("(root)", VStr "prefs:root=WIFI");
                      ("Join", VStr "prefs:root=WIFI&path=Join")])]
    "Wi-Fi" (VDict [("(root)", VStr "prefs:root=WLAN")])
  = Some [("Wi-Fi", VDict [("(root)", VList ["prefs:root=WIFI"; "prefs:root=WLAN"]);
                           ("Join", VStr "prefs:root=WIFI&path=Join")])].
Proof. reflexivity. Qed.

(** X4 (merge engine).  After a string or a list of strings is merged, each
    of its strings is reachable in the slot of the key. *)
Theorem merge_into_scalar_reachable (fuel : nat) (d : dict Value) (k : string)
    (v : Value) :
  is_scalar v = true ->
  max_depth d < fuel ->
  exists d' v',
    merge_into fuel d k v = Some d'
    /\ dict_get k d' = Some v'
    /\ forall s, In s (scalar_items v) -> reachable s v'.
Proof.
  intros Hsc Hfuel.
  destruct (merge_into_returns fuel d k v) as (d' & Hd' & _).
  { destruct v; cbn [value_depth]; try discriminate; lia. }
  destruct (merge_into_slot _ _ _ _ _ Hd') as (v' & Hv' & _ & Hnew).
  exists d', v'. repeat split; auto. intros s Hs. apply (Hnew Hsc).
  destruct v; cbn [scalar_items reachable] in *; try discriminate; auto.
  destruct Hs as [Hs|[]]. now symmetry.
Qed.

Lemma merge_into_terminates_witness :
  exists d',
    merge_into 2 [("Wi-Fi", VDict [("(root)", VStr "prefs:root=WIFI")])] "Wi-Fi"
      (VDict [("Join", VStr "prefs:root=WIFI&path=Join")]) = Some d'
    /\ max_depth d' <= 1
    /\ forall fuel', 2 <= fuel' ->
         merge_into fuel' [("Wi-Fi", VDict [("(root)", VStr "prefs:root=WIFI")])]
           "Wi-Fi" (VDict [("Join", VStr "prefs:root=WIFI&path=Join")])
         = Some d'.
Proof.
  apply (merge_into_terminates 2
           [("Wi-Fi", VDict [("(root)", VStr "prefs:root=WIFI")])] "Wi-Fi"
           (VDict [("Join", VStr "prefs:root=WIFI&path=Join")])).
  cbn. lia.
Defined.

Lemma merge_into_keeps_other_keys_witness :
  exists d',
    merge_into 1 [("Wi-Fi", VStr "prefs:root=WIFI")] "General"
      (VStr "prefs:root=General") = Some d'
    /\ dict_get "Wi-Fi" d' = dict_get "Wi-Fi" [("Wi-Fi", VStr "prefs:root=WIFI")].
Proof.
  apply (merge_into_keeps_other_keys 1 [("Wi-Fi", VStr "prefs:root=WIFI")]
           "General" "Wi-Fi" (VStr "prefs:root=General")).
  - cbn. lia.
  - discriminate.
Defined.

Lemma merge_into_keeps_leaves_witness :
  exists d',
    merge_into 2
      [("Wi-Fi", VDict [("(root)", VStr "prefs:root=WIFI");
                        ("Join", VStr "prefs:root=WIFI&path=Join")])]
      "Wi-Fi" (VDict [("Join", VStr "prefs:root=WLAN&path=Join")]) = Some d'
    /\ (forall k0 v0 s,
           dict_get k0
             [("Wi-Fi", VDict [("(root)", VStr "prefs:root=WIFI");
                               ("Join", VStr "prefs:root=WIFI&path=Join")])]
           = Some v0 ->
           reachable s v0 ->
           exists v0', dict_get k0 d' = Some v0' /\ reachable s v0')
    /\ (forall path s,
           leaf_at path s
             (VDict
                [("Wi-Fi", VDict [("(root)", VStr "prefs:root=WIFI");
                                  ("Join", VStr "prefs:root=WIFI&path=Join")])]) ->
           exists n, leaf_at (path ++ repeat ROOT_STR n) s (VDict d')).
Proof.
  apply (merge_into_keeps_leaves 2
           [("Wi-Fi", VDict [("(root)", VStr "prefs:root=WIFI");
                             ("Join", VStr "prefs:root=WIFI&path=Join")])]
           "Wi-Fi" (VDict [("Join", VStr "prefs:root=WLAN&path=Join")])).
  cbn. lia.
Defined.

Lemma merge_into_scalar_reachable_witness :
  exists d' v',
    merge_into 2 [("Wi-Fi", VDict [("(root)", VStr "prefs:root=WIFI")])] "Wi-Fi"
      (VList ["prefs:root=WLAN"; "prefs:root=AIRPORT"]) = Some d'
    /\ dict_get "Wi-Fi" d' = Some v'
    /\ forall s, In s (scalar_items (VList ["prefs:root=WLAN"; "prefs:root=AIRPORT"])) ->
                 reachable s v'.
Proof.
  apply (merge_into_scalar_reachable 2
           [("Wi-Fi", VDict [("(root)", VStr "prefs:root=WIFI")])] "Wi-Fi"
           (VList ["prefs:root=WLAN"; "prefs:root=AIRPORT"])).
  - reflexivity.
  - cbn. lia.
Defined.

(** X5 (merge engine).  When a string or list is merged into a slot that
    holds a different string or list, the slot becomes a list in ascending
    order that holds the strings of both, each as many times as they
    bring it. *)
Theorem merge_into_scalars_sorted (fuel : nat) (d : dict Value) (k : string)
    (existing v : Value) :
  dict_get k d = Some existing ->
  is_scalar existing = true ->
  is_scalar v = true ->
  value_eqb existing v = false ->
  exists m,
    merge_into (S fuel) d k v = Some (dict_set k (VList m) d)
    /\ ascending m
    /\ Permutation m (scalar_items existing ++ scalar_items v).
Proof.
  intros Hget He Hv Hneq.
  rewrite (merge_into_present _ _ _ _ _ Hget Hneq).
  destruct existing as [e|e|e], v as [s|l|dv]; try discriminate;
    cbn [scalar_items]; eexists; (split; [reflexivity|]);
    (split; [apply sort_ascending|]); rewrite sort_perm; auto.
  change ([e] ++ l) with (e :: l). symmetry. apply Permutation_cons_append.
Qed.

Lemma merge_into_scalars_sorted_witness :
  exists m,
    merge_into 1 [("Wi-Fi", VStr "prefs:root=WLAN")] "Wi-Fi"
      (VList ["prefs:root=WIFI"; "prefs:root=AIRPORT"])
    = Some (dict_set "Wi-Fi" (VList m) [("Wi-Fi", VStr "prefs:root=WLAN")])
    /\ ascending m
    /\ Permutation m
         (scalar_items (VStr "prefs:root=WLAN")
          ++ scalar_items (VList ["prefs:root=WIFI"; "prefs:root=AIRPORT"])).
Proof.
  apply (merge_into_scalars_sorted 0 [("Wi-Fi", VStr "prefs:root=WLAN")] "Wi-Fi"
           (VStr "prefs:root=WLAN") (VList ["prefs:root=WIFI"; "prefs:root=AIRPORT"]));
    reflexivity.
Defined.

Section MergeOrder.

Lemma dict_set_set {V} (k : string) (v v' : V) (d : dict V) :
  dict_set k v (dict_set k v' d) = dict_set k v d.
Proof.
  induction d as [|[k0 v0] d IH]; cbn [dict_set].
  - now rewrite String.eqb_refl.
  - destruct (String.eqb k k0) eqn:E; cbn [dict_set]; rewrite E; auto.
    now rewrite IH.
Qed.

(** Strings merged one after the other into a slot that holds a list. *)
Lemma merge_all_into_list (fuel : nat) (k : string) (xs : list string) :
  forall (c : dict Value) (m : list string),
    dict_get k c = Some (VList m) ->
    ascending m ->
    merge_all (S fuel) c k (map VStr xs)
    = Some (dict_set k (VList (sort (m ++ xs))) c).
Proof.
  induction xs as [|x xs IH]; intros c m Hget Hm; cbn [map merge_all].
  - rewrite app_nil_r.
    rewrite (ascending_unique (sort m) m (sort_ascending m) Hm (sort_perm m)).
    now rewrite (dict_set_get_id _ _ _ Hget).
  - rewrite (merge_into_present fuel c k (VList m) (VStr x) Hget eq_refl).
    rewrite (IH _ (sort (m ++ [x]))).
    + rewrite dict_set_set. do 3 f_equal. apply sort_permutation.
      rewrite sort_perm, <- app_assoc. reflexivity.
    + apply dict_get_set_same.
    + apply sort_ascending.
Qed.

(** Distinct strings merged into a key that is absent. *)
Lemma merge_all_fresh (fuel : nat) (c : dict Value) (k : string)
    (leaves : list string) :
  dict_get k c = None ->
  NoDup leaves ->
  merge_all (S fuel) c k (map VStr leaves)
  = Some (match leaves with
          | [] => c
          | [a] => dict_set k (VStr a) c
          | _ => dict_set k (VList (sort leaves)) c
          end).
Proof.
  intros Hget Hnd. destruct leaves as [|a [|b rest]]; cbn [map merge_all].
  - reflexivity.
  - now rewrite merge_into_absent.
  - rewrite merge_into_absent by assumption.
    assert (Hab : value_eqb (VStr a) (VStr b) = false).
    { cbn [value_eqb]. apply String.eqb_neq. intros ->.
      inversion Hnd as [|? ? Hnotin _]. apply Hnotin. now left. }
    rewrite (merge_into_present _ _ _ _ _ (dict_get_set_same _ _ _) Hab).
    rewrite dict_set_set.
    rewrite (merge_all_into_list fuel k rest _ (sort [a; b])).
    + rewrite dict_set_set. do 3 f_equal. apply sort_permutation.
      change (a :: b :: rest) with ([a; b] ++ rest).
      apply Permutation_app_tail, sort_perm.
    + apply dict_get_set_same.
    + apply sort_ascending.
Qed.

End MergeOrder.

(** X6 (merge engine).  The slot does not depend on the order of
    insertion: distinct strings merged into a key that is absent give the
    same dictionary in whatever order they come. *)
Theorem merge_all_order_independent (fuel : nat) (c : dict Value) (k : string)
    (leaves leaves' : list string) :
  dict_get k c = None ->
  NoDup leaves ->
  Permutation leaves leaves' ->
  merge_all (S fuel) c k (map VStr leaves) = merge_all (S fuel) c k (map VStr leaves')
  /\ exists c', merge_all (S fuel) c k (map VStr leaves) = Some c'.
Proof.
  intros Hget Hnd Hperm.
  assert (Hnd' : NoDup leaves') by (eapply Permutation_NoDup; eauto).
  rewrite !merge_all_fresh by assumption. split; [|eauto].
  f_equal.
  destruct leaves as [|a [|b rest]].
  - apply Permutation_nil in Hperm. now subst.
  - apply Permutation_length_1_inv in Hperm. now subst.
  - pose proof (Permutation_length Hperm) as Hlen.
    destruct leaves' as [|a' [|b' rest']]; try discriminate.
    now rewrite (sort_permutation _ _ Hperm).
Qed.

Lemma merge_all_order_independent_witness :
  merge_all 1 [] "Wi-Fi" (map VStr ["prefs:root=C"; "prefs:root=A"; "prefs:root=B"])
  = merge_all 1 [] "Wi-Fi" (map VStr ["prefs:root=B"; "prefs:root=C"; "prefs:root=A"])
  /\ exists c',
       merge_all 1 [] "Wi-Fi" (map VStr ["prefs:root=C"; "prefs:root=A"; "prefs:root=B"])
       = Some c'.
Proof.
  apply (merge_all_order_independent 0 [] "Wi-Fi"
           ["prefs:root=C"; "prefs:root=A"; "prefs:root=B"]
           ["prefs:root=B"; "prefs:root=C"; "prefs:root=A"]).
  - reflexivity.
  - repeat constructor; cbn; intuition discriminate.
  - apply Permutation_sym, Permutation_cons_append with (l := ["prefs:root=C"; "prefs:root=A"]).
Defined.

(* ================================================================== *)
(** * More on the URL tree *)
(* ================================================================== *)

Section AddUrlFacts.

Lemma subtree_empty_children (segments : list string) :
  match subtree empty_tree segments with
  | Some n => urls n
  | None => []
  end = [].
Proof. destruct segments; reflexivity. Qed.

(** The node [add_url_from] ends on: it is owned by the record and keeps
    the children the node had, if it was there. *)
Lemma add_url_from_subtree (record : RawSettingsURL) :
  forall (segments : list string) (t : URLTree),
    subtree (add_url_from t segments record) segments
    = Some (Node (Some record)
              (match subtree t segments with
               | Some n => urls n
               | None => []
               end)).
Proof.
  induction segments as [|s rest IH]; intros t.
  - reflexivity.
  - cbn [add_url_from subtree urls]. rewrite dict_get_set_same, IH.
    destruct (dict_get s (urls t)); [reflexivity|].
    now rewrite subtree_empty_children.
Qed.

(** Every other node stays where it is, with its owner. *)
Lemma add_url_from_others (record : RawSettingsURL) :
  forall (segments : list string) (t : URLTree) (p : list string) (n : URLTree),
    p <> segments ->
    subtree t p = Some n ->
    exists n',
      subtree (add_url_from t segments record) p = Some n' /\ root n' = root n.
Proof.
  induction segments as [|s rest IH]; intros t p n Hne Hsub.
  - destruct p as [|s' p']; [congruence|].
    exists n. split; auto.
  - destruct p as [|s' p'].
    + inversion Hsub; subst n. eexists. split; reflexivity.
    + cbn [add_url_from subtree urls] in *.
      destruct (String.eqb_spec s s') as [<-|Hs].
      * rewrite dict_get_set_same.
        destruct (dict_get s (urls t)) as [c|]; [|discriminate].
        apply IH; auto. congruence.
      * rewrite dict_get_set_other by assumption.
        destruct (dict_get s' (urls t)); [|discriminate]. eauto.
Qed.

End AddUrlFacts.

(** X7 (tree).  Insert, then look up: when the URL of a record parses,
    [add_url] returns a tree in which the node at the segments of the URL
    is owned by the record, whatever record owned it before, and has the
    children it had. *)
Theorem add_url_then_subtree (t : URLTree) (record : RawSettingsURL)
    (segments : list string) :
  get_path_segments (url record) = Ok segments ->
  exists t',
    add_url t record = Ok t'
    /\ subtree t' segments
       = Some (Node (Some record)
                 (match subtree t segments with
                  | Some n => urls n
                  | None => []
                  end)).
Proof.
  intros Hseg. unfold add_url. rewrite Hseg. cbn [bind].
  eexists. split; [reflexivity|]. apply add_url_from_subtree.
Qed.

Lemma add_url_then_subtree_witness :
  exists t',
    add_url tree_with_gap (sample_record "prefs:root=A") = Ok t'
    /\ subtree t' ["prefs"; "A"]
       = Some (Node (Some (sample_record "prefs:root=A"))
                 (match subtree tree_with_gap ["prefs"; "A"] with
                  | Some n => urls n
                  | None => []
                  end)).
Proof.
  apply (add_url_then_subtree tree_with_gap (sample_record "prefs:root=A")
           ["prefs"; "A"]).
  reflexivity.
Defined.

(** X8 (tree).  [add_url] never removes a node and changes the owner of
    one node only: a node reached by other segments than those of the URL
    is still there afterwards, with the owner it had. *)
Theorem add_url_keeps_other_nodes (t : URLTree) (record : RawSettingsURL)
    (segments p : list string) (n : URLTree) :
  get_path_segments (url record) = Ok segments ->
  p <> segments ->
  subtree t p = Some n ->
  exists t' n',
    add_url t record = Ok t'
    /\ subtree t' p = Some n'
    /\ root n' = root n.
Proof.
  intros Hseg Hne Hsub. unfold add_url. rewrite Hseg. cbn [bind].
  destruct (add_url_from_others record segments t p n Hne Hsub) as (n' & Hn' & Hr).
  eauto.
Qed.

Lemma add_url_keeps_other_nodes_witness :
  exists t' n',
    add_url tree_with_gap (sample_record "prefs:root=A") = Ok t'
    /\ subtree t' ["prefs"; "A"; "x"] = Some n'
    /\ root n' = root (Node (Some (sample_record "prefs:root=A&path=x")) []).
Proof.
  apply (add_url_keeps_other_nodes tree_with_gap (sample_record "prefs:root=A")
           ["prefs"; "A"] ["prefs"; "A"; "x"]
           (Node (Some (sample_record "prefs:root=A&path=x")) [])).
  - reflexivity.
  - discriminate.
  - reflexivity.
Defined.

Section AddAliasInvariants.

(** [add_alias] on the node that owns the URL, seen from the root. *)
Lemma add_alias_at_owner (t A A' : URLTree) (u alias : string)
    (recursive : bool) (g g' : Globals) (segments p : list string) :
  (forall psr, add_alias A u alias recursive psr g = Ok (A', g')) ->
  get_path_segments u = Ok segments ->
  owner_path u t segments = Some p ->
  subtree t p = Some A ->
  exists t',
    add_alias t u alias recursive None g = Ok (t', g')
    /\ subtree t' p = Some A'.
Proof.
  intros HA Hu Hp Hsub.
  destruct (add_alias_walk_to_owner u alias recursive _ _ g g' HA segments t p Hp Hsub)
    as (t' & Ht' & Hsub').
  exists t'. split; auto.
  destruct t as [r cs]. destruct (is_root_url r u) eqn:Hr.
  - destruct segments; cbn [owner_path root] in Hp; rewrite Hr in Hp;
      inversion Hp; subst p; cbn [subtree] in Hsub; inversion Hsub; subst;
      rewrite HA in Ht'; rewrite HA; exact Ht'.
  - rewrite add_alias_not_owner by assumption. rewrite Hu. cbn [bind].
    rewrite add_alias_not_owner in Ht' by assumption. exact Ht'.
Qed.

Lemma strip_add_alias_record (r : RawSettingsURL) (alias : string) (g : Globals) :
  without_aliases (fst (RawSettingsURL_add_alias r alias g)) = without_aliases r
  /\ url_corrections (snd (RawSettingsURL_add_alias r alias g)) = url_corrections g
  /\ manifests (snd (RawSettingsURL_add_alias r alias g)) = manifests g.
Proof. repeat split. Qed.

(** Whatever [add_alias] does, it does to alias lists (and to the two
    tables of the globals that [RawSettingsURL.add_alias] writes). *)
Lemma add_alias_strip :
  forall (t : URLTree) (u alias : string) (recursive : bool)
         (psr : option (list string)) (g : Globals) (t' : URLTree) (g' : Globals),
    add_alias t u alias recursive psr g = Ok (t', g') ->
    strip_aliases t' = strip_aliases t
    /\ url_corrections g' = url_corrections g
    /\ manifests g' = manifests g.
Proof.
  induction t as [r cs IH] using URLTree_children_ind.
  intros u alias recursive psr g t' g' Hcall.
  assert (Hwalk :
            forall psr0 g0 cs' g1 next,
              if_in (fun child g =>
                       add_alias child u alias recursive (Some psr0) g)
                next cs g0 = Ok (cs', g1) ->
              map (fun kv => (fst kv, strip_aliases (snd kv))) cs'
              = map (fun kv => (fst kv, strip_aliases (snd kv))) cs
              /\ url_corrections g1 = url_corrections g0
              /\ manifests g1 = manifests g0).
  { intros psr0 g0 cs' g1 next. clear Hcall. revert cs' g1.
    induction IH as [|[k c] cs Hc _ IHcs]; intros cs' g1; cbn [if_in].
    - intros H. inversion H. auto.
    - destruct (String.eqb next k).
      + destruct (add_alias c u alias recursive (Some psr0) g0)
          as [[c' g2]|e] eqn:Hc'; cbn [bind]; [|discriminate].
        intros H. inversion H; subst.
        destruct (Hc _ _ _ _ _ _ _ Hc') as (Hs & Hu & Hm).
        cbn [map fst snd]. rewrite Hs. auto.
      + destruct (if_in _ next cs g0) as [[cs2 g2]|e] eqn:Hrest; cbn [bind];
          [|discriminate].
        intros H. inversion H; subst.
        destruct (IHcs _ _ eq_refl) as (Hs & Hu & Hm).
        cbn [map fst snd]. rewrite Hs. auto. }
  assert (Hwalk' :
            (path_segments_rev <-
               match psr with
               | None => segments <- get_path_segments u ;; Ok (rev segments)
               | Some l => Ok l
               end ;;
             '(next_segment, path_segments_rev) <- pop path_segments_rev ;;
             '(urls', g) <-
               if_in
                 (fun child g =>
                    add_alias child u alias recursive (Some path_segments_rev) g)
                 next_segment cs g ;;
             Ok (Node r urls', g)) = Ok (t', g') ->
            strip_aliases t' = strip_aliases (Node r cs)
            /\ url_corrections g' = url_corrections g
            /\ manifests g' = manifests g).
  { destruct (match psr with
              | None => segments <- get_path_segments u ;; Ok (rev segments)
              | Some l => Ok l
              end) as [l|e]; cbn [bind]; [|discriminate].
    destruct (pop l) as [[next rest]|e]; cbn [bind]; [|discriminate].
    destruct (if_in _ next cs g) as [[cs' g1]|e] eqn:Hin; cbn [bind];
      [|discriminate].
    intros H. inversion H; subst.
    destruct (Hwalk _ _ _ _ _ Hin) as (Hs & Hu & Hm).
    cbn [strip_aliases]. rewrite Hs. auto. }
  destruct (is_root_url r u) eqn:Hr.
  2:{ rewrite add_alias_not_owner in Hcall by assumption. auto. }
  destruct r as [r|]; [|discriminate].
  rewrite add_alias_owner in Hcall by assumption.
  pose proof (strip_add_alias_record r alias g) as (Hr1 & Hr2 & Hr3).
  destruct (RawSettingsURL_add_alias r alias g) as [r' g1]. cbn [fst snd] in *.
  destruct recursive.
  2:{ inversion Hcall; subst. cbn [strip_aliases option_map]. rewrite Hr1. auto. }
  destruct (get_path_segments u) as [segs|e]; cbn [bind] in Hcall; [|discriminate].
  destruct (get_path_segments alias) as [asegs|e]; cbn [bind] in Hcall;
    [|discriminate].
  assert (Hloop :
            forall g0 cs' g2,
              for_items
                (fun url_key child_tree g =>
                   child_url <- build_url (segs ++ [url_key]) ;;
                   child_alias <- build_url (asegs ++ [url_key]) ;;
                   add_alias child_tree child_url child_alias true None g)
                cs g0 = Ok (cs', g2) ->
              map (fun kv => (fst kv, strip_aliases (snd kv))) cs'
              = map (fun kv => (fst kv, strip_aliases (snd kv))) cs
              /\ url_corrections g2 = url_corrections g0
              /\ manifests g2 = manifests g0).
  { clear Hcall Hwalk Hwalk'.
    induction IH as [|[k c] cs Hc _ IHcs]; intros g0 cs' g2; cbn [for_items].
    - intros H. inversion H. auto.
    - destruct (build_url (segs ++ [k])) as [cu|e]; cbn [bind]; [|discriminate].
      destruct (build_url (asegs ++ [k])) as [ca|e]; cbn [bind]; [|discriminate].
      destruct (add_alias c cu ca true None g0) as [[c' g3]|e] eqn:Hc';
        cbn [bind]; [|discriminate].
      destruct (for_items _ cs g3) as [[cs2 g4]|e] eqn:Hrest; cbn [bind];
        [|discriminate].
      intros H. inversion H; subst.
      destruct (Hc _ _ _ _ _ _ _ Hc') as (Hs & Hu & Hm).
      destruct (IHcs _ _ _ Hrest) as (Hs' & Hu' & Hm').
      cbn [map fst snd]. rewrite Hs, Hs'. split; auto. split; congruence. }
  destruct (for_items _ cs g1) as [[cs' g2]|e] eqn:Hitems; cbn [bind] in Hcall;
    [|discriminate].
  inversion Hcall; subst.
  destruct (Hloop _ _ _ Hitems) as (Hs & Hu & Hm).
  cbn [strip_aliases option_map]. rewrite Hs, Hr1. split; auto. split; congruence.
Qed.

End AddAliasInvariants.

(** X9 (tree).  When [add_alias] returns, recursive or not, the tree it
    leaves differs from the tree it got in alias lists only: the nodes,
    their keys and order, and the URL, label id, manifest and labels of
    every record are the same; and the corrections and the manifests of
    the globals are untouched. *)
Theorem add_alias_changes_aliases_only (t : URLTree) (u alias : string)
    (recursive : bool) (g : Globals) (t' : URLTree) (g' : Globals) :
  add_alias t u alias recursive None g = Ok (t', g') ->
  strip_aliases t' = strip_aliases t
  /\ url_corrections g' = url_corrections g
  /\ manifests g' = manifests g.
Proof. apply add_alias_strip. Qed.

Lemma add_alias_changes_aliases_only_witness :
  exists t' g',
    add_alias tree_with_child "prefs:root=A" "prefs:root=B" true None no_globals
    = Ok (t', g')
    /\ strip_aliases t' = strip_aliases tree_with_child
    /\ url_corrections g' = url_corrections no_globals
    /\ manifests g' = manifests no_globals.
Proof.
  do 2 eexists. split; [reflexivity|].
  apply (add_alias_changes_aliases_only tree_with_child "prefs:root=A"
           "prefs:root=B" true no_globals).
  reflexivity.
Defined.

(** X10 (tree).  A plain alias.  When the walk of [add_alias] for [u]
    reaches a node owned by a record whose URL is [u], the call without
    recursion returns; the record of that node gets the alias at the end
    of its alias list and the node keeps its children; the alias is
    entered in [alias_localizations] with the labels of the record; and
    the pending overrides for the URL of the alias are dropped, the other
    ones kept. *)
Theorem add_alias_plain (t : URLTree) (u alias : string) (g : Globals)
    (segments p : list string) (r : RawSettingsURL) (cs : dict URLTree) :
  get_path_segments u = Ok segments ->
  owner_path u t segments = Some p ->
  subtree t p = Some (Node (Some r) cs) ->
  exists t' g' r',
    add_alias t u alias false None g = Ok (t', g')
    /\ subtree t' p = Some (Node (Some r') cs)
    /\ without_aliases r' = without_aliases r
    /\ alias_list r' = alias_list r ++ [alias]
    /\ dict_get alias (alias_localizations g') = Some (localized_labels r)
    /\ forall o, In o (urls_to_override g') <->
                 In o (urls_to_override g) /\ ov_url o <> alias.
Proof.
  intros Hu Hp Hsub.
  destruct (owner_path_owner _ _ _ _ Hp) as (n & Hn & Hr).
  rewrite Hsub in Hn. inversion Hn; subst n. cbn [root] in Hr.
  destruct (RawSettingsURL_add_alias r alias g) as [r' g'] eqn:Hadd.
  destruct (add_alias_at_owner t (Node (Some r) cs) (Node (Some r') cs)
              u alias false g g' segments p) as (t' & Ht' & Hsub'); auto.
  { intros psr. rewrite add_alias_owner by assumption. now rewrite Hadd. }
  exists t', g', r'. split; auto. split; auto.
  unfold RawSettingsURL_add_alias in Hadd. inversion Hadd; subst r' g'.
  cbn [alias_localizations urls_to_override]. repeat split.
  - unfold alias_list. cbn [aliases]. now destruct (aliases r).
  - apply dict_get_set_same.
  - apply filter_In in H. tauto.
  - apply filter_In in H. destruct H as [_ H].
    apply negb_true_iff, String.eqb_neq in H. exact H.
  - intros [Hin Hne]. apply filter_In. split; auto.
    now apply negb_true_iff, String.eqb_neq.
Qed.

Lemma add_alias_plain_witness :
  exists t' g' r',
    add_alias tree_with_child "prefs:root=A&path=x" "prefs:root=X" false None
      no_globals = Ok (t', g')
    /\ subtree t' ["prefs"; "A"; "x"] = Some (Node (Some r') [])
    /\ without_aliases r' = without_aliases (sample_record "prefs:root=A&path=x")
    /\ alias_list r' = alias_list (sample_record "prefs:root=A&path=x") ++ ["prefs:root=X"]
    /\ dict_get "prefs:root=X" (alias_localizations g')
       = Some (localized_labels (sample_record "prefs:root=A&path=x"))
    /\ forall o, In o (urls_to_override g') <->
                 In o (urls_to_override no_globals) /\ ov_url o <> "prefs:root=X".
Proof.
  apply (add_alias_plain tree_with_child "prefs:root=A&path=x" "prefs:root=X"
           no_globals ["prefs"; "A"; "x"] ["prefs"; "A"; "x"]
           (sample_record "prefs:root=A&path=x") []);
    reflexivity.
Defined.

Section FindMissingMore.

Lemma report_yields (entries : list (list string * URLTree))
    (pair : string * URLTree) :
  In pair (fst (report entries)) ->
  exists entry,
    In entry entries
    /\ build_url (fst entry) = Ok (fst pair)
    /\ snd entry = snd pair.
Proof.
  induction entries as [|entry entries IH]; cbn [report]; [intros []|].
  destruct (build_url (fst entry)) as [u|e] eqn:Hu; [|intros []].
  destruct (report entries) as [items stop]. cbn [gen_then fst snd app].
  intros [<-|Hin].
  - exists entry. cbn. auto.
  - destruct (IH Hin) as (entry' & Hin' & H). exists entry'. split; auto.
    now right.
Qed.

Lemma report_stops (entries : list (list string * URLTree)) (e : exn) :
  snd (report entries) = Some e ->
  exists entry, In entry entries /\ build_url (fst entry) = Raise e.
Proof.
  induction entries as [|entry entries IH]; cbn [report]; [discriminate|].
  destruct (build_url (fst entry)) as [u|e'] eqn:Hu.
  - destruct (report entries) as [items stop]. cbn [gen_then fst snd].
    intros H. destruct (IH H) as (entry' & Hin & H'). exists entry'. split; auto.
    now right.
  - cbn [snd]. intros H. inversion H; subst. exists entry. split; auto. now left.
Qed.

Lemma report_runs (entries : list (list string * URLTree)) :
  snd (report entries) = None ->
  forall entry, In entry entries -> exists u, build_url (fst entry) = Ok u.
Proof.
  induction entries as [|entry entries IH]; cbn [report]; [intros _ ? []|].
  destruct (build_url (fst entry)) as [u|e'] eqn:Hu; [|discriminate].
  destruct (report entries) as [items stop]. cbn [gen_then fst snd].
  intros H entry' [<-|Hin]; eauto.
Qed.

(** The one shape on which [build_url] raises. *)
Lemma build_url_scheme_fragment (url_scheme frag : string) :
  String.eqb url_scheme "settings-navigation" = false ->
  startswith frag "#" = true ->
  build_url [url_scheme; frag] = Raise IndexError.
Proof.
  intros Hsn Hfrag. unfold build_url.
  cbn [List.length Nat.ltb Nat.leb last_segment List.last].
  now rewrite Hfrag, Hsn.
Qed.

End FindMissingMore.

(** X11 (tree).  Up to the point where it stops, [find_missing()] yields
    gaps only: the node of every pair it yields is a node of the tree
    without an owning record, below the schemes, and the URL of the pair
    is [build_url] of the segments that lead to it.  An owned node, the
    root and the nodes of the schemes are never yielded. *)
Theorem find_missing_yields_gaps_only (t : URLTree) (pair : string * URLTree) :
  In pair (fst (find_missing t [])) ->
  exists segments,
    In (segments, snd pair) (nodes t [])
    /\ root (snd pair) = None
    /\ 1 < List.length segments
    /\ build_url segments = Ok (fst pair).
Proof.
  rewrite find_missing_report. intros Hin.
  destruct (report_yields _ _ Hin) as ([segments n] & Hentry & Hu & Hn).
  cbn [fst snd] in *. subst n. exists segments.
  apply filter_In in Hentry. destruct Hentry as [Hnode Hmiss].
  unfold is_missing in Hmiss. cbn [fst snd] in Hmiss.
  destruct (root (snd pair)); [discriminate|].
  apply Nat.ltb_lt in Hmiss. auto.
Qed.

Lemma find_missing_yields_gaps_only_witness :
  exists segments,
    In (segments,
        Node None [("x", Node (Some (sample_record "prefs:root=A&path=x")) [])])
      (nodes tree_with_gap [])
    /\ root (Node None [("x", Node (Some (sample_record "prefs:root=A&path=x")) [])])
       = None
    /\ 1 < List.length segments
    /\ build_url segments = Ok "prefs:root=A".
Proof.
  apply (find_missing_yields_gaps_only tree_with_gap
           ("prefs:root=A",
            Node None [("x", Node (Some (sample_record "prefs:root=A&path=x")) [])])).
  cbn. now left.
Defined.

(** X12 (tree).  [find_missing()] stops by raising exactly when the tree has
    a node without an owning record directly under a scheme other than
    [settings-navigation] and keyed by a segment that starts with ["#"];
    the exception is then [IndexError].  On every other tree it runs to
    its end. *)
Theorem find_missing_raises_iff (t : URLTree) :
  (forall e, snd (find_missing t []) = Some e -> e = IndexError)
  /\ (snd (find_missing t []) = Some IndexError <->
      exists url_scheme frag n,
        In ([url_scheme; frag], n) (nodes t [])
        /\ root n = None
        /\ String.eqb url_scheme "settings-navigation" = false
        /\ startswith frag "#" = true).
Proof.
  rewrite find_missing_report.
  assert (Hstop :
            forall e, snd (report (filter is_missing (nodes t []))) = Some e ->
                      e = IndexError
                      /\ exists url_scheme frag n,
                           In ([url_scheme; frag], n) (nodes t [])
                           /\ root n = None
                           /\ String.eqb url_scheme "settings-navigation" = false
                           /\ startswith frag "#" = true).
  { intros e He. destruct (report_stops _ _ He) as ([segments n] & Hin & Hraise).
    cbn [fst] in Hraise.
    destruct (build_url_raises _ _ Hraise) as (s & f & -> & Hs & Hf & ->).
    split; auto. exists s, f, n.
    apply filter_In in Hin. destruct Hin as [Hin Hmiss].
    unfold is_missing in Hmiss. cbn [fst snd] in Hmiss.
    destruct (root n) eqn:Hr; [discriminate|]. auto. }
  split; [intros e He; apply (Hstop e He)|].
  split; [intros H; apply (Hstop _ H)|].
  intros (s & f & n & Hin & Hr & Hs & Hf).
  destruct (snd (report (filter is_missing (nodes t [])))) as [e|] eqn:Hrep.
  - destruct (Hstop e eq_refl) as [-> _]. reflexivity.
  - destruct (report_runs _ Hrep ([s; f], n)) as (u & Hu).
    + apply filter_In. split; auto. unfold is_missing. cbn [fst snd].
      now rewrite Hr.
    + cbn [fst] in Hu. rewrite build_url_scheme_fragment in Hu by assumption.
      discriminate.
Qed.

Lemma find_missing_raises_iff_witness :
  snd (find_missing tree_with_first_level_gaps []) = Some IndexError.
Proof.
  apply (proj2 (find_missing_raises_iff tree_with_first_level_gaps)).
  exists "prefs", "#x",
    (Node None [("y", Node (Some (sample_record "prefs:root=%23x&path=y")) [])]).
  repeat split. cbn. right. right. right. right. now left.
Defined.

(** ** More on root flattening *)

(** X13 (flattening).  The flattening step is idempotent, and it is the
    identity on a tree without the scheme [prefs] or without [ROOT] under
    it. *)
Theorem flatten_root_idempotent (tree : URLTree) :
  flatten_root (flatten_root tree) = flatten_root tree
  /\ (dict_get "prefs" (urls tree) = None -> flatten_root tree = tree)
  /\ (forall prefs_scheme,
         dict_get "prefs" (urls tree) = Some prefs_scheme ->
         dict_get "ROOT" (urls prefs_scheme) = None ->
         flatten_root tree = tree).
Proof.
  split; [|split].
  - destruct (dict_get "prefs" (urls tree)) as [p|] eqn:Hp.
    + destruct (dict_get "ROOT" (urls p)) as [rr|] eqn:Hrr.
      * assert (Hflat : flatten_root tree
                        = Node (root tree)
                            (dict_set "prefs"
                               (Node (root p)
                                  (dict_del "ROOT" (dict_update (urls p) (urls rr))))
                               (urls tree)))
          by (unfold flatten_root; now rewrite Hp, Hrr).
        rewrite Hflat. unfold flatten_root. cbn [urls].
        rewrite dict_get_set_same. cbn [urls].
        now rewrite dict_get_del_same.
      * assert (Hflat : flatten_root tree = tree)
          by (unfold flatten_root; now rewrite Hp, Hrr).
        now rewrite !Hflat.
    + assert (Hflat : flatten_root tree = tree)
        by (unfold flatten_root; now rewrite Hp).
      now rewrite !Hflat.
  - intros H. unfold flatten_root. now rewrite H.
  - intros p Hp Hrr. unfold flatten_root. now rewrite Hp, Hrr.
Qed.

Lemma flatten_root_idempotent_witness :
  flatten_root tree_with_gap = tree_with_gap.
Proof.
  apply (proj2 (proj2 (flatten_root_idempotent tree_with_gap))
           (Node None
              [("A", Node None
                       [("x", Node (Some (sample_record "prefs:root=A&path=x")) [])])]));
    reflexivity.
Defined.

(** X14 (flattening).  What the flattening step keeps: the owner of the
    root, every scheme other than [prefs], and every child of [prefs]
    whose key is neither ["ROOT"] nor the key of a child of [ROOT]. *)
Theorem flatten_root_keeps (tree prefs_scheme root_root : URLTree) (key : string) :
  dict_get "prefs" (urls tree) = Some prefs_scheme ->
  dict_get "ROOT" (urls prefs_scheme) = Some root_root ->
  root (flatten_root tree) = root tree
  /\ (key <> "prefs" ->
      dict_get key (urls (flatten_root tree)) = dict_get key (urls tree))
  /\ (key <> "ROOT" -> ~ In key (keys (urls root_root)) ->
      subtree (flatten_root tree) ["prefs"; key] = subtree tree ["prefs"; key]).
Proof.
  intros Hp Hrr. unfold flatten_root. rewrite Hp, Hrr. split; [reflexivity|].
  split.
  - intros Hne. cbn [urls]. apply dict_get_set_other. congruence.
  - intros Hne Hnotin. cbn [subtree urls]. rewrite dict_get_set_same, Hp.
    cbn [urls]. rewrite dict_get_del_other by assumption.
    now rewrite dict_get_update_other by assumption.
Qed.

Lemma flatten_root_keeps_witness :
  let tree :=
    Node None
      [("prefs", Node None [("WIFI", empty_tree);
                            ("ROOT", Node None [("AIRPLANE_MODE", empty_tree)])]);
       ("bridge", empty_tree)] in
  root (flatten_root tree) = root tree
  /\ ("WIFI" <> "prefs" ->
      dict_get "WIFI" (urls (flatten_root tree)) = dict_get "WIFI" (urls tree))
  /\ ("WIFI" <> "ROOT" -> ~ In "WIFI" (keys (urls (Node None [("AIRPLANE_MODE", empty_tree)]))) ->
      subtree (flatten_root tree) ["prefs"; "WIFI"] = subtree tree ["prefs"; "WIFI"]).
Proof.
  apply (flatten_root_keeps
           (Node None
              [("prefs", Node None [("WIFI", empty_tree);
                                    ("ROOT", Node None [("AIRPLANE_MODE", empty_tree)])]);
               ("bridge", empty_tree)])
           (Node None [("WIFI", empty_tree);
                       ("ROOT", Node None [("AIRPLANE_MODE", empty_tree)])])
           (Node None [("AIRPLANE_MODE", empty_tree)]) "WIFI");
    reflexivity.
Defined.

(* ================================================================== *)
(** * More on labels and overrides *)
(* ================================================================== *)

Section LabelsMore.

Lemma assign_labels_fields (strings : dict (dict LocalizationString)) :
  forall record record',
    assign_labels strings record = Ok record' ->
    url record' = url record
    /\ label_id record' = label_id record
    /\ manifest_path record' = manifest_path record
    /\ aliases record' = aliases record.
Proof.
  induction strings as [|[loc strs] strings IH]; intros record record';
    cbn [assign_labels].
  - intros H. inversion H. auto.
  - destruct (dict_get (label_id record) strs) as [e|]; [|apply IH].
    destruct (Nat.eqb (loc_len e) 0); [discriminate|].
    intros H. destruct (IH _ _ H) as (H1 & H2 & H3 & H4). auto.
Qed.

Lemma assign_labels_raises (strings : dict (dict LocalizationString)) :
  forall record,
    (exists e, assign_labels strings record = Raise e) <->
    exists locale strs entry,
      In (locale, strs) strings
      /\ dict_get (label_id record) strs = Some entry
      /\ loc_len entry = 0.
Proof.
  induction strings as [|[loc strs] strings IH]; intros record;
    cbn [assign_labels].
  - split; [intros (e & H); discriminate|intros (? & ? & ? & [] & _)].
  - destruct (dict_get (label_id record) strs) as [e|] eqn:Hget.
    + destruct (Nat.eqb (loc_len e) 0) eqn:Hlen.
      * apply Nat.eqb_eq in Hlen. split; [|eauto].
        intros _. exists loc, strs, e. repeat split; auto. now left.
      * apply Nat.eqb_neq in Hlen. rewrite IH. cbn [label_id].
        split; intros (l & s & en & Hin & Hg & Hz).
        -- exists l, s, en. repeat split; auto. now right.
        -- destruct Hin as [Heq|Hin]; [|eauto 6].
           inversion Heq; subst. congruence.
    + rewrite IH. split; intros (l & s & en & Hin & Hg & Hz).
      * exists l, s, en. repeat split; auto. now right.
      * destruct Hin as [Heq|Hin]; [|eauto 6].
        inversion Heq; subst. congruence.
Qed.

(** The label a locale ends with. *)
Lemma assign_labels_lookup (strings : dict (dict LocalizationString)) :
  forall record record' locale,
    assign_labels strings record = Ok record' ->
    NoDup (keys strings) ->
    dict_get locale (localized_labels record')
    = match dict_get locale strings with
      | Some strs =>
          match dict_get (label_id record) strs with
          | Some entry => Some entry
          | None => dict_get locale (localized_labels record)
          end
      | None => dict_get locale (localized_labels record)
      end.
Proof.
  induction strings as [|[loc strs] strings IH]; intros record record' locale;
    cbn [assign_labels dict_get keys map fst].
  - intros H _. now inversion H.
  - intros H Hnd. inversion Hnd as [|? ? Hnotin Hnd']; subst.
    assert (Hfresh : String.eqb locale loc = true -> dict_get locale strings = None).
    { intros E. apply String.eqb_eq in E. subst loc.
      destruct (dict_get locale strings) eqn:Hg; auto.
      apply dict_get_keys in Hg. contradiction. }
    destruct (dict_get (label_id record) strs) as [e|] eqn:Hget.
    + destruct (Nat.eqb (loc_len e) 0); [discriminate|].
      rewrite (IH _ _ locale H Hnd'). cbn [label_id localized_labels].
      destruct (String.eqb locale loc) eqn:E; rewrite ?Hget.
      * rewrite (Hfresh eq_refl). apply String.eqb_eq in E. subst loc.
        apply dict_get_set_same.
      * assert (loc <> locale) by (apply String.eqb_neq in E; congruence).
        destruct (dict_get locale strings) as [strs'|];
          [destruct (dict_get (label_id record) strs')|];
          auto using dict_get_set_other.
    + rewrite (IH _ _ locale H Hnd').
      destruct (String.eqb locale loc) eqn:E; rewrite ?Hget; auto.
      now rewrite (Hfresh eq_refl).
Qed.

End LabelsMore.

(** X15 (labels).  The label assignment of [Bundle.load] raises exactly
    when, in some locale, the entry for the label id of the URL has length
    zero (the empty string or an empty dictionary); and when it returns,
    no entry it has stored has length zero. *)
Theorem assign_labels_raises_iff (strings : dict (dict LocalizationString))
    (record : RawSettingsURL) :
  ((exists e, assign_labels strings record = Raise e) <->
   exists locale strs entry,
     In (locale, strs) strings
     /\ dict_get (label_id record) strs = Some entry
     /\ loc_len entry = 0)
  /\ forall record' locale entry,
       assign_labels strings record = Ok record' ->
       In (locale, entry) (localized_labels record') ->
       In (locale, entry) (localized_labels record) \/ loc_len entry <> 0.
Proof.
  split; [apply assign_labels_raises|].
  intros record' locale entry H. now apply (assign_labels_not_empty strings record).
Qed.

Lemma assign_labels_raises_iff_witness :
  exists e,
    assign_labels [("en", [("WIFI_LABEL", LocStr "Wi-Fi")]);
                   ("fr", [("WIFI_LABEL", LocStr "")])]
      (mkRawSettingsURL "prefs:root=WIFI" "WIFI_LABEL" "" [] None) = Raise e.
Proof.
  apply (proj2 (proj1 (assign_labels_raises_iff
                         [("en", [("WIFI_LABEL", LocStr "Wi-Fi")]);
                          ("fr", [("WIFI_LABEL", LocStr "")])]
                         (mkRawSettingsURL "prefs:root=WIFI" "WIFI_LABEL" "" [] None)))).
  exists "fr", [("WIFI_LABEL", LocStr "")], (LocStr "").
  repeat split. right. now left.
Defined.

(** X16 (labels).  When the label assignment returns, the record has the
    URL, label id, manifest and aliases it had, and for every locale of
    the strings its label is the entry of its label id in that locale,
    when there is one, and the label it had otherwise. *)
Theorem assign_labels_assigns (strings : dict (dict LocalizationString))
    (record record' : RawSettingsURL) (locale : string) :
  assign_labels strings record = Ok record' ->
  NoDup (keys strings) ->
  url record' = url record
  /\ label_id record' = label_id record
  /\ aliases record' = aliases record
  /\ dict_get locale (localized_labels record')
     = match dict_get locale strings with
       | Some strs =>
           match dict_get (label_id record) strs with
           | Some entry => Some entry
           | None => dict_get locale (localized_labels record)
           end
       | None => dict_get locale (localized_labels record)
       end.
Proof.
  intros H Hnd. destruct (assign_labels_fields _ _ _ H) as (H1 & H2 & _ & H4).
  repeat split; auto. now apply assign_labels_lookup.
Qed.

Lemma assign_labels_assigns_witness :
  exists record',
    assign_labels [("en", [("WIFI_LABEL", LocStr "Wi-Fi")]);
                   ("fr", [("OTHER", LocStr "Autre")])]
      (mkRawSettingsURL "prefs:root=WIFI" "WIFI_LABEL" "" [] None) = Ok record'
    /\ url record' = "prefs:root=WIFI"
    /\ dict_get "en" (localized_labels record') = Some (LocStr "Wi-Fi").
Proof.
  eexists. split; [reflexivity|].
  destruct (assign_labels_assigns
              [("en", [("WIFI_LABEL", LocStr "Wi-Fi")]);
               ("fr", [("OTHER", LocStr "Autre")])]
              (mkRawSettingsURL "prefs:root=WIFI" "WIFI_LABEL" "" [] None)
              _ "en" eq_refl) as (H1 & _ & _ & H4).
  - repeat constructor; cbn; intuition discriminate.
  - split; [exact H1|exact H4].
Defined.

(** The scenarios of a single record with and without an alias. *)
Example wifi_localized_tree :
  let record := mkRawSettingsURL "prefs:root=WIFI" "WIFI_LABEL" ""
                  [("en", LocStr "Wi-Fi")] None in
  (t <- add_url empty_tree record ;;
   Ok (option_map (fun scheme => build_localized_tree 1 scheme "en")
         (dict_get "prefs" (urls t)),
       option_map (fun scheme => yielded (build_markdown_lines scheme "en" "- " false))
         (dict_get "prefs" (urls t))))
  = Ok (Some (Some (VDict [("Wi-Fi", VStr "prefs:root=WIFI")])),
        Some ["- Wi-Fi: `prefs:root=WIFI`"]).
Proof. reflexivity. Qed.

Example wifi_alias_outline :
  let record := mkRawSettingsURL "prefs:root=WIFI" "WIFI_LABEL" ""
                  [("en", LocStr "Wi-Fi")] None in
  (t <- add_url empty_tree record ;;
   '(t, g) <- add_alias t "prefs:root=WIFI" "prefs:root=WIFI_ALT" false None no_globals ;;
   Ok (option_map (fun scheme => yielded (build_markdown_lines scheme "en" "- " false))
         (dict_get "prefs" (urls t))))
  = Ok (Some ["- Wi-Fi: `prefs:root=WIFI` or `prefs:root=WIFI_ALT`"]).
Proof. reflexivity. Qed.

Example nested_outline :
  yielded (build_markdown_lines
             (Node None [("A", Node None [("x", Node (Some (sample_record "prefs:root=A&path=x")) [])])])
             "en" "- " false)
  = ["- UNKNOWN_LABEL → UNKNOWN_LABEL: `prefs:root=A&path=x`"].
Proof. reflexivity. Qed.

(** ** [add_override] *)

Section OverrideFacts.

Lemma labels_of_manifest_lookup (override_label_id lang : string)
    (strings : dict (dict LocalizationString)) :
  forall labels,
    NoDup (keys strings) ->
    dict_get lang (labels_of_manifest strings override_label_id labels)
    = match dict_get lang strings with
      | Some lang_localizations =>
          match dict_get override_label_id lang_localizations with
          | Some entry => Some entry
          | None => dict_get lang labels
          end
      | None => dict_get lang labels
      end.
Proof.
  induction strings as [|[l locs] strings IH]; intros labels Hnd;
    cbn [labels_of_manifest dict_get]; auto.
  inversion Hnd as [|? ? Hnotin Hnd']; subst. rewrite IH by assumption.
  destruct (String.eqb lang l) eqn:E.
  - apply String.eqb_eq in E. subst l.
    destruct (dict_get lang strings) eqn:Hg.
    + apply dict_get_keys in Hg. contradiction.
    + destruct (dict_get override_label_id locs); auto.
      apply dict_get_set_same.
  - assert (l <> lang) by (apply String.eqb_neq in E; congruence).
    destruct (dict_get override_label_id locs);
      rewrite ?dict_get_set_other by assumption; reflexivity.
Qed.

End OverrideFacts.

(** X17 (overrides).  An override with an inline label.  When its URL, after
    the corrections, parses, [add_override] returns a tree in which the
    node at the segments of that URL is owned by a record with that URL,
    the inline labels as they are given, and no alias; the node keeps the
    children it had. *)
Theorem add_override_inline (tree : URLTree) (g : Globals) (override : NewOverride)
    (labels : dict LocalizationString) (segments : list string) :
  ov_label_id override = None ->
  ov_label override = Some labels ->
  get_path_segments (corrected_url g (ov_url override)) = Ok segments ->
  exists tree' r,
    add_override tree g override = Ok tree'
    /\ subtree tree' segments
       = Some (Node (Some r)
                 (match subtree tree segments with
                  | Some n => urls n
                  | None => []
                  end))
    /\ url r = corrected_url g (ov_url override)
    /\ localized_labels r = labels
    /\ aliases r = None.
Proof.
  intros Hid Hlabel Hseg. unfold add_override. rewrite Hid, Hlabel. cbn [bind].
  unfold add_url.
  change (url (mkRawSettingsURL _ _ _ _ _)) with (corrected_url g (ov_url override)).
  rewrite Hseg. cbn [bind]. do 2 eexists. split; [reflexivity|].
  split; [apply add_url_from_subtree|]. repeat split.
Qed.

Lemma add_override_inline_witness :
  exists tree' r,
    add_override tree_with_gap no_globals
      (mkNewOverride "prefs:root=A" None None (Some [("en", LocStr "Pane A")]) None)
    = Ok tree'
    /\ subtree tree' ["prefs"; "A"]
       = Some (Node (Some r)
                 (match subtree tree_with_gap ["prefs"; "A"] with
                  | Some n => urls n
                  | None => []
                  end))
    /\ url r = corrected_url no_globals "prefs:root=A"
    /\ localized_labels r = [("en", LocStr "Pane A")]
    /\ aliases r = None.
Proof.
  apply (add_override_inline tree_with_gap no_globals
           (mkNewOverride "prefs:root=A" None None (Some [("en", LocStr "Pane A")]) None)
           [("en", LocStr "Pane A")] ["prefs"; "A"]);
    reflexivity.
Defined.

(** X18 (overrides).  An override with a label id.  When its manifest is
    loaded and its URL, after the corrections, parses, [add_override]
    returns a tree in which the node at the segments of that URL is owned
    by a record that has, in each locale of the manifest's strings, the
    entry of the label id when the locale has one, and no label
    otherwise. *)
Theorem add_override_by_label_id (tree : URLTree) (g : Globals)
    (override : NewOverride) (override_label_id manifest_key : string)
    (manifest : Manifest) (segments : list string) :
  ov_label_id override = Some override_label_id ->
  ov_manifest override = Some manifest_key ->
  dict_get manifest_key (manifests g) = Some manifest ->
  NoDup (keys (m_strings manifest)) ->
  get_path_segments (corrected_url g (ov_url override)) = Ok segments ->
  exists tree' r,
    add_override tree g override = Ok tree'
    /\ subtree tree' segments
       = Some (Node (Some r)
                 (match subtree tree segments with
                  | Some n => urls n
                  | None => []
                  end))
    /\ url r = corrected_url g (ov_url override)
    /\ forall lang,
         dict_get lang (localized_labels r)
         = match dict_get lang (m_strings manifest) with
           | Some lang_localizations => dict_get override_label_id lang_localizations
           | None => None
           end.
Proof.
  intros Hid Hm Hget Hnd Hseg. unfold add_override. rewrite Hid, Hm.
  cbn [bind]. rewrite Hget. cbn [bind]. unfold add_url.
  change (url (mkRawSettingsURL _ _ _ _ _)) with (corrected_url g (ov_url override)).
  rewrite Hseg. cbn [bind]. do 2 eexists. split; [reflexivity|].
  split; [apply add_url_from_subtree|]. split; [reflexivity|].
  intros lang. cbn [localized_labels].
  rewrite labels_of_manifest_lookup by assumption.
  destruct (dict_get lang (m_strings manifest)) as [locs|]; [|reflexivity].
  now destruct (dict_get override_label_id locs).
Qed.

Lemma add_override_by_label_id_witness :
  let g := mkGlobals [] [] []
             [("Wifi", mkManifest "Wifi.plist" []
                         [("en", [("WIFI_LABEL", LocStr "Wi-Fi")]);
                          ("fr", [("OTHER", LocStr "Autre")])])] in
  exists tree' r,
    add_override empty_tree g
      (mkNewOverride "prefs:root=WIFI" (Some "WIFI_LABEL") (Some "Wifi") None None)
    = Ok tree'
    /\ subtree tree' ["prefs"; "WIFI"]
       = Some (Node (Some r)
                 (match subtree empty_tree ["prefs"; "WIFI"] with
                  | Some n => urls n
                  | None => []
                  end))
    /\ url r = corrected_url g "prefs:root=WIFI"
    /\ forall lang,
         dict_get lang (localized_labels r)
         = match dict_get lang [("en", [("WIFI_LABEL", LocStr "Wi-Fi")]);
                                ("fr", [("OTHER", LocStr "Autre")])] with
           | Some lang_localizations => dict_get "WIFI_LABEL" lang_localizations
           | None => None
           end.
Proof.
  apply (add_override_by_label_id empty_tree
           (mkGlobals [] [] []
              [("Wifi", mkManifest "Wifi.plist" []
                          [("en", [("WIFI_LABEL", LocStr "Wi-Fi")]);
                           ("fr", [("OTHER", LocStr "Autre")])])])
           (mkNewOverride "prefs:root=WIFI" (Some "WIFI_LABEL") (Some "Wifi") None None)
           "WIFI_LABEL" "Wifi"
           (mkManifest "Wifi.plist" []
              [("en", [("WIFI_LABEL", LocStr "Wi-Fi")]);
               ("fr", [("OTHER", LocStr "Autre")])])
           ["prefs"; "WIFI"]); try reflexivity.
  repeat constructor; cbn; intuition discriminate.
Defined.

(** X19 (overrides).  What [add_override] raises before it touches the tree:
    [KeyError] for ["label"] when the override has neither a label id nor
    a label, for ["manifest"] when it has a label id and no manifest, and
    for the name of the manifest when that manifest is not loaded. *)
Theorem add_override_missing_keys (tree : URLTree) (g : Globals)
    (override : NewOverride) :
  (ov_label_id override = None -> ov_label override = None ->
   add_override tree g override = Raise (KeyError "label"))
  /\ (forall l, ov_label_id override = Some l -> ov_manifest override = None ->
                add_override tree g override = Raise (KeyError "manifest"))
  /\ (forall l m, ov_label_id override = Some l -> ov_manifest override = Some m ->
                  dict_get m (manifests g) = None ->
                  add_override tree g override = Raise (KeyError m)).
Proof.
  unfold add_override. repeat split.
  - intros -> ->. reflexivity.
  - intros l -> ->. reflexivity.
  - intros l m -> -> Hget. cbn [bind]. now rewrite Hget.
Qed.

Lemma add_override_missing_keys_witness :
  add_override empty_tree no_globals
    (mkNewOverride "prefs:root=WIFI" (Some "WIFI_LABEL") (Some "Wifi") None None)
  = Raise (KeyError "Wifi").
Proof.
  apply (proj2 (proj2 (add_override_missing_keys empty_tree no_globals
                         (mkNewOverride "prefs:root=WIFI" (Some "WIFI_LABEL")
                            (Some "Wifi") None None)))
           "WIFI_LABEL" "Wifi"); reflexivity.
Defined.

(* ================================================================== *)
(** * Rendering *)
(* ================================================================== *)

Section LocalizedFacts.

Lemma tree_height_child (r : option RawSettingsURL) (cs : dict URLTree)
    (k : string) (c : URLTree) :
  In (k, c) cs -> tree_height c < tree_height (Node r cs).
Proof.
  cbn [tree_height]. induction cs as [|[k' c'] cs IH]; cbn [In fold_right snd];
    [tauto|].
  intros [H|H].
  - inversion H; subst. lia.
  - specialize (IH H). lia.
Qed.

(** A merge keeps every reachable leaf, whenever it returns. *)
Lemma merge_into_preserves (fuel : nat) (d : dict Value) (k : string)
    (v : Value) (d' : dict Value) (k0 : string) (v0 : Value) (s : string) :
  merge_into fuel d k v = Some d' ->
  dict_get k0 d = Some v0 ->
  reachable s v0 ->
  exists v0', dict_get k0 d' = Some v0' /\ reachable s v0'.
Proof.
  intros Hm Hv0 Hs.
  destruct (String.eqb_spec k0 k) as [->|Hne].
  - destruct (merge_into_slot _ _ _ _ _ Hm) as (v' & Hv' & Hold & _). eauto.
  - rewrite (merge_into_other_keys _ _ _ _ _ _ Hm Hne). eauto.
Qed.

Lemma localized_children_preserves (render : URLTree -> option Value)
    (fuel : nat) (locale : string) (s : string) :
  forall (cs : dict URLTree) (result : dict Value) (uid : nat)
         (result' : dict Value) (k0 : string) (v0 : Value),
    localized_children render fuel locale cs result uid = Some result' ->
    dict_get k0 result = Some v0 ->
    reachable s v0 ->
    exists v0', dict_get k0 result' = Some v0' /\ reachable s v0'.
Proof.
  induction cs as [|[k c] cs IH]; intros result uid result' k0 v0 Hloop Hv0 Hs;
    cbn [localized_children] in Hloop.
  - inversion Hloop; subst. eauto.
  - destruct (child_key locale c uid) as [key uid'].
    destruct (render c) as [v|]; [|discriminate].
    destruct (merge_into fuel result key v) as [result1|] eqn:Hm; [|discriminate].
    destruct (merge_into_preserves _ _ _ _ _ _ _ _ Hm Hv0 Hs) as (v1 & Hv1 & Hs1).
    eapply IH; eauto.
Qed.

Lemma localized_children_returns (fuel : nat) (locale : string) (bound : nat) :
  bound < fuel ->
  forall cs : dict URLTree,
    Forall (fun kv =>
              exists v,
                build_localized_tree fuel (snd kv) locale = Some v
                /\ value_depth v <= bound) cs ->
    forall (result : dict Value) (uid : nat),
      max_depth result <= bound ->
      exists result',
        localized_children (fun subtree => build_localized_tree fuel subtree locale)
          fuel locale cs result uid = Some result'
        /\ max_depth result' <= bound.
Proof.
  intros Hb. induction 1 as [|[k c] cs (v & Hv & Hd) _ IH]; intros result uid Hr;
    cbn [localized_children].
  - eauto.
  - destruct (child_key locale c uid) as [key uid']. cbn [snd] in Hv. rewrite Hv.
    destruct (merge_into_returns fuel result key v) as (result1 & -> & Hle); [lia|].
    apply IH. lia.
Qed.

(** [build_localized_tree] returns on every tree, given fuel for its
    height. *)
Lemma build_localized_tree_total (locale : string) :
  forall (t : URLTree) (fuel : nat),
    tree_height t <= fuel ->
    exists v,
      build_localized_tree fuel t locale = Some v
      /\ value_depth v <= tree_height t.
Proof.
  induction t as [r cs IH] using URLTree_children_ind. intros fuel Hfuel.
  assert (Hchildren :
            Forall (fun kv =>
                      exists v,
                        build_localized_tree fuel (snd kv) locale = Some v
                        /\ value_depth v <= pred (tree_height (Node r cs))) cs).
  { rewrite Forall_forall in IH |- *. intros [k c] Hin.
    pose proof (tree_height_child r cs k c Hin) as Hlt.
    destruct (IH _ Hin fuel) as (v & Hv & Hd); [cbn [snd]; lia|].
    exists v. split; auto. cbn [snd] in *. lia. }
  assert (Hpos : 0 < tree_height (Node r cs)) by (cbn [tree_height]; lia).
  assert (Hloop :
            forall result,
              max_depth result <= pred (tree_height (Node r cs)) ->
              exists v,
                option_map VDict
                  (localized_children
                     (fun subtree => build_localized_tree fuel subtree locale)
                     fuel locale cs result 0) = Some v
                /\ value_depth v <= tree_height (Node r cs)).
  { intros result Hr.
    assert (Hb : pred (tree_height (Node r cs)) < fuel) by lia.
    destruct (localized_children_returns fuel locale _ Hb cs Hchildren result 0 Hr)
      as (result' & -> & Hle).
    eexists. split; [reflexivity|]. rewrite value_depth_dict. lia. }
  destruct fuel as [|fuel]; [lia|].
  destruct r as [r|], cs as [|kc cs].
  - eexists. split; [reflexivity|]. destruct (aliases r); cbn; lia.
  - cbn [build_localized_tree]. rewrite merge_into_absent by reflexivity.
    apply Hloop. cbn. lia.
  - cbn [build_localized_tree]. apply Hloop. cbn. lia.
  - cbn [build_localized_tree]. apply Hloop. cbn. lia.
Qed.

End LocalizedFacts.

(** X20 (rendering).  [build_localized_tree] returns on every tree: with
    fuel for the height of the tree, none of its merges runs out, and the
    value it returns is no deeper than the tree is high. *)
Theorem build_localized_tree_returns (fuel : nat) (t : URLTree) (locale : string) :
  tree_height t <= fuel ->
  exists v,
    build_localized_tree fuel t locale = Some v
    /\ value_depth v <= tree_height t.
Proof. apply build_localized_tree_total. Qed.

Lemma build_localized_tree_returns_witness :
  exists v,
    build_localized_tree 4 tree_with_child "en" = Some v
    /\ value_depth v <= tree_height tree_with_child.
Proof.
  apply (build_localized_tree_returns 4 tree_with_child "en"). cbn. lia.
Defined.

(** X21 (rendering).  The localized tree of a node that has children and an
    owning record is a dictionary in which the URL of the record is
    reachable under the self key, whatever the labels of the children
    are (a child labelled ["(root)"] included). *)
Theorem build_localized_tree_own_url (fuel : nat) (r : RawSettingsURL)
    (kc : string * URLTree) (cs : dict URLTree) (locale : string) :
  tree_height (Node (Some r) (kc :: cs)) <= fuel ->
  exists result,
    build_localized_tree fuel (Node (Some r) (kc :: cs)) locale = Some (VDict result)
    /\ reachable (url r) (VDict result).
Proof.
  intros Hfuel.
  destruct (build_localized_tree_total locale _ fuel Hfuel) as (v & Hv & _).
  destruct fuel as [|fuel]; [cbn [tree_height] in Hfuel; lia|].
  cbn [build_localized_tree] in Hv |- *.
  rewrite merge_into_absent in Hv |- * by reflexivity.
  destruct (localized_children _ (S fuel) locale (kc :: cs) _ 0) as [result|] eqn:Hloop;
    [|discriminate].
  exists result. split; [reflexivity|].
  apply reachable_dict.
  eapply localized_children_preserves; [exact Hloop| |].
  - apply dict_get_set_same.
  - reflexivity.
Qed.

Lemma build_localized_tree_own_url_witness :
  exists result,
    build_localized_tree 2
      (Node (Some (sample_record "prefs:root=A"))
         [("x", Node (Some (mkRawSettingsURL "prefs:root=A&path=x" "" ""
                              [("en", LocStr "(root)")] None)) [])]) "en"
    = Some (VDict result)
    /\ reachable (url (sample_record "prefs:root=A")) (VDict result).
Proof.
  apply (build_localized_tree_own_url 2 (sample_record "prefs:root=A")
           ("x", Node (Some (mkRawSettingsURL "prefs:root=A&path=x" "" ""
                               [("en", LocStr "(root)")] None)) []) [] "en").
  cbn. lia.
Defined.

Section LeafChildren.

Lemma merge_into_preserves_slot (fuel : nat) (d : dict Value) (k : string)
    (v : Value) (d' : dict Value) (k0 : string) (v0 : Value) :
  merge_into fuel d k v = Some d' ->
  dict_get k0 d = Some v0 ->
  exists v0',
    dict_get k0 d' = Some v0' /\ forall s, reachable s v0 -> reachable s v0'.
Proof.
  intros Hm Hv0.
  destruct (String.eqb_spec k0 k) as [->|Hne].
  - destruct (merge_into_slot _ _ _ _ _ Hm) as (v' & Hv' & Hold & _). eauto.
  - rewrite (merge_into_other_keys _ _ _ _ _ _ Hm Hne). eauto.
Qed.

Lemma localized_children_preserves_slot (render : URLTree -> option Value)
    (fuel : nat) (locale : string) :
  forall (cs : dict URLTree) (result : dict Value) (uid : nat)
         (result' : dict Value) (k0 : string) (v0 : Value),
    localized_children render fuel locale cs result uid = Some result' ->
    dict_get k0 result = Some v0 ->
    exists v0',
      dict_get k0 result' = Some v0' /\ forall s, reachable s v0 -> reachable s v0'.
Proof.
  induction cs as [|[k c] cs IH]; intros result uid result' k0 v0 Hloop Hv0;
    cbn [localized_children] in Hloop.
  - inversion Hloop; subst. eauto.
  - destruct (child_key locale c uid) as [key uid'].
    destruct (render c) as [v|]; [|discriminate].
    destruct (merge_into fuel result key v) as [result1|] eqn:Hm; [|discriminate].
    destruct (merge_into_preserves_slot _ _ _ _ _ _ _ Hm Hv0) as (v1 & Hv1 & Hs1).
    destruct (IH _ _ _ _ _ Hloop Hv1) as (v2 & Hv2 & Hs2).
    exists v2. split; auto.
Qed.

(** A child rendered as a string or list is found, with all its strings,
    in the slot of the key the loop gave it. *)
Lemma localized_children_scalar (render : URLTree -> option Value)
    (fuel : nat) (locale : string) (k : string) (c : URLTree) (v : Value) :
  render c = Some v ->
  is_scalar v = true ->
  forall (cs : dict URLTree) (result : dict Value) (uid : nat)
         (result' : dict Value),
    localized_children render fuel locale cs result uid = Some result' ->
    In (k, c) cs ->
    exists uid' v',
      dict_get (fst (child_key locale c uid')) result' = Some v'
      /\ forall s, reachable s v -> reachable s v'.
Proof.
  intros Hrender Hsc.
  induction cs as [|[k1 c1] cs IH]; intros result uid result' Hloop Hin;
    [destruct Hin|].
  cbn [localized_children] in Hloop.
  destruct (child_key locale c1 uid) as [key uid1] eqn:Hkey.
  destruct (render c1) as [v1|] eqn:Hr1; [|discriminate].
  destruct (merge_into fuel result key v1) as [result1|] eqn:Hm; [|discriminate].
  destruct Hin as [Heq|Hin].
  - inversion Heq; subst k1 c1. rewrite Hrender in Hr1. inversion Hr1; subst v1.
    destruct (merge_into_slot _ _ _ _ _ Hm) as (v' & Hv' & _ & Hnew).
    destruct (localized_children_preserves_slot _ _ _ _ _ _ _ _ _ Hloop Hv')
      as (v2 & Hv2 & Hs2).
    exists uid, v2. rewrite Hkey. split; auto.
  - eapply IH; eauto.
Qed.

End LeafChildren.

(** X22 (rendering).  No URL of a leaf is lost.  In the localized tree of a
    node, a child that has an owning record and no children of its own is
    found under the key the node gives it (its sanitized label, or a
    numbered placeholder): the URL of its record and each of its aliases
    are reachable in the slot of that key, with whatever other children
    share the label. *)
Theorem build_localized_tree_leaf_child (fuel : nat)
    (r : option RawSettingsURL) (cs : dict URLTree) (locale k : string)
    (rc : RawSettingsURL) :
  tree_height (Node r cs) <= fuel ->
  In (k, Node (Some rc) []) cs ->
  exists result uid v,
    build_localized_tree fuel (Node r cs) locale = Some (VDict result)
    /\ dict_get (fst (child_key locale (Node (Some rc) []) uid)) result = Some v
    /\ reachable (url rc) v
    /\ forall a, In a (alias_list rc) -> reachable a v.
Proof.
  intros Hfuel Hin.
  destruct (build_localized_tree_total locale _ fuel Hfuel) as (v & Hv & _).
  assert (Hleaf :
            build_localized_tree fuel (Node (Some rc) []) locale
            = Some (match aliases rc with
                    | Some l => VList (url rc :: l)
                    | None => VStr (url rc)
                    end)) by (destruct fuel; reflexivity).
  assert (Hsc : is_scalar (match aliases rc with
                           | Some l => VList (url rc :: l)
                           | None => VStr (url rc)
                           end) = true) by (destruct (aliases rc); reflexivity).
  assert (Hloop :
            forall result0 result,
              localized_children
                (fun subtree => build_localized_tree fuel subtree locale)
                fuel locale cs result0 0 = Some result ->
              exists uid v,
                dict_get (fst (child_key locale (Node (Some rc) []) uid)) result = Some v
                /\ reachable (url rc) v
                /\ forall a, In a (alias_list rc) -> reachable a v).
  { intros result0 result Hres.
    destruct (localized_children_scalar
                (fun subtree => build_localized_tree fuel subtree locale)
                fuel locale k _ _ Hleaf Hsc cs _ _ _ Hres Hin)
      as (uid & v' & Hv' & Hs).
    exists uid, v'. split; auto. unfold alias_list.
    destruct (aliases rc) as [l|]; cbn [reachable] in Hs; split.
    - apply Hs. now left.
    - intros a Ha. apply Hs. now right.
    - now apply Hs.
    - intros a []. }
  destruct cs as [|kc cs]; [destruct Hin|].
  destruct r as [r|]; cbn [build_localized_tree] in Hv |- *.
  - destruct (merge_into fuel [] ROOT_STR (VStr (url r))) as [result0|];
      [|discriminate].
    destruct (localized_children _ fuel locale (kc :: cs) result0 0)
      as [result|] eqn:Hres; [|discriminate].
    destruct (Hloop _ _ Hres) as (uid & v' & H). exists result, uid, v'.
    split; [reflexivity|exact H].
  - destruct (localized_children _ fuel locale (kc :: cs) [] 0)
      as [result|] eqn:Hres; [|discriminate].
    destruct (Hloop _ _ Hres) as (uid & v' & H). exists result, uid, v'.
    split; [reflexivity|exact H].
Qed.

Lemma build_localized_tree_leaf_child_witness :
  exists result uid v,
    build_localized_tree 2
      (Node None
         [("WIFI", Node (Some (mkRawSettingsURL "prefs:root=WIFI" "" ""
                                 [("en", LocStr "Wi-Fi")] (Some ["prefs:root=WLAN"]))) []);
          ("AIRPORT", Node (Some (mkRawSettingsURL "prefs:root=AIRPORT" "" ""
                                    [("en", LocStr "Wi-Fi")] None)) [])]) "en"
    = Some (VDict result)
    /\ dict_get
         (fst (child_key "en"
                 (Node (Some (mkRawSettingsURL "prefs:root=WIFI" "" ""
                                [("en", LocStr "Wi-Fi")] (Some ["prefs:root=WLAN"]))) [])
                 uid)) result = Some v
    /\ reachable "prefs:root=WIFI" v
    /\ forall a, In a ["prefs:root=WLAN"] -> reachable a v.
Proof.
  apply (build_localized_tree_leaf_child 2 None
           [("WIFI", Node (Some (mkRawSettingsURL "prefs:root=WIFI" "" ""
                                   [("en", LocStr "Wi-Fi")] (Some ["prefs:root=WLAN"]))) []);
            ("AIRPORT", Node (Some (mkRawSettingsURL "prefs:root=AIRPORT" "" ""
                                      [("en", LocStr "Wi-Fi")] None)) [])]
           "en" "WIFI"
           (mkRawSettingsURL "prefs:root=WIFI" "" ""
              [("en", LocStr "Wi-Fi")] (Some ["prefs:root=WLAN"]))).
  - cbn. lia.
  - now left.
Defined.

Example shared_label_localized_tree :
  build_localized_tree 2
    (Node None
       [("WIFI", Node (Some (mkRawSettingsURL "prefs:root=WIFI" "" ""
                               [("en", LocStr "Wi-Fi")] (Some ["prefs:root=WLAN"]))) []);
        ("AIRPORT", Node (Some (mkRawSettingsURL "prefs:root=AIRPORT" "" ""
                                  [("en", LocStr "Wi-Fi")] None)) [])]) "en"
  = Some (VDict [("Wi-Fi",
                  VList ["prefs:root=AIRPORT"; "prefs:root=WIFI"; "prefs:root=WLAN"])]).
Proof. reflexivity. Qed.

(** ** The outline *)

Section OutlineFacts.

Lemma prefix_refl (s : string) : String.prefix s s = true.
Proof.
  induction s as [|c s IH]; cbn [String.prefix]; auto.
  destruct (ascii_dec c c); [exact IH|congruence].
Qed.

Lemma prefix_append (p x : string) : String.prefix p (p +++ x) = true.
Proof.
  induction p as [|c p IH]; cbn [String.prefix String.append].
  - now destruct x.
  - destruct (ascii_dec c c); [exact IH|congruence].
Qed.

Lemma prefix_trans (a b c : string) :
  String.prefix a b = true -> String.prefix b c = true -> String.prefix a c = true.
Proof.
  revert b c. induction a as [|x a IH]; intros [|y b] [|z c];
    cbn [String.prefix]; try discriminate; auto.
  destruct (ascii_dec x y) as [->|]; [|discriminate].
  destruct (ascii_dec y z) as [->|]; [|discriminate].
  apply IH.
Qed.

Lemma yielded_app (a b : list event) : yielded (a ++ b) = yielded a ++ yielded b.
Proof. apply flat_map_app. Qed.

Lemma printed_app (a b : list event) : printed (a ++ b) = printed a ++ printed b.
Proof. apply flat_map_app. Qed.

(** The lines of the outline follow the owned nodes, and each of them
    extends the prefix it was given. *)
Lemma build_markdown_lines_records (locale : string) :
  forall (t : URLTree) (prefix : string) (should_label : bool),
    Forall2 (fun line r =>
               exists label_path,
                 line = label_path +++ ": " +++ urls_str r
                 /\ String.prefix prefix label_path = true)
      (yielded (build_markdown_lines t locale prefix should_label))
      (owned_records t).
Proof.
  induction t as [r cs IH] using URLTree_children_ind.
  intros prefix should_label.
  assert (Hchildren :
            forall p,
              String.prefix prefix p = true ->
              Forall2 (fun line r =>
                         exists label_path,
                           line = label_path +++ ": " +++ urls_str r
                           /\ String.prefix prefix label_path = true)
                (yielded (flat_map
                            (fun kv => build_markdown_lines (snd kv) locale p true) cs))
                (flat_map (fun kv => owned_records (snd kv)) cs)).
  { intros p Hp. induction IH as [|[k c] cs Hc _ IHcs]; cbn [flat_map];
      [constructor|].
    rewrite yielded_app. apply Forall2_app; auto.
    eapply Forall2_impl; [|apply Hc].
    intros line r0 (lp & -> & Hlp). exists lp. split; auto.
    eapply prefix_trans; eauto. }
  assert (Hsep :
            forall p,
              String.prefix prefix p = true ->
              String.prefix prefix (if should_label then p +++ SEPARATOR else p) = true).
  { intros p Hp. destruct should_label; auto.
    eapply prefix_trans; [exact Hp|apply prefix_append]. }
  cbn [build_markdown_lines owned_records].
  destruct r as [r|].
  - destruct (dict_get _ (localized_labels r)) as [entry|].
    + rewrite yielded_app. cbn [app yielded flat_map].
      constructor.
      * eexists. split; [reflexivity|]. apply prefix_append.
      * apply Hchildren, Hsep, prefix_append.
    + rewrite yielded_app.
      match goal with
      | |- Forall2 _ (yielded (?pr ++ _) ++ _) _ =>
          replace (yielded (pr ++ [Yield ((prefix +++ UNKNOWN_PLACEHOLDER) +++ ": " +++ urls_str r)]))
            with [(prefix +++ UNKNOWN_PLACEHOLDER) +++ ": " +++ urls_str r]
            by (destruct (String.eqb locale FALLBACK_LOCALE); reflexivity)
      end.
      constructor.
      * eexists. split; [reflexivity|]. apply prefix_append.
      * apply Hchildren, Hsep, prefix_append.
  - cbn [app]. apply Hchildren, Hsep.
    destruct (should_label || Nat.ltb 2 (py_len prefix));
      [apply prefix_append|apply prefix_refl].
Qed.

Lemma build_markdown_lines_printed (locale : string) :
  forall (t : URLTree) (prefix : string) (should_label : bool),
    printed (build_markdown_lines t locale prefix should_label)
    = if String.eqb locale FALLBACK_LOCALE
      then flat_map diagnostics (owned_records t)
      else [].
Proof.
  induction t as [r cs IH] using URLTree_children_ind.
  intros prefix should_label.
  assert (Hchildren :
            forall p,
              printed (flat_map
                         (fun kv => build_markdown_lines (snd kv) locale p true) cs)
              = if String.eqb locale FALLBACK_LOCALE
                then flat_map diagnostics
                       (flat_map (fun kv => owned_records (snd kv)) cs)
                else []).
  { intros p. induction IH as [|[k c] cs Hc _ IHcs]; cbn [flat_map].
    - now destruct (String.eqb locale FALLBACK_LOCALE).
    - rewrite printed_app, Hc, IHcs. cbn [snd].
      destruct (String.eqb locale FALLBACK_LOCALE); [|reflexivity].
      now rewrite flat_map_app. }
  cbn [build_markdown_lines owned_records].
  destruct r as [r|].
  - unfold diagnostics. rewrite flat_map_app. cbn [flat_map].
    destruct (String.eqb locale FALLBACK_LOCALE) eqn:Hloc.
    + apply String.eqb_eq in Hloc. subst locale.
      replace (if dict_mem FALLBACK_LOCALE (localized_labels r)
               then FALLBACK_LOCALE else FALLBACK_LOCALE)
        with FALLBACK_LOCALE by (destruct (dict_mem _ _); reflexivity).
      destruct (dict_get FALLBACK_LOCALE (localized_labels r));
        rewrite !printed_app, Hchildren, ?String.eqb_refl; reflexivity.
    + destruct (dict_get _ (localized_labels r));
        rewrite !printed_app, Hchildren, ?Hloc; reflexivity.
  - cbn [app]. rewrite Hchildren.
    now destruct (String.eqb locale FALLBACK_LOCALE).
Qed.

End OutlineFacts.

(** X23 (outline).  [build_markdown_lines] yields one line for each node
    that has an owning record, parents before children and children in
    insertion order, and none for the other nodes.  Each line is a path of
    labels that begins with the prefix the call was given, followed by a
    colon and the URL of the record and its aliases in backticks, joined
    by [" or "]. *)
Theorem build_markdown_lines_one_per_record (t : URLTree)
    (locale prefix : string) (should_label : bool) :
  Forall2 (fun line r =>
             exists label_path,
               line = label_path +++ ": " +++ urls_str r
               /\ String.prefix prefix label_path = true)
    (yielded (build_markdown_lines t locale prefix should_label))
    (owned_records t)
  /\ List.length (yielded (build_markdown_lines t locale prefix should_label))
     = List.length (owned_records t).
Proof.
  pose proof (build_markdown_lines_records locale t prefix should_label) as H.
  split; [exact H|]. eapply Forall2_length; eauto.
Qed.

(** X24 (outline).  [build_markdown_lines] prints only when it renders the
    fallback locale, and then four lines for each owned node whose record
    has no label in that locale, in the order of the nodes: the notice,
    the URL, the manifest and the label id. *)
Theorem build_markdown_lines_diagnostics (t : URLTree) (locale prefix : string)
    (should_label : bool) :
  printed (build_markdown_lines t locale prefix should_label)
  = if String.eqb locale FALLBACK_LOCALE
    then flat_map diagnostics (owned_records t)
    else [].
Proof. apply build_markdown_lines_printed. Qed.

(** ** The combined tree *)

Section CombinedFacts.

Lemma dict_get_update_empty {V} (d : dict V) (k : string) :
  NoDup (keys d) -> dict_get k (dict_update [] d) = dict_get k d.
Proof.
  intros Hnd. destruct (dict_get k d) as [v|] eqn:Hget.
  - now apply dict_get_update.
  - rewrite dict_get_update_other; [reflexivity|].
    now apply dict_get_None_keys.
Qed.

Lemma combined_fold_lookup (g : Globals) (k : string) :
  forall (navigation combined : dict URLTree),
    NoDup (keys navigation) ->
    dict_get k
      (fold_left
         (fun combined kv =>
            match root (snd kv) with
            | Some r =>
                if dict_mem (url r) (alias_localizations g) then combined
                else dict_set (fst kv) (snd kv) combined
            | None => dict_set (fst kv) (snd kv) combined
            end) navigation combined)
    = match dict_get k navigation with
      | Some c => if already_alias g c then dict_get k combined else Some c
      | None => dict_get k combined
      end.
Proof.
  induction navigation as [|[k1 c1] navigation IH]; intros combined Hnd;
    cbn [fold_left dict_get]; auto.
  inversion Hnd as [|? ? Hnotin Hnd']; subst. rewrite IH by assumption.
  cbn [fst snd].
  assert (Hstep :
            match root c1 with
            | Some r =>
                if dict_mem (url r) (alias_localizations g) then combined
                else dict_set k1 c1 combined
            | None => dict_set k1 c1 combined
            end
            = if already_alias g c1 then combined else dict_set k1 c1 combined).
  { unfold already_alias. now destruct (root c1). }
  rewrite Hstep. clear Hstep.
  destruct (String.eqb k k1) eqn:E.
  - apply String.eqb_eq in E. subst k1.
    destruct (dict_get k navigation) eqn:Hg.
    + apply dict_get_keys in Hg. contradiction.
    + destruct (already_alias g c1); auto. apply dict_get_set_same.
  - assert (k1 <> k) by (apply String.eqb_neq in E; congruence).
    destruct (already_alias g c1); auto.
    rewrite dict_get_set_other by assumption. reflexivity.
Qed.

End CombinedFacts.

(** X25 (combined tree).  The block that builds the combined tree raises
    [KeyError] when the tree has no [prefs] scheme, and when it has no
    [settings-navigation] scheme. *)
Theorem combined_settings_tree_missing_scheme (tree : URLTree) (g : Globals) :
  (dict_get "prefs" (urls tree) = None ->
   combined_settings_tree tree g = Raise (KeyError "prefs"))
  /\ (forall prefs_scheme,
         dict_get "prefs" (urls tree) = Some prefs_scheme ->
         dict_get "settings-navigation" (urls tree) = None ->
         combined_settings_tree tree g = Raise (KeyError "settings-navigation")).
Proof.
  unfold combined_settings_tree. split.
  - intros ->. reflexivity.
  - intros p -> ->. reflexivity.
Qed.

Lemma combined_settings_tree_missing_scheme_witness :
  combined_settings_tree tree_with_child no_globals
  = Raise (KeyError "settings-navigation").
Proof.
  apply (proj2 (combined_settings_tree_missing_scheme tree_with_child no_globals)
           (Node None
              [("A", Node (Some (sample_record "prefs:root=A"))
                       [("x", Node (Some (sample_record "prefs:root=A&path=x")) [])])]));
    reflexivity.
Defined.

(** X26 (combined tree).  When the tree has both schemes, the combined tree
    has no owner, and under each key it has the child of
    [settings-navigation], unless that child is owned by a record whose
    URL is already an alias, and the child of [prefs] otherwise: a
    [settings-navigation] child replaces the [prefs] child of the same
    key. *)
Theorem combined_settings_tree_children (tree prefs_scheme navigation_scheme : URLTree)
    (g : Globals) :
  dict_get "prefs" (urls tree) = Some prefs_scheme ->
  dict_get "settings-navigation" (urls tree) = Some navigation_scheme ->
  NoDup (keys (urls prefs_scheme)) ->
  NoDup (keys (urls navigation_scheme)) ->
  exists combined,
    combined_settings_tree tree g = Ok combined
    /\ root combined = None
    /\ forall key,
         dict_get key (urls combined)
         = match dict_get key (urls navigation_scheme) with
           | Some child =>
               if already_alias g child then dict_get key (urls prefs_scheme)
               else Some child
           | None => dict_get key (urls prefs_scheme)
           end.
Proof.
  intros Hp Hn Hndp Hndn. unfold combined_settings_tree. rewrite Hp, Hn.
  cbn [bind]. eexists. split; [reflexivity|]. split; [reflexivity|].
  intros key. cbn [urls]. rewrite combined_fold_lookup by assumption.
  now rewrite dict_get_update_empty by assumption.
Qed.

Lemma combined_settings_tree_children_witness :
  let prefs_scheme := Node None [("General", empty_tree); ("WIFI", empty_tree)] in
  let navigation_scheme :=
    Node None
      [("com.apple.Settings.General",
        Node (Some (sample_record "settings-navigation://com.apple.Settings.General")) [])] in
  let g := mkGlobals [] [("settings-navigation://com.apple.Settings.General", [])] [] [] in
  exists combined,
    combined_settings_tree
      (Node None [("prefs", prefs_scheme); ("settings-navigation", navigation_scheme)]) g
    = Ok combined
    /\ root combined = None
    /\ forall key,
         dict_get key (urls combined)
         = match dict_get key (urls navigation_scheme) with
           | Some child =>
               if already_alias g child then dict_get key (urls prefs_scheme)
               else Some child
           | None => dict_get key (urls prefs_scheme)
           end.
Proof.
  cbv zeta.
  apply (combined_settings_tree_children
           (Node None
              [("prefs", Node None [("General", empty_tree); ("WIFI", empty_tree)]);
               ("settings-navigation",
                Node None
                  [("com.apple.Settings.General",
                    Node (Some (sample_record "settings-navigation://com.apple.Settings.General")) [])])])
           (Node None [("General", empty_tree); ("WIFI", empty_tree)])
           (Node None
              [("com.apple.Settings.General",
                Node (Some (sample_record "settings-navigation://com.apple.Settings.General")) [])])
           (mkGlobals [] [("settings-navigation://com.apple.Settings.General", [])] [] []));
    try reflexivity; repeat constructor; cbn; intuition discriminate.
Defined.

(* ================================================================== *)
(** * More on the URL codec *)
(* ================================================================== *)

(** X27 (codec).  [build_url] raises on one shape of argument only, a scheme
    other than [settings-navigation] followed by nothing but a fragment,
    and what it raises is [IndexError]; on every other sequence of
    segments it returns a URL. *)
Theorem build_url_raises_iff (segments : list string) :
  (forall e, build_url segments = Raise e -> e = IndexError)
  /\ (build_url segments = Raise IndexError <->
      exists url_scheme frag,
        segments = [url_scheme; frag]
        /\ String.eqb url_scheme "settings-navigation" = false
        /\ startswith frag "#" = true)
  /\ ((forall url_scheme frag,
          segments = [url_scheme; frag] ->
          String.eqb url_scheme "settings-navigation" = false ->
          startswith frag "#" = false) ->
      exists u, build_url segments = Ok u).
Proof.
  split; [|split].
  - intros e H. destruct (build_url_raises _ _ H) as (? & ? & _ & _ & _ & ->).
    reflexivity.
  - split.
    + intros H. destruct (build_url_raises _ _ H) as (s & f & H1 & H2 & H3 & _).
      eauto.
    + intros (s & f & -> & Hs & Hf). now apply build_url_scheme_fragment.
  - intros Hshape. destruct (build_url segments) as [u|e] eqn:Hb; [eauto|].
    destruct (build_url_raises _ _ Hb) as (s & f & H1 & H2 & H3 & _).
    rewrite (Hshape s f H1 H2) in H3. discriminate.
Qed.

Lemma build_url_raises_iff_witness :
  exists u, build_url ["prefs"; "General"; "#top"] = Ok u.
Proof.
  apply (proj2 (proj2 (build_url_raises_iff ["prefs"; "General"; "#top"]))).
  intros url_scheme frag H. discriminate.
Defined.

Section SegmentsNonempty.

Lemma unquote_nonempty (s : string) :
  nonempty s = true -> nonempty (unquote s) = true.
Proof.
  destruct s as [|c r]; [discriminate|]. intros _. cbn [unquote].
  destruct (Ascii.eqb c "%"); [|reflexivity].
  destruct r as [|h [|l r']]; try reflexivity.
  destruct (hex_value h), (hex_value l); reflexivity.
Qed.

Lemma plus_to_space_nonempty (s : string) :
  nonempty s = true -> nonempty (plus_to_space s) = true.
Proof. destruct s; [discriminate|reflexivity]. Qed.

Lemma parse_qsl_fields_nonempty (fields : list string) :
  Forall (fun nv => nonempty (snd nv) = true) (parse_qsl_fields fields).
Proof.
  induction fields as [|f fields IH]; cbn [parse_qsl_fields]; [constructor|].
  destruct (partition "=" f) as [[n v]|]; auto.
  destruct (nonempty v) eqn:Hv; auto.
  constructor; auto. cbn [snd].
  now apply unquote_nonempty, plus_to_space_nonempty.
Qed.

Lemma all_nonempty_set (d : dict (list string)) (k : string) (vs : list string) :
  all_nonempty d ->
  Forall (fun v => nonempty v = true) vs ->
  all_nonempty (dict_set k vs d).
Proof.
  intros Hd Hvs k0 vs0 Hget. destruct (String.eqb_spec k k0) as [->|Hne].
  - rewrite dict_get_set_same in Hget. now inversion Hget; subst.
  - rewrite dict_get_set_other in Hget by assumption. eauto.
Qed.

(** [parse_qs] keeps no blank value. *)
Lemma parse_qs_nonempty (qs : string) : all_nonempty (parse_qs qs).
Proof.
  unfold parse_qs.
  assert (Hfold :
            forall pairs d,
              Forall (fun nv => nonempty (snd nv) = true) pairs ->
              all_nonempty d ->
              all_nonempty
                (fold_left
                   (fun parsed_result nv =>
                      match dict_get (fst nv) parsed_result with
                      | Some vs => dict_set (fst nv) (vs ++ [snd nv]) parsed_result
                      | None => dict_set (fst nv) [snd nv] parsed_result
                      end) pairs d)).
  { induction pairs as [|nv pairs IH]; intros d Hp Hd; cbn [fold_left]; auto.
    inversion Hp; subst. apply IH; auto.
    destruct (dict_get (fst nv) d) as [vs|] eqn:Hget.
    - apply all_nonempty_set; auto. apply Forall_app. split; eauto.
    - apply all_nonempty_set; auto. }
  apply Hfold.
  - apply parse_qsl_fields_nonempty.
  - intros k vs H. discriminate.
Qed.

Lemma path_parts_nonempty (part : string) :
  Forall (fun seg => nonempty seg = true) (path_parts part).
Proof.
  unfold path_parts. apply Forall_forall. intros seg Hin.
  apply filter_In in Hin. tauto.
Qed.

Lemma query_segments_nonempty (parsed : dict (list string)) :
  all_nonempty parsed ->
  Forall (fun seg => nonempty seg = true) (query_segments parsed).
Proof.
  intros Hp. unfold query_segments. apply Forall_app. split.
  - destruct (dict_get "root" parsed) eqn:Hr; eauto.
  - destruct (dict_get "path" parsed) as [ps|]; [|constructor].
    induction ps as [|p ps IH]; cbn [flat_map]; [constructor|].
    apply Forall_app. split; auto. apply path_parts_nonempty.
Qed.

End SegmentsNonempty.

(** X28 (codec).  When [get_path_segments] returns, the first segment is the
    scheme of the URL (which may be empty) and no segment after it is
    empty: blank [root] and [path] values, empty path parts, an empty
    location and an empty fragment all yield nothing. *)
Theorem get_path_segments_nonempty (u : string) (segments : list string) :
  get_path_segments u = Ok segments ->
  exists parsed rest,
    urlparse u = Ok parsed
    /\ segments = scheme parsed :: rest
    /\ Forall (fun seg => nonempty seg = true) rest.
Proof.
  unfold get_path_segments. destruct (urlparse u) as [parsed|e]; cbn [bind];
    [|discriminate].
  intros H. inversion H; subst. clear H.
  eexists _, _. split; [reflexivity|]. split; [reflexivity|].
  apply Forall_app. split.
  - destruct (nonempty (netloc parsed)) eqn:Hnet.
    + apply Forall_app. split; [|apply path_parts_nonempty].
      destruct (parse_qs (netloc parsed)) as [|kv d] eqn:Hq.
      * now constructor.
      * rewrite <- Hq. apply query_segments_nonempty, parse_qs_nonempty.
    + apply query_segments_nonempty, parse_qs_nonempty.
  - destruct (nonempty (fragment parsed)); repeat constructor.
Qed.

Lemma get_path_segments_nonempty_witness :
  exists parsed rest,
    urlparse "prefs:root=&path=About//Name/#" = Ok parsed
    /\ ["prefs"; "About"; "Name"] = scheme parsed :: rest
    /\ Forall (fun seg => nonempty seg = true) rest.
Proof.
  apply (get_path_segments_nonempty "prefs:root=&path=About//Name/#"
           ["prefs"; "About"; "Name"]).
  reflexivity.
Defined.

Section StringFacts.

Lemma append_assoc (a b c : string) : (a +++ b) +++ c = a +++ b +++ c.
Proof. induction a as [|x a IH]; cbn [String.append]; [|rewrite IH]; reflexivity. Qed.

Lemma append_empty_r (a : string) : a +++ "" = a.
Proof. induction a as [|x a IH]; cbn [String.append]; [|rewrite IH]; reflexivity. Qed.

Lemma forall_chars_app (p : ascii -> bool) (a b : string) :
  forall_chars p (a +++ b) = forall_chars p a && forall_chars p b.
Proof.
  induction a as [|x a IH]; cbn [String.append forall_chars]; auto.
  rewrite IH. apply andb_assoc.
Qed.

Lemma forall_chars_impl (p q : ascii -> bool) (s : string) :
  (forall c, p c = true -> q c = true) ->
  forall_chars p s = true -> forall_chars q s = true.
Proof.
  intros Hpq. induction s as [|x s IH]; cbn [forall_chars]; auto.
  intros H. apply andb_true_iff in H. destruct H as [Hx Hs].
  apply andb_true_iff. auto.
Qed.

Lemma contains_lacks (c : ascii) (s : string) : contains c s = negb (lacks c s).
Proof.
  unfold lacks. induction s as [|x s IH]; cbn [contains forall_chars]; auto.
  rewrite IH. now destruct (Ascii.eqb x c), (forall_chars _ s).
Qed.

Lemma partition_lacks (c : ascii) (s : string) :
  lacks c s = true -> partition c s = None.
Proof.
  unfold lacks. induction s as [|x s IH]; cbn [partition forall_chars]; auto.
  intros H. apply andb_true_iff in H. destruct H as [Hx Hs].
  apply negb_true_iff in Hx. rewrite Hx, IH; auto.
Qed.

Lemma partition_at (c : ascii) (a b : string) :
  lacks c a = true -> partition c (a +++ String c b) = Some (a, b).
Proof.
  unfold lacks.
  induction a as [|x a IH]; cbn [String.append partition forall_chars].
  - now rewrite Ascii.eqb_refl.
  - intros H. apply andb_true_iff in H. destruct H as [Hx Hs].
    apply negb_true_iff in Hx. rewrite Hx, IH; auto.
Qed.

Lemma split_lacks (c : ascii) (s : string) : lacks c s = true -> split c s = [s].
Proof.
  unfold lacks. induction s as [|x s IH]; cbn [split forall_chars]; auto.
  intros H. apply andb_true_iff in H. destruct H as [Hx Hs].
  apply negb_true_iff in Hx. rewrite Hx, IH; auto.
Qed.

Lemma split_at (c : ascii) (a b : string) :
  lacks c a = true -> split c (a +++ String c b) = a :: split c b.
Proof.
  unfold lacks.
  induction a as [|x a IH]; cbn [String.append split forall_chars].
  - now rewrite Ascii.eqb_refl.
  - intros H. apply andb_true_iff in H. destruct H as [Hx Hs].
    apply negb_true_iff in Hx. rewrite Hx, IH; auto.
Qed.

Lemma filter_chars_all (keep : ascii -> bool) (s : string) :
  forall_chars keep s = true -> filter_chars keep s = s.
Proof.
  induction s as [|x s IH]; cbn [filter_chars forall_chars]; auto.
  intros H. apply andb_true_iff in H. destruct H as [Hx Hs].
  now rewrite Hx, IH.
Qed.

Lemma map_chars_fixed (f : ascii -> ascii) (p : ascii -> bool) (s : string) :
  (forall c, p c = true -> f c = c) ->
  forall_chars p s = true -> map_chars f s = s.
Proof.
  intros Hf. induction s as [|x s IH]; cbn [map_chars forall_chars]; auto.
  intros H. apply andb_true_iff in H. destruct H as [Hx Hs].
  now rewrite (Hf x Hx), IH.
Qed.

Lemma replace_char_lacks (a b : ascii) (s : string) :
  lacks a s = true -> replace_char a b s = s.
Proof.
  unfold lacks. induction s as [|x s IH]; cbn [replace_char forall_chars]; auto.
  intros H. apply andb_true_iff in H. destruct H as [Hx Hs].
  apply negb_true_iff in Hx. now rewrite Hx, IH.
Qed.

Lemma unquote_lacks (s : string) : lacks "%" s = true -> unquote s = s.
Proof.
  unfold lacks. induction s as [|x s IH]; cbn [unquote forall_chars]; auto.
  intros H. apply andb_true_iff in H. destruct H as [Hx Hs].
  apply negb_true_iff in Hx. now rewrite Hx, IH.
Qed.

End StringFacts.

Section QuoteFacts.

Lemma hex_value_digit (n : nat) : n < 16 -> hex_value (hex_digit n) = Some n.
Proof.
  intros H. do 16 (destruct n as [|n]; [reflexivity|]). lia.
Qed.

Lemma hex_digit_safe (n : nat) : n < 16 -> always_safe (hex_digit n) = true.
Proof.
  intros H. do 16 (destruct n as [|n]; [reflexivity|]). lia.
Qed.

Lemma code_bounded (c : ascii) : code c < 256.
Proof. apply nat_ascii_bounded. Qed.

Lemma code_split (c : ascii) :
  code c / 16 < 16 /\ code c mod 16 < 16
  /\ ascii_of_nat (16 * (code c / 16) + code c mod 16) = c.
Proof.
  pose proof (code_bounded c) as Hb. split; [|split].
  - apply Nat.Div0.div_lt_upper_bound. lia.
  - apply Nat.mod_upper_bound. lia.
  - rewrite <- Nat.div_mod_eq. apply ascii_nat_embedding.
Qed.

Lemma safe_not_percent (c : ascii) :
  always_safe c || Ascii.eqb c "/" = true -> Ascii.eqb c "%" = false.
Proof.
  destruct (Ascii.eqb_spec c "%") as [->|]; [discriminate|reflexivity].
Qed.

(** Decoding undoes the encoding. *)
Lemma unquote_quote (s : string) : unquote (quote s) = s.
Proof.
  induction s as [|c s IH]; [reflexivity|].
  cbn [quote]. unfold quote_char.
  destruct (always_safe c || Ascii.eqb c "/") eqn:Hsafe.
  - cbn [String.append unquote]. now rewrite (safe_not_percent c Hsafe), IH.
  - destruct (code_split c) as (Hhi & Hlo & Hc).
    cbn [String.append unquote]. rewrite Ascii.eqb_refl.
    now rewrite (hex_value_digit _ Hhi), (hex_value_digit _ Hlo), Hc, IH.
Qed.

(** A quoted string is made of safe characters, slashes and escapes. *)
Lemma quote_chars (s : string) : forall_chars quoted_char (quote s) = true.
Proof.
  induction s as [|c s IH]; [reflexivity|].
  cbn [quote]. rewrite forall_chars_app, IH, andb_true_r. unfold quote_char.
  destruct (always_safe c || Ascii.eqb c "/") eqn:Hsafe.
  - cbn [forall_chars]. unfold quoted_char. now rewrite Hsafe.
  - destruct (code_split c) as (Hhi & Hlo & _).
    cbn [forall_chars]. unfold quoted_char at 2 3.
    rewrite (hex_digit_safe _ Hhi), (hex_digit_safe _ Hlo). reflexivity.
Qed.

End QuoteFacts.

Section RoundTrip.

(** Facts about single characters, checked on each of them. *)
Ltac each_char :=
  let c := fresh "c" in
  intros c; destruct c as [[] [] [] [] [] [] [] []]; vm_compute;
  intros; congruence.

Lemma lower_scheme_char_scheme : forall c, lower_scheme_char c = true -> is_scheme_char c = true.
Proof. each_char. Qed.

Lemma lower_scheme_char_lower : forall c, lower_scheme_char c = true -> lower_char c = c.
Proof. each_char. Qed.

Lemma lower_scheme_char_colon :
  forall c, lower_scheme_char c = true -> negb (Ascii.eqb c ":") = true.
Proof. each_char. Qed.

Lemma lower_scheme_char_kept :
  forall c, lower_scheme_char c = true -> negb (is_unsafe_byte c) = true.
Proof. each_char. Qed.

Lemma is_lower_alpha : forall c, is_lower c = true -> is_alpha c = true.
Proof. each_char. Qed.

Lemma is_lower_not_space : forall c, is_lower c = true -> is_c0_or_space c = false.
Proof. each_char. Qed.

Lemma root_char_lacks (x : ascii) :
  is_one_of "&#?%+;" x = true ->
  forall c, root_char c = true -> negb (Ascii.eqb c x) = true.
Proof.
  intros Hx c Hc. destruct (Ascii.eqb_spec c x) as [->|]; [|reflexivity].
  unfold root_char in Hc. now rewrite Hx in Hc.
Qed.

Lemma root_char_kept : forall c, root_char c = true -> negb (is_unsafe_byte c) = true.
Proof. intros c H. unfold root_char in H. apply andb_true_iff in H. tauto. Qed.

Lemma quoted_char_lacks (x : ascii) :
  is_one_of "&#?+;=" x = true ->
  forall c, quoted_char c = true -> negb (Ascii.eqb c x) = true.
Proof.
  intros Hx c Hc. destruct (Ascii.eqb_spec c x) as [->|]; [|reflexivity].
  revert Hx Hc. revert x. each_char.
Qed.

Lemma quoted_char_kept : forall c, quoted_char c = true -> negb (is_unsafe_byte c) = true.
Proof. each_char. Qed.

Lemma lstrip_first (s x : string) :
  first_is is_lower s = true -> lstrip is_c0_or_space (s +++ x) = s +++ x.
Proof.
  destruct s as [|c s]; [discriminate|]. cbn [first_is String.append lstrip].
  intros H. now rewrite (is_lower_not_space c H).
Qed.

Lemma first_is_alpha (s : string) :
  first_is is_lower s = true -> first_is is_alpha s = true.
Proof. destruct s; [discriminate|]. apply is_lower_alpha. Qed.

(** [urlsplit] on a scheme, a colon, a part without ["#"] or ["?"] that
    does not begin a location, and a fragment. *)
Lemma urlsplit_plain (url_scheme pre : string) (frag : option string) :
  first_is is_lower url_scheme = true ->
  forall_chars lower_scheme_char url_scheme = true ->
  forall_chars (fun c => negb (is_unsafe_byte c)) pre = true ->
  lacks "#" pre = true ->
  lacks "?" pre = true ->
  startswith (pre +++ match frag with Some f => "#" +++ f | None => "" end) "//"
  = false ->
  match frag with
  | Some f => forall_chars (fun c => negb (is_unsafe_byte c)) f = true
  | None => True
  end ->
  urlsplit (url_scheme +++ ":" +++ pre
            +++ match frag with Some f => "#" +++ f | None => "" end)
  = Ok (mkParseResult url_scheme "" pre "" ""
          (match frag with Some f => f | None => "" end)).
Proof.
  intros Hfirst Hscheme Hpre Hhash Hquery Hloc Hfrag.
  set (tail := match frag with Some f => "#" +++ f | None => "" end) in *.
  assert (Hkept : forall_chars (fun c => negb (is_unsafe_byte c))
                    (url_scheme +++ ":" +++ pre +++ tail) = true).
  { rewrite !forall_chars_app.
    rewrite (forall_chars_impl _ _ _ lower_scheme_char_kept Hscheme), Hpre.
    subst tail. destruct frag as [f|]; [|reflexivity].
    cbn [String.append forall_chars]. now rewrite Hfrag. }
  unfold urlsplit.
  rewrite (lstrip_first _ _ Hfirst), (filter_chars_all _ _ Hkept).
  change (url_scheme +++ ":" +++ pre +++ tail)
    with (url_scheme +++ String ":" (pre +++ tail)).
  rewrite partition_at
    by (exact (forall_chars_impl _ _ _ lower_scheme_char_colon Hscheme)).
  rewrite (first_is_alpha _ Hfirst).
  rewrite (forall_chars_impl _ _ _ lower_scheme_char_scheme Hscheme).
  cbn [andb]. unfold lower.
  rewrite (map_chars_fixed _ _ _ lower_scheme_char_lower Hscheme).
  rewrite Hloc. cbn [bind].
  subst tail. destruct frag as [f|].
  - change (pre +++ "#" +++ f) with (pre +++ String "#" f).
    rewrite (partition_at _ _ _ Hhash), (partition_lacks _ _ Hquery).
    reflexivity.
  - rewrite append_empty_r.
    rewrite (partition_lacks _ _ Hhash), (partition_lacks _ _ Hquery).
    reflexivity.
Qed.

End RoundTrip.

Section RoundTripQuery.

Lemma plain_root_facts (root_value : string) :
  plain_root root_value = true ->
  nonempty root_value = true
  /\ forall_chars (fun c => negb (is_unsafe_byte c)) root_value = true
  /\ forall x, is_one_of "&#?%+;" x = true -> lacks x root_value = true.
Proof.
  unfold plain_root. intros H. apply andb_true_iff in H. destruct H as [Hne Hc].
  repeat split; auto.
  - exact (forall_chars_impl _ _ _ root_char_kept Hc).
  - intros x Hx. exact (forall_chars_impl _ _ _ (root_char_lacks x Hx) Hc).
Qed.

Lemma quote_facts (s : string) :
  forall_chars (fun c => negb (is_unsafe_byte c)) (quote s) = true
  /\ forall x, is_one_of "&#?+;=" x = true -> lacks x (quote s) = true.
Proof.
  split.
  - exact (forall_chars_impl _ _ _ quoted_char_kept (quote_chars s)).
  - intros x Hx. exact (forall_chars_impl _ _ _ (quoted_char_lacks x Hx) (quote_chars s)).
Qed.

Lemma quote_nonempty (s : string) : nonempty s = true -> nonempty (quote s) = true.
Proof.
  destruct s as [|c s]; [discriminate|]. intros _. cbn [quote]. unfold quote_char.
  destruct (always_safe c || Ascii.eqb c "/"); reflexivity.
Qed.

Lemma lacks_app (c : ascii) (a b : string) :
  lacks c (a +++ b) = lacks c a && lacks c b.
Proof. apply forall_chars_app. Qed.

Lemma split_join (x : string) (xs : list string) :
  Forall (fun seg => plain_part seg = true) (x :: xs) ->
  split "/" (join "/" (x :: xs)) = x :: xs.
Proof.
  revert x. induction xs as [|y ys IH]; intros x H; inversion H as [|? ? Hx Hxs]; subst;
    unfold plain_part in Hx; apply andb_true_iff in Hx; destruct Hx as [_ Hx].
  - now apply split_lacks.
  - change (join "/" (x :: y :: ys)) with (x +++ String "/" (join "/" (y :: ys))).
    rewrite split_at by assumption. f_equal. now apply IH.
Qed.

Lemma join_nonempty (x : string) (xs : list string) :
  nonempty x = true -> nonempty (join "/" (x :: xs)) = true.
Proof.
  destruct x as [|c x]; [discriminate|]. intros _. now destruct xs.
Qed.

Lemma filter_nonempty_parts (parts : list string) :
  Forall (fun seg => plain_part seg = true) parts -> filter nonempty parts = parts.
Proof.
  induction 1 as [|x xs Hx _ IH]; cbn [filter]; auto.
  unfold plain_part in Hx. apply andb_true_iff in Hx. destruct Hx as [-> _].
  now rewrite IH.
Qed.

Lemma parse_field (name value : string) (fields : list string) :
  lacks "=" name = true ->
  nonempty value = true ->
  parse_qsl_fields ((name +++ String "=" value) :: fields)
  = (unquote (plus_to_space name), unquote (plus_to_space value))
      :: parse_qsl_fields fields.
Proof.
  intros Hn Hv. cbn [parse_qsl_fields]. now rewrite partition_at, Hv.
Qed.

Lemma parse_qs_root (root_value : string) :
  plain_root root_value = true ->
  parse_qs ("root=" +++ root_value) = [("root", [root_value])].
Proof.
  intros Hroot. destruct (plain_root_facts _ Hroot) as (Hne & _ & Hlacks).
  unfold parse_qs, parse_qsl.
  replace (nonempty ("root=" +++ root_value)) with true by reflexivity.
  rewrite split_lacks.
  2:{ rewrite lacks_app, (Hlacks "&"%char eq_refl). reflexivity. }
  change ("root=" +++ root_value) with ("root" +++ String "=" root_value).
  rewrite parse_field by auto.
  unfold plus_to_space at 2.
  rewrite (replace_char_lacks _ _ _ (Hlacks "+"%char eq_refl)).
  rewrite (unquote_lacks _ (Hlacks "%"%char eq_refl)).
  reflexivity.
Qed.

Lemma parse_qs_root_path (root_value joined : string) :
  plain_root root_value = true ->
  nonempty joined = true ->
  parse_qs ("root=" +++ root_value +++ "&path=" +++ quote joined)
  = [("root", [root_value]); ("path", [joined])].
Proof.
  intros Hroot Hj. destruct (plain_root_facts _ Hroot) as (Hne & _ & Hlacks).
  destruct (quote_facts joined) as (_ & Hq).
  unfold parse_qs, parse_qsl.
  replace (nonempty ("root=" +++ root_value +++ "&path=" +++ quote joined))
    with true by reflexivity.
  change ("root=" +++ root_value +++ "&path=" +++ quote joined)
    with ("root=" +++ root_value +++ String "&" ("path=" +++ quote joined)).
  rewrite <- (append_assoc "root=" root_value).
  rewrite split_at.
  2:{ rewrite lacks_app, (Hlacks "&"%char eq_refl). reflexivity. }
  rewrite split_lacks.
  2:{ rewrite lacks_app, (Hq "&"%char eq_refl). reflexivity. }
  change (parse_qsl_fields ["root=" +++ root_value; "path=" +++ quote joined])
    with (parse_qsl_fields ["root" +++ String "=" root_value;
                            "path" +++ String "=" (quote joined)]).
  rewrite !parse_field by auto using quote_nonempty.
  unfold plus_to_space at 2 4.
  rewrite (replace_char_lacks _ _ _ (Hlacks "+"%char eq_refl)).
  rewrite (unquote_lacks _ (Hlacks "%"%char eq_refl)).
  rewrite (replace_char_lacks _ _ _ (Hq "+"%char eq_refl)).
  rewrite unquote_quote.
  reflexivity.
Qed.

End RoundTripQuery.

Section RoundTripMain.

Lemma startswith_hash (f : string) : startswith ("#" +++ f) "#" = true.
Proof. destruct f; reflexivity. Qed.

Lemma last_segment_cons (x y : string) (l : list string) :
  last_segment (x :: y :: l) = last_segment (y :: l).
Proof. reflexivity. Qed.

(** [build_url] on a query-style sequence. *)
Lemma build_url_query (url_scheme root_value : string) (parts : list string)
    (frag : option string) :
  String.eqb url_scheme "settings-navigation" = false ->
  match frag with
  | Some _ => True
  | None => startswith (last_segment (root_value :: parts)) "#" = false
  end ->
  build_url (url_scheme :: root_value :: parts ++ fragment_segment frag)
  = Ok (query_url url_scheme root_value parts frag).
Proof.
  intros Hsn Hlast. unfold build_url, query_url.
  replace (Nat.ltb 1 (List.length (url_scheme :: root_value :: parts ++ fragment_segment frag)))
    with true by reflexivity.
  rewrite Hsn.
  destruct frag as [f|]; cbn [fragment_segment].
  - change (url_scheme :: root_value :: parts ++ ["#" +++ f])
      with ((url_scheme :: root_value :: parts) ++ ["#" +++ f]).
    unfold last_segment. rewrite last_last, startswith_hash, removelast_last.
    cbn [nth_error bind skipn]. f_equal.
    destruct parts as [|p parts].
    + cbn [List.length Nat.ltb Nat.leb]. now rewrite !append_assoc.
    + replace (Nat.ltb 2 (List.length (url_scheme :: root_value :: p :: parts)))
        with true by reflexivity.
      now rewrite !append_assoc.
  - rewrite app_nil_r, last_segment_cons, Hlast.
    cbn [nth_error bind skipn]. f_equal.
    destruct parts as [|p parts].
    + cbn [List.length Nat.ltb Nat.leb]. now rewrite !append_assoc, !append_empty_r.
    + replace (Nat.ltb 2 (List.length (url_scheme :: root_value :: p :: parts)))
        with true by reflexivity.
      now rewrite !append_assoc, !append_empty_r.
Qed.

(** [get_path_segments] on a query-style URL. *)
Lemma get_path_segments_query (url_scheme root_value : string)
    (parts : list string) (frag : option string) :
  plain_scheme url_scheme = true ->
  plain_root root_value = true ->
  Forall (fun seg => plain_part seg = true) parts ->
  match frag with
  | Some f => plain_fragment f = true
  | None => True
  end ->
  get_path_segments (query_url url_scheme root_value parts frag)
  = Ok (url_scheme :: root_value :: parts ++ fragment_segment frag).
Proof.
  intros Hscheme Hroot Hparts Hfrag.
  unfold plain_scheme in Hscheme.
  apply andb_true_iff in Hscheme. destruct Hscheme as [Hscheme _].
  apply andb_true_iff in Hscheme. destruct Hscheme as [Hfirst Hchars].
  destruct (plain_root_facts _ Hroot) as (Hne & Hkept & Hlacks).
  set (path_text := match parts with
                    | [] => ""
                    | _ => "&path=" +++ quote (join "/" parts)
                    end).
  set (pre := "root=" +++ root_value +++ path_text).
  assert (Hurl : query_url url_scheme root_value parts frag
                 = url_scheme +++ ":" +++ pre
                   +++ match frag with Some f => "#" +++ f | None => "" end).
  { unfold query_url, pre. fold path_text. now rewrite !append_assoc. }
  assert (Hpath_kept : forall_chars (fun c => negb (is_unsafe_byte c)) path_text = true).
  { subst path_text. destruct parts; [reflexivity|].
    rewrite forall_chars_app. now rewrite (proj1 (quote_facts _)). }
  assert (Hpath_lacks : forall x, is_one_of "#?;" x = true -> lacks x path_text = true).
  { intros x Hx. subst path_text. destruct parts; [reflexivity|].
    rewrite lacks_app, (proj2 (quote_facts _) x).
    - revert Hx. clear. destruct x as [[] [] [] [] [] [] [] []]; vm_compute; congruence.
    - revert Hx. clear. destruct x as [[] [] [] [] [] [] [] []]; vm_compute; congruence. }
  assert (Hpre_lacks : forall x, is_one_of "#?;" x = true -> lacks x pre = true).
  { intros x Hx. subst pre. rewrite !lacks_app, (Hpath_lacks x Hx), (Hlacks x).
    - revert Hx. clear. destruct x as [[] [] [] [] [] [] [] []]; vm_compute; congruence.
    - revert Hx. clear. destruct x as [[] [] [] [] [] [] [] []]; vm_compute; congruence. }
  assert (Hsplit : urlsplit (query_url url_scheme root_value parts frag)
                   = Ok (mkParseResult url_scheme "" pre "" ""
                           (match frag with Some f => f | None => "" end))).
  { rewrite Hurl. apply urlsplit_plain.
    - exact Hfirst.
    - exact Hchars.
    - subst pre. now rewrite !forall_chars_app, Hkept, Hpath_kept.
    - apply (Hpre_lacks "#"%char eq_refl).
    - apply (Hpre_lacks "?"%char eq_refl).
    - reflexivity.
    - destruct frag as [f|]; [|exact I]. unfold plain_fragment in Hfrag.
      apply andb_true_iff in Hfrag. tauto. }
  unfold get_path_segments, urlparse. rewrite Hsplit. cbn [bind scheme path].
  rewrite contains_lacks, (Hpre_lacks ";"%char eq_refl), andb_false_r.
  cbn [bind scheme netloc path fragment]. f_equal.
  change (nonempty "") with false. cbv iota.
  change ([url_scheme] ++ ?x) with (url_scheme :: x). f_equal.
  assert (Hquery : query_segments (parse_qs pre) = root_value :: parts).
  { subst pre path_text. destruct parts as [|p parts].
    - rewrite append_empty_r, parse_qs_root by assumption. reflexivity.
    - assert (Hp : nonempty p = true).
      { inversion Hparts as [|? ? Hp _]; subst. unfold plain_part in Hp.
        apply andb_true_iff in Hp. tauto. }
      rewrite parse_qs_root_path by auto using join_nonempty.
      unfold query_segments.
      replace (dict_get "root" [("root", [root_value]); ("path", [join "/" (p :: parts)])])
        with (Some [root_value]) by reflexivity.
      replace (dict_get "path" [("root", [root_value]); ("path", [join "/" (p :: parts)])])
        with (Some [join "/" (p :: parts)]) by reflexivity.
      cbn [flat_map app]. rewrite ?app_nil_r. unfold path_parts.
      rewrite split_join by assumption.
      now rewrite (filter_nonempty_parts _ Hparts). }
  rewrite Hquery. cbn [app]. do 2 f_equal.
  destruct frag as [f|]; [|reflexivity].
  unfold plain_fragment in Hfrag. apply andb_true_iff in Hfrag.
  destruct Hfrag as [-> _]. reflexivity.
Qed.

End RoundTripMain.

(** X29 (codec).  The round trip holds on the query-style URLs.  For a
    scheme that begins with a lower-case letter, consists of lower-case
    letters, digits and ["+-."] and is not [settings-navigation], a
    non-empty root without the characters ["&#?%+;"], tab, carriage
    return and line feed, path parts that are non-empty and without ["/"]
    but otherwise arbitrary, and an optional non-empty fragment without
    tab, carriage return and line feed, [build_url] returns a URL from
    which [get_path_segments] gives the same segments back.  (Without a
    fragment, the last segment must not itself start with ["#"].) *)
Theorem codec_round_trip_query_style (url_scheme root_value : string)
    (parts : list string) (frag : option string) :
  plain_scheme url_scheme = true ->
  plain_root root_value = true ->
  Forall (fun seg => plain_part seg = true) parts ->
  match frag with
  | Some f => plain_fragment f = true
  | None => startswith (last_segment (root_value :: parts)) "#" = false
  end ->
  exists u,
    build_url (url_scheme :: root_value :: parts ++ fragment_segment frag) = Ok u
    /\ get_path_segments u
       = Ok (url_scheme :: root_value :: parts ++ fragment_segment frag).
Proof.
  intros Hscheme Hroot Hparts Hfrag.
  exists (query_url url_scheme root_value parts frag). split.
  - apply build_url_query.
    + unfold plain_scheme in Hscheme. apply andb_true_iff in Hscheme.
      destruct Hscheme as [_ H]. now apply negb_true_iff in H.
    + destruct frag; auto.
  - apply get_path_segments_query; auto. destruct frag; auto.
Qed.

Lemma codec_round_trip_query_style_witness :
  exists u,
    build_url ("prefs" :: "General" :: ["Keyboard & Input"; "100%"]
               ++ fragment_segment (Some "top"))
    = Ok u
    /\ get_path_segments u
       = Ok ("prefs" :: "General" :: ["Keyboard & Input"; "100%"]
             ++ fragment_segment (Some "top")).
Proof.
  apply (codec_round_trip_query_style "prefs" "General"
           ["Keyboard & Input"; "100%"] (Some "top")); try reflexivity.
  repeat constructor.
Defined.

Example query_style_url_sample :
  build_url ["prefs"; "General"; "Keyboard & Input"; "100%"; "#top"]
  = Ok "prefs:root=General&path=Keyboard%20%26%20Input/100%25#top".
Proof. reflexivity. Qed.

(* ================================================================== *)
(** * Recursive aliases *)
(* ================================================================== *)

Section RecursiveAliasResult.






End RecursiveAliasResult.

Section RecursiveAliasReturns.

Variables url_scheme root_value alias_scheme alias_root : string.

Hypothesis scheme_plain : plain_scheme url_scheme = true.
Hypothesis root_plain : plain_root root_value = true.
Hypothesis alias_scheme_plain : plain_scheme alias_scheme = true.
Hypothesis alias_root_plain : plain_root alias_root = true.









End RecursiveAliasReturns.



(** The recursion at work on the same tree: the child [x] and its child
    [y] get their aliases, and the gap [w] stops the recursion, so that
    its child [v] gets none. *)
Example add_alias_family_sample :
  match
    add_alias tree_with_family "prefs:root=A" "prefs:root=B" true None no_globals
  with
  | Ok (t', _) =>
      map (fun path =>
             option_map (fun n => option_map aliases (root n)) (subtree t' path))
        [["prefs"; "A"; "x"]; ["prefs"; "A"; "x"; "y"]; ["prefs"; "A"; "w"; "v"]]
      = [Some (Some (Some ["prefs:root=B&path=x"]));
         Some (Some (Some ["prefs:root=B&path=x/y"]));
         Some (Some None)]
  | Raise _ => False
  end.
Proof. vm_compute. reflexivity. Qed.
